(** * Two-point flux approximation (porepy/numerics/fv/tpfa.py)

    A shallow embedding of the TPFA discretisation of PorePy and of its two
    inter-dimensional coupling assemblers, together with the properties the
    specification states about them.

    Conventions of the embedding.
    - Numbers are exact rationals ([Qc]); the source computes in float64, so
      every statement below is about the arithmetic the code performs, without
      rounding.
    - NumPy divides by zero without raising and stores [inf] or [nan], which
      are not rationals, while [Qc] has [x / 0 = 0]: the embedding agrees
      with the code where no division by zero occurs, and a statement whose
      conclusion contains a quotient assumes that its divisor is not zero.
      Between two Python numbers a division by zero raises, in the code and
      in the embedding.
    - Python exceptions are values of [pyerr]; a fallible computation returns
      [result A].
    - NumPy arrays are lists; a [(3, N)] array is the list of its [N] columns
      and a [(3, 3, N)] array the list of its [N] matrices.
    - SciPy sparse matrices are triplet lists with a shape; duplicate entries
      add up, as they do in SciPy. *)

From Stdlib Require Import QArith Qcanon Qcabs.
From stdpp Require Import base numbers list strings gmap.

(** ** Python exceptions and the error monad *)

Inductive pyerr : Type :=
  | KeyError (k : string)
  | ValueError
  | IndexError
  | TypeError
  | AttributeError
  | ZeroDivisionError.

Inductive result (A : Type) : Type :=
  | Ok (a : A)
  | Raise (e : pyerr).
Arguments Ok {A} a.
Arguments Raise {A} e.

#[global] Instance result_ret : MRet result := λ A a, Ok a.
#[global] Instance result_bind : MBind result := λ A B f r,
  match r with Ok a => f a | Raise e => Raise e end.
#[global] Instance result_fmap : FMap result := λ A B f r,
  match r with Ok a => Ok (f a) | Raise e => Raise e end.

#[global] Instance pyerr_eq_dec : EqDecision pyerr.
Proof. solve_decision. Defined.
#[global] Instance result_eq_dec {A} `{EqDecision A} : EqDecision (result A).
Proof. solve_decision. Defined.

(** Sequencing: the computation is elaborated before its continuation. *)
Definition rbind {A B} (r : result A) (f : A → result B) : result B :=
  match r with Ok a => f a | Raise e => Raise e end.

Notation "'let!' x := r 'in' k" := (rbind r (λ x, k))
  (at level 10, x pattern, r at level 100, k at level 200, only parsing).

Definition is_Ok {A} (r : result A) : Prop := ∃ a, r = Ok a.

#[global] Instance is_Ok_dec {A} (r : result A) : Decision (is_Ok r).
Proof.
  destruct r as [a|e]; [left; by exists a|right; by intros [a [=]]].
Defined.

(** Lift an optional value, raising [e] when it is absent. *)
Definition from_option_or {A} (e : pyerr) (o : option A) : result A :=
  match o with Some a => Ok a | None => Raise e end.

(** ** Scalars and small vectors *)

Definition qsum (l : list Qc) : Qc := foldr Qcplus 0%Qc l.

(** [1 / x] on an entry of an array.  For [x = 0] NumPy stores [inf], and
    [Qc] gives 0: what is stated about a reciprocal is stated for a
    non-zero argument, or does not depend on its value. *)
Definition recip (x : Qc) : Qc := (1 / x)%Qc.

(** A column of a [(3, N)] array and a slice of a [(3, 3, N)] array. *)
Definition vec3 : Type := Qc * Qc * Qc.
Definition mat3 : Type := vec3 * vec3 * vec3.

Definition vzero : vec3 := (0, 0, 0)%Qc.
Definition vscale (v : vec3) (a : Qc) : vec3 :=
  let '(x, y, z) := v in (x * a, y * a, z * a)%Qc.
Definition vsub (u v : vec3) : vec3 :=
  let '(x, y, z) := u in let '(x', y', z') := v in (x - x', y - y', z - z')%Qc.
Definition vmul (u v : vec3) : vec3 :=
  let '(x, y, z) := u in let '(x', y', z') := v in (x * x', y * y', z * z')%Qc.
(** Sum of a column (the [sum(axis=0)] of a [(3, N)] array, column by column). *)
Definition vsum (v : vec3) : Qc := let '(x, y, z) := v in (x + y + z)%Qc.
Definition dot (u v : vec3) : Qc := vsum (vmul u v).

(** [perm * n] on one slice: entry [(i, j)] of the tensor times entry [j] of
    the vector (NumPy broadcasts the [(3, N)] operand over the first axis). *)
Definition mat_bcast_mul (K : mat3) (v : vec3) : mat3 :=
  let '(r1, r2, r3) := K in (vmul r1 v, vmul r2 v, vmul r3 v).
(** [sum(axis=1)] on one slice of a [(3, 3, N)] array. *)
Definition mat_sum_axis1 (K : mat3) : vec3 :=
  let '(r1, r2, r3) := K in (vsum r1, vsum r2, vsum r3).

(** The square root used by [np.linalg.norm].  Rationals have no square
    root in general, so the development is parameterised by one that is
    exact wherever the root is rational: the root of the square of a
    non-negative number is that number. *)
Class Sqrt := {
  sqrt : Qc → Qc;
  sqrt_square : ∀ y : Qc, (0 ≤ y)%Qc → sqrt (y * y)%Qc = y
}.

(** [np.linalg.norm(., 2, axis=0)] on one column. *)
Definition norm2 `{Sqrt} (v : vec3) : Qc := sqrt (vsum (vmul v v)).

(** ** NumPy primitives *)

Module Np.

(** [a[idx]] for an integer index array; an index past the end raises
    [IndexError]. *)
Definition take {A} (a : list A) (idx : list nat) : result (list A) :=
  from_option_or IndexError (mapM (λ i, a !! i) idx).

(** The elements of [a] at the positions where [m] is true. *)
Fixpoint mask_sel {A} (m : list bool) (a : list A) : list A :=
  match m, a with
  | b :: m', x :: a' => if b then x :: mask_sel m' a' else mask_sel m' a'
  | _, _ => []
  end.

(** [a[m]] for a boolean mask of the length of [a]. *)
Definition getmask {A} (a : list A) (m : list bool) : result (list A) :=
  if decide (length m = length a) then Ok (mask_sel m a) else Raise IndexError.

(** Write [vals], in order, at the positions where [m] is true. *)
Fixpoint mask_put {A} (m : list bool) (a vals : list A) : list A :=
  match m, a with
  | true :: m', x :: a' =>
      match vals with
      | v :: vs => v :: mask_put m' a' vs
      | [] => x :: a'
      end
  | false :: m', x :: a' => x :: mask_put m' a' vals
  | _, _ => a
  end.

(** [a[m] = v] for a scalar [v]. *)
Definition setmask_scalar {A} (a : list A) (m : list bool) (v : A)
  : result (list A) :=
  if decide (length m = length a)
  then Ok (zip_with (λ (b : bool) x, if b then v else x) m a)
  else Raise IndexError.

(** [a[m] = vals] for an array [vals]: as many values as true positions, or
    a single value that is broadcast. *)
Definition setmask {A} (a : list A) (m : list bool) (vals : list A)
  : result (list A) :=
  if decide (length m = length a) then
    if decide (length vals = length (filter (λ b, b = true) m))
    then Ok (mask_put m a vals)
    else match vals with
         | [v] => setmask_scalar a m v
         | _ => Raise ValueError
         end
  else Raise IndexError.

(** [a[idx] = v] for an integer index array and a scalar. *)
Definition setindex_scalar {A} (a : list A) (idx : list nat) (v : A)
  : result (list A) :=
  if decide (Forall (λ i, i < length a) idx)
  then Ok (foldl (λ acc i, <[i := v]> acc) a idx)
  else Raise IndexError.

(** Element-wise binary operation with NumPy's broadcasting along the last
    axis: equal lengths, or one operand of length one. *)
Definition bcast {A B C} (f : A → B → C) (a : list A) (b : list B)
  : result (list C) :=
  if decide (length a = length b) then Ok (zip_with f a b)
  else match a, b with
       | [x], _ => Ok (f x <$> b)
       | _, [y] => Ok ((λ x, f x y) <$> a)
       | _, _ => Raise ValueError
       end.

(** In-place variant ([a *= b]): the result must have the shape of [a]. *)
Definition bcast_inplace {A B} (f : A → B → A) (a : list A) (b : list B)
  : result (list A) :=
  if decide (length a = length b) then Ok (zip_with f a b)
  else match b with
       | [y] => Ok ((λ x, f x y) <$> a)
       | _ => Raise ValueError
       end.

(** Length of the output of [np.bincount]. *)
Definition bincount_size (x : list nat) : nat :=
  match x with [] => 0 | _ => S (max_list x) end.

(** [np.bincount(x, weights=w)]: one accumulator per value up to the largest
    one in [x]; each weight is added to the accumulator of its index. *)
Definition bincount (x : list nat) (w : list Qc) : result (list Qc) :=
  if decide (length w = length x)
  then Ok (foldl (λ out (p : nat * Qc), alter (λ s, (s + p.2)%Qc) p.1 out)
             (replicate (bincount_size x) 0%Qc) (zip x w))
  else Raise ValueError.

(** The positions of [x] that hold [v], in increasing order. *)
Definition positions (v : nat) (x : list nat) : list nat :=
  filter (λ k, x !! k = Some v) (seq 0 (length x)).

(** [np.argsort(x)]: a permutation that sorts [x]; positions are emitted
    value by value, ties in their original order. *)
Definition argsort (x : list nat) : list nat :=
  seq 0 (bincount_size x) ≫= λ v, positions v x.

(** [np.unique(x, return_index=True)[1]]: for each distinct value, in
    increasing order of value, the position of its first occurrence. *)
Definition unique_index (x : list nat) : list nat :=
  omap (λ v, head (positions v x)) (seq 0 (bincount_size x)).

(** [np.sign]. *)
Definition sign (x : Qc) : Qc :=
  match (x ?= 0)%Qc with Lt => (-1)%Qc | Eq => 0%Qc | Gt => 1%Qc end.

Definition zeros (n : nat) : list Qc := replicate n 0%Qc.

End Np.

(** ** SciPy sparse matrices *)

(** A sparse matrix: its shape and its stored triplets [(row, column, value)].
    Triplets at the same position add up. *)
Record smatrix : Type := SMat {
  nrows : nat;
  ncols : nat;
  entries : list (nat * nat * Qc)
}.

#[global] Instance smatrix_eq_dec : EqDecision smatrix.
Proof. solve_decision. Defined.

Module Sp.

Definition entry_at (i j : nat) (e : nat * nat * Qc) : option Qc :=
  if decide (e.1.1 = i ∧ e.1.2 = j) then Some e.2 else None.

(** The mathematical entry [M[i, j]]. *)
Definition mget (M : smatrix) (i j : nat) : Qc :=
  qsum (omap (entry_at i j) (entries M)).

(** Every stored triplet lies inside the shape (SciPy checks this when a
    matrix is built). *)
Definition in_shape (M : smatrix) : Prop :=
  Forall (λ e : nat * nat * Qc, e.1.1 < nrows M ∧ e.1.2 < ncols M) (entries M).

(** [sps.coo_matrix((n, m))]: the empty matrix of a given shape. *)
Definition zero (n m : nat) : smatrix := SMat n m [].

(** [M.T] *)
Definition transpose (M : smatrix) : smatrix :=
  SMat (ncols M) (nrows M) ((λ e, (e.1.2, e.1.1, e.2)) <$> entries M).

(** [s * M] *)
Definition scale (s : Qc) (M : smatrix) : smatrix :=
  SMat (nrows M) (ncols M) ((λ e, (e.1.1, e.1.2, (s * e.2)%Qc)) <$> entries M).

(** [-M] *)
Definition neg (M : smatrix) : smatrix :=
  SMat (nrows M) (ncols M) ((λ e, (e.1.1, e.1.2, (- e.2)%Qc)) <$> entries M).

(** [A * B] for two sparse matrices: the matrix product; the inner
    dimensions must agree. *)
Definition mul (A B : smatrix) : result smatrix :=
  if decide (ncols A = nrows B) then
    Ok (SMat (nrows A) (ncols B)
          (flat_map (λ a : nat * nat * Qc,
             omap (λ b : nat * nat * Qc,
               if decide (a.1.2 = b.1.1)
               then Some (a.1.1, b.1.2, (a.2 * b.2)%Qc) else None)
             (entries B))
          (entries A)))
  else Raise ValueError.

(** [A * v] for a sparse matrix and a one-dimensional array. *)
Definition matvec (A : smatrix) (v : list Qc) : result (list Qc) :=
  if decide (length v = ncols A) then
    Ok ((λ i, qsum ((λ e : nat * nat * Qc,
                 if decide (e.1.1 = i)
                 then (e.2 * default 0%Qc (v !! e.1.2))%Qc else 0%Qc)
               <$> entries A))
        <$> seq 0 (nrows A))
  else Raise ValueError.

(** [A + B] *)
Definition add (A B : smatrix) : result smatrix :=
  if decide (nrows A = nrows B ∧ ncols A = ncols B)
  then Ok (SMat (nrows A) (ncols A) (entries A ++ entries B))
  else Raise ValueError.

(** [A - B] *)
Definition sub (A B : smatrix) : result smatrix := add A (neg B).

(** [sps.diags(v)]: the square matrix with [v] on its main diagonal. *)
Definition diags (v : list Qc) : smatrix :=
  SMat (length v) (length v) (imap (λ i x, (i, i, x)) v).

(** [sps.dia_matrix((v, 0), (n, m))]: [v] on the main diagonal of an
    [n × m] matrix, as far as the diagonal reaches. *)
Definition dia_matrix (v : list Qc) (n m : nat) : smatrix :=
  SMat n m (imap (λ i x, (i, i, x)) (take (n `min` m) v)).

(** [sps.coo_matrix((data, (I, J)), shape)] and [sps.csr_matrix] of the same
    arguments.  Without a shape it is inferred from the largest indices. *)
Definition coo_matrix (data : list Qc) (I J : list nat)
    (shape : option (nat * nat)) : result smatrix :=
  if decide (length I = length data ∧ length J = length data) then
    match shape with
    | Some (n, m) =>
        if decide (Forall (λ i, i < n) I ∧ Forall (λ j, j < m) J)
        then Ok (SMat n m (zip (zip I J) data))
        else Raise ValueError
    | None =>
        match I with
        | [] => Raise ValueError
        | _ => Ok (SMat (S (max_list I)) (S (max_list J)) (zip (zip I J) data))
        end
    end
  else Raise ValueError.

(** The non-zero entries in canonical order: column by column, rows
    increasing, duplicates added up. *)
Definition canonical (n m : nat) (f : nat → nat → Qc) : list (nat * nat * Qc) :=
  seq 0 m ≫= λ j,
    omap (λ i, if decide (f i j = 0%Qc) then None else Some (i, j, f i j))
      (seq 0 n).

(** [sps.find(M)]: rows, columns and values of the non-zero entries. *)
Definition find (M : smatrix) : list nat * list nat * list Qc :=
  let es := canonical (nrows M) (ncols M) (mget M) in
  ((λ e, e.1.1) <$> es, (λ e, e.1.2) <$> es, (λ e, e.2) <$> es).

(** [M[idx, :]] for a column-compressed matrix: row [k] of the result is
    row [idx[k]] of [M]. *)
Definition row_select (M : smatrix) (idx : list nat) : result smatrix :=
  if decide (Forall (λ i, i < nrows M) idx) then
    Ok (SMat (length idx) (ncols M)
          (canonical (length idx) (ncols M)
             (λ k j, mget M (default 0 (idx !! k)) j)))
  else Raise IndexError.

(** The [.data] and [.indices] arrays of a column-compressed matrix. *)
Definition data (M : smatrix) : list Qc := (λ e, e.2) <$> entries M.
Definition indices (M : smatrix) : list nat := (λ e, e.1.1) <$> entries M.

(** [M.A.sum(axis=1)]: the row sums. *)
Definition row_sums (M : smatrix) : list Qc :=
  (λ i, qsum ((λ e : nat * nat * Qc,
                 if decide (e.1.1 = i) then e.2 else 0%Qc) <$> entries M))
  <$> seq 0 (nrows M).

(** [sps.hstack([A, B])] *)
Definition hstack (A B : smatrix) : result smatrix :=
  if decide (nrows A = nrows B)
  then Ok (SMat (nrows A) (ncols A + ncols B)
             (entries A ++ ((λ e, (e.1.1, ncols A + e.1.2, e.2)) <$> entries B)))
  else Raise ValueError.

End Sp.

(** ** Grids, parameters and the data records *)

(** The attributes of a grid the discretisation reads.  [boundary_faces] is
    the result of [g.get_boundary_faces()]. *)
Record Grid : Type := {
  dim : nat;
  num_cells : nat;
  num_faces : nat;
  cell_faces : smatrix;
  face_normals : list vec3;
  face_centers : list vec3;
  cell_centers : list vec3;
  face_areas : list Qc;
  get_boundary_faces : list nat
}.

Record SecondOrderTensor : Type := { perm : list mat3 }.

Record BoundaryCondition : Type := {
  is_dir : list bool;
  is_neu : list bool
}.

(** The parameter object stored under the ['param'] key. *)
Record Parameters : Type := {
  get_tensor : SecondOrderTensor;
  get_bc : BoundaryCondition;
  get_aperture : option (list Qc);
  get_bc_val : list Qc
}.

Record MortarGrid : Type := {
  mg_num_cells : nat;
  cell_volumes : list Qc;
  high_to_mortar_avg : smatrix;
  low_to_mortar_avg : smatrix
}.

(** The kinds of value the records hold. *)
Inductive value : Type :=
  | VMat (M : smatrix)
  | VNum (q : Qc)
  | VBool (b : bool)
  | VArr (a : list Qc)
  | VParam (p : Parameters)
  | VMortar (mg : MortarGrid)
  | VBlocks (cc : list (list smatrix)).

#[global] Instance Grid_eq_dec : EqDecision Grid.
Proof. solve_decision. Defined.
#[global] Instance SecondOrderTensor_eq_dec : EqDecision SecondOrderTensor.
Proof. solve_decision. Defined.
#[global] Instance BoundaryCondition_eq_dec : EqDecision BoundaryCondition.
Proof. solve_decision. Defined.
#[global] Instance Parameters_eq_dec : EqDecision Parameters.
Proof. solve_decision. Defined.
#[global] Instance MortarGrid_eq_dec : EqDecision MortarGrid.
Proof. solve_decision. Defined.
#[global] Instance value_eq_dec : EqDecision value.
Proof. solve_decision. Defined.

(** A data record: a Python dictionary with string keys. *)
Abbreviation record := (gmap string value).

(** ** Python operators on record values *)

Module Py.

(** [d[k]]: a missing key raises [KeyError]. *)
Definition getitem (d : record) (k : string) : result value :=
  from_option_or (KeyError k) (d !! k).

(** [d.get(k, default)] *)
Definition get (d : record) (k : string) (dflt : value) : value :=
  default dflt (d !! k).

(** Attribute access on the parameter object and on the mortar grid. *)
Definition as_param (v : value) : result Parameters :=
  match v with VParam p => Ok p | _ => Raise AttributeError end.
Definition as_mortar (v : value) : result MortarGrid :=
  match v with VMortar mg => Ok mg | _ => Raise AttributeError end.

(** The operand is used as a sparse matrix. *)
Definition as_matrix (v : value) : result smatrix :=
  match v with VMat M => Ok M | _ => Raise TypeError end.

(** Truth value of an object in an [if]. *)
Definition truthy (v : value) : result bool :=
  match v with
  | VBool b => Ok b
  | VNum q => Ok (bool_decide (q ≠ 0%Qc))
  | VMat M =>
      if decide (nrows M = 1 ∧ ncols M = 1)
      then Ok (bool_decide (Sp.mget M 0 0 ≠ 0%Qc)) else Raise ValueError
  | VArr [x] => Ok (bool_decide (x ≠ 0%Qc))
  | VArr [] => Ok false
  | VArr _ => Raise ValueError
  | VBlocks _ => Raise ValueError
  | VParam _ | VMortar _ => Ok true
  end.

(** A number, or a boolean used as a number. *)
Definition as_scalar (v : value) : option Qc :=
  match v with
  | VNum q => Some q
  | VBool b => Some (if b then 1%Qc else 0%Qc)
  | _ => None
  end.

(** [x * y] *)
Definition mul (x y : value) : result value :=
  match x, y with
  | VMat A, VMat B => VMat <$> Sp.mul A B
  | VMat A, VArr v => VArr <$> Sp.matvec A v
  | VArr v, VMat B => VArr <$> Sp.matvec (Sp.transpose B) v
  | VArr u, VArr v => VArr <$> Np.bcast Qcmult u v
  | VMat A, _ =>
      match as_scalar y with
      | Some s => Ok (VMat (Sp.scale s A)) | None => Raise TypeError
      end
  | _, VMat B =>
      match as_scalar x with
      | Some s => Ok (VMat (Sp.scale s B)) | None => Raise TypeError
      end
  | VArr u, _ =>
      match as_scalar y with
      | Some s => Ok (VArr ((λ a, (a * s)%Qc) <$> u)) | None => Raise TypeError
      end
  | _, VArr v =>
      match as_scalar x with
      | Some s => Ok (VArr ((λ a, (s * a)%Qc) <$> v)) | None => Raise TypeError
      end
  | _, _ =>
      match as_scalar x, as_scalar y with
      | Some s, Some s' => Ok (VNum (s * s')%Qc)
      | _, _ => Raise TypeError
      end
  end.

(** [-x] *)
Definition neg (x : value) : result value :=
  match x with
  | VMat A => Ok (VMat (Sp.neg A))
  | VArr u => Ok (VArr (Qcopp <$> u))
  | _ =>
      match as_scalar x with
      | Some s => Ok (VNum (- s)%Qc) | None => Raise TypeError
      end
  end.

(** [x + y] where a sparse matrix is involved: both operands must be
    matrices (the records hold no dense two-dimensional array). *)
Definition add (x y : value) : result value :=
  match x, y with
  | VMat A, VMat B => VMat <$> Sp.add A B
  | _, _ => Raise TypeError
  end.

(** [x - y], same restriction. *)
Definition sub (x y : value) : result value :=
  match x, y with
  | VMat A, VMat B => VMat <$> Sp.sub A B
  | _, _ => Raise TypeError
  end.

(** A number or a one-dimensional array, as an array operand: a scalar
    broadcasts like an array of length one. *)
Definition as_array (v : value) : result (list Qc) :=
  match v with
  | VArr a => Ok a
  | _ =>
      match as_scalar v with
      | Some s => Ok [s] | None => Raise TypeError
      end
  end.

(** [x / y] for numbers and one-dimensional arrays.  Between two Python
    numbers a zero divisor raises [ZeroDivisionError]; as soon as an array is
    involved NumPy divides element by element and does not raise. *)
Definition div (x y : value) : result value :=
  match x, y with
  | VMat _, _ | _, VMat _ => Raise TypeError
  | VArr u, VArr v => VArr <$> Np.bcast Qcdiv u v
  | VArr u, _ =>
      match as_scalar y with
      | Some s => Ok (VArr ((λ a, (a / s)%Qc) <$> u)) | None => Raise TypeError
      end
  | _, VArr v =>
      match as_scalar x with
      | Some s => Ok (VArr ((λ a, (s / a)%Qc) <$> v)) | None => Raise TypeError
      end
  | _, _ =>
      match as_scalar x, as_scalar y with
      | Some s, Some s' =>
          if decide (s' = 0%Qc) then Raise ZeroDivisionError
          else Ok (VNum (s / s')%Qc)
      | _, _ => Raise TypeError
      end
  end.

(** [cc[i, j]] and [cc[i, j] = v] on a two-dimensional object array. *)
Definition get_block {A} (cc : list (list A)) (i j : nat) : result A :=
  from_option_or IndexError (cc !! i ≫= λ row, row !! j).
Definition set_block {A} (cc : list (list A)) (i j : nat) (v : A)
  : list (list A) :=
  alter (λ row, <[j := v]> row) i cc.

(** Element-wise sum of two block arrays of the same shape. *)
Definition add_blocks (x y : list (list value)) : result (list (list value)) :=
  if decide (length x = length y ∧
             Forall2 (λ r r' : list value, length r = length r') x y)
  then mapM (λ rr : list value * list value,
               mapM (λ p : value * value, add p.1 p.2) (zip rr.1 rr.2))
         (zip x y)
  else Raise ValueError.

End Py.

(** ** The divergence builder *)

Module fvutils.

(** Modelled from the spec: [fvutils.scalar_divergence] is not part of the
    file; the specification describes it as the map from a grid's signed
    cell-face incidence to the divergence operator taking faces to cells,
    that is the transpose of [g.cell_faces]. *)
Definition scalar_divergence (g : Grid) : smatrix :=
  Sp.transpose (cell_faces g).

End fvutils.

(** ** class Tpfa *)

Module Tpfa.

(** [Tpfa.ndof] *)
Definition ndof (g : Grid) : nat := num_cells g.

(** Lines 194-223 of [Tpfa.discretize]: the (face, cell) incidences and the
    half-transmissibility of each of them.  Returns [fi], [ci], [sgn] and
    [t_face] after the final division. *)
Definition half_transmissibilities `{Sqrt} (g : Grid) (data : record)
    (k : SecondOrderTensor) (aperture : option (list Qc))
  : result (list nat * list nat * list Qc * list Qc) :=
  let '(fi, ci, sgn) := Sp.find (cell_faces g) in
  (* Normal vectors and permeability for each face (here and there side) *)
  let! n := match aperture return result (list vec3) with
       | None => Np.take (face_normals g) fi
       | Some a =>
           let! nf := Np.take (face_normals g) fi in
           let! ac := Np.take a ci in
           Np.bcast vscale nf ac
       end in
  let! n := Np.bcast_inplace vscale n sgn in
  let! perm := Np.take (perm k) ci in
  (* Distance from face center to cell center *)
  let! fcs := Np.take (face_centers g) fi in
  let! ccs := Np.take (cell_centers g) ci in
  let! fc_cc := Np.bcast vsub fcs ccs in
  (* nk = perm * n; nk = nk.sum(axis=1) *)
  let! nk := Np.bcast mat_bcast_mul perm n in
  let nk := mat_sum_axis1 <$> nk in
  let! aav := Py.truthy (Py.get data "Aavatsmark_transmissibilities" (VBool false)) in
  let! (t_face, dist_face_cell) :=
    (if (aav : bool) return result (list Qc * list Qc) then
       Ok (norm2 <$> nk, norm2 <$> fc_cc)
     else
       let! nk := Np.bcast_inplace vmul nk fc_cc in
       Ok (vsum <$> nk, (λ d, vsum (vmul d d)) <$> fc_cc)) in
  let! t_face := Np.bcast Qcdiv t_face dist_face_cell in
  Ok (fi, ci, sgn, t_face).

(** [Tpfa.discretize(g, data, faces)]; the record after the call. *)
Definition discretize `{Sqrt} (g : Grid) (data : record)
    (faces : option (list nat)) : result record :=
  let! param := rbind (Py.getitem data "param") Py.as_param in
  let k := get_tensor param in
  let bnd := get_bc param in
  let aperture := get_aperture param in
  if decide (dim g = 0) then
    Ok (<["bound_flux" := VNum 0%Qc]> (<["flux" := VMat (SMat 1 1 [])]> data))
  else
    let! is_not_active :=
      match faces return result (list bool) with
      | None => Ok (replicate (num_faces g) false)
      | Some fs =>
          let! is_active := Np.setindex_scalar (replicate (num_faces g) false) fs true in
          Ok (negb <$> is_active)
      end in
    let! (fi, ci, sgn, t_face) := half_transmissibilities g data k aperture in
    (* Return harmonic average *)
    let! w := Np.bincount fi (recip <$> t_face) in
    let t := recip <$> w in
    (* Save values for use in recovery of boundary face pressures *)
    let t_full := t in
    let! sgn_full := Np.bincount fi sgn in
    (* Move Neumann faces to Neumann transmissibility *)
    let bndr_ind := get_boundary_faces g in
    let t_b := Np.zeros (num_faces g) in
    let! t_dir := Np.getmask t (is_dir bnd) in
    let! t_b := Np.setmask t_b (is_dir bnd) (Qcopp <$> t_dir) in
    let! t_b := Np.setmask_scalar t_b (is_neu bnd) 1%Qc in
    let! t_b := Np.take t_b bndr_ind in
    let! off := Np.bcast orb (is_neu bnd) is_not_active in
    let! t := Np.setmask_scalar t off 0%Qc in
    (* Create flux matrix *)
    let! t_fi := Np.take t fi in
    let! flux_data := Np.bcast Qcmult t_fi sgn in
    let! flux := Sp.coo_matrix flux_data fi ci None in
    (* Create boundary flux matrix *)
    let! bndr_rows := Sp.row_select (cell_faces g) bndr_ind in
    let bndr_sgn := Sp.data bndr_rows in
    let sort_id := Np.argsort (Sp.indices bndr_rows) in
    let! bndr_sgn := Np.take bndr_sgn sort_id in
    let! bf_data := Np.bcast Qcmult t_b bndr_sgn in
    let! bound_flux := Sp.coo_matrix bf_data bndr_ind bndr_ind
                    (Some (num_faces g, num_faces g)) in
    let data := <["flux" := VMat flux]> data in
    let data := <["bound_flux" := VMat bound_flux]> data in
    (* Next, construct operator to reconstruct pressure on boundaries *)
    let v_cell := Np.zeros (length fi) in
    let v_face := Np.zeros (num_faces g) in
    (* On Dirichlet faces, simply recover boundary condition *)
    let! v_face := Np.setmask_scalar v_face (is_dir bnd) 1%Qc in
    (* On Neumann faces, use half-transmissibilities *)
    let! t_neu := Np.getmask t_full (is_neu bnd) in
    let! v_face := Np.setmask v_face (is_neu bnd) ((λ x, (-1 / x)%Qc) <$> t_neu) in
    let! neu_fi := Np.take (is_neu bnd) fi in
    let! v_cell := Np.setmask_scalar v_cell neu_fi 1%Qc in
    let! bound_pressure_cell := Sp.coo_matrix v_cell fi ci
                             (Some (num_faces g, num_cells g)) in
    let bound_pressure_face :=
      Sp.dia_matrix v_face (num_faces g) (num_faces g) in
    let data := <["bound_pressure_cell" := VMat bound_pressure_cell]> data in
    let data := <["bound_pressure_face" := VMat bound_pressure_face]> data in
    Ok data.

(** [Tpfa.rhs(g, bound_flux, bc_val)] *)
Definition rhs (g : Grid) (bound_flux : value) (bc_val : list Qc)
  : result value :=
  let div := Sp.transpose (cell_faces g) in
  let! x := Py.mul (VMat (Sp.neg div)) bound_flux in
  Py.mul x (VArr bc_val).

(** [Tpfa.matrix_rhs(g, data, faces, discretize)]: the matrix, the
    right-hand side and the record after the call.  The [faces] argument is
    not forwarded to [discretize]. *)
Definition matrix_rhs `{Sqrt} (g : Grid) (data : record)
    (faces : option (list nat)) (do_discretize : bool)
  : result (value * value * record) :=
  let div := fvutils.scalar_divergence g in
  let! data := (if do_discretize return result record
           then discretize g data None else Ok data) in
  let! flux := Py.getitem data "flux" in
  let! M := Py.mul (VMat div) flux in
  let! bound_flux := Py.getitem data "bound_flux" in
  let! param := rbind (Py.getitem data "param") Py.as_param in
  let bc_val := get_bc_val param in
  let! r := rhs g bound_flux bc_val in
  Ok (M, r, data).

End Tpfa.

(** ** class TpfaCoupling *)

Module TpfaCoupling.

(** Modelled from the spec: [AbstractCoupling.create_block_matrix] is not
    part of the file; the specification describes the block matrix over the
    variable groups (high-dimensional cells, low-dimensional cells, mortar
    cells), and [TpfaCouplingDFN.matrix_rhs] builds its own the same way:
    one empty sparse matrix of shape [(dof i, dof j)] per pair of groups. *)
Definition create_block_matrix (dof : list nat)
  : list nat * list (list value) :=
  (dof, (λ i, (λ j, VMat (Sp.zero i j)) <$> dof) <$> dof).

(** [TpfaCoupling.matrix_rhs(matrix, g_h, g_l, data_h, data_l, data_edge)]:
    the returned block matrix and the interface record after the call. *)
Definition matrix_rhs (matrix : list (list value)) (g_h g_l : Grid)
    (data_h data_l data_edge : record)
  : result (list (list value) * record) :=
  (* Mortar data structure. *)
  let! mg := rbind (Py.getitem data_edge "mortar_grid") Py.as_mortar in
  let mortar_size := mg_num_cells mg in
  (* Matrices for reconstruction of face pressures. *)
  let! bound_pressure_cc_h := Py.getitem data_h "bound_pressure_cell" in
  let! bound_pressure_face_h := Py.getitem data_h "bound_pressure_face" in
  (* Recover the information for the grid-grid mapping *)
  let '(faces_h, cells_h, _) := Sp.find (cell_faces g_h) in
  let ind_faces_h := Np.unique_index faces_h in
  let! cells_h := Np.take cells_h ind_faces_h in
  (* Discretization of boundary conditions *)
  let! bound_flux_h := Py.getitem data_h "bound_flux" in
  let div_h := fvutils.scalar_divergence g_h in
  (* Projections from the mortar grid *)
  let hat_P := high_to_mortar_avg mg in
  let check_P := low_to_mortar_avg mg in
  let '(dof, cc) :=
    create_block_matrix [Tpfa.ndof g_h; Tpfa.ndof g_l; mg_num_cells mg] in
  (* Normal permeability and aperture of the intersection *)
  let! kn := Py.getitem data_edge "kn" in
  let! two_kn := Py.mul (VNum 2%Qc) kn in
  let! inv_k := Py.div (VNum 1%Qc) two_kn in
  let! param_h := rbind (Py.getitem data_h "param") Py.as_param in
  let! aperture_h := from_option_or TypeError (get_aperture param_h) in
  (* Inverse of the normal permability matrix *)
  let! a_cells := Np.take aperture_h cells_h in
  let! a_mortar := Sp.matvec hat_P a_cells in
  let! inv_k := Py.as_array inv_k in
  let! eta := Np.bcast Qcdiv inv_k a_mortar in
  let Eta := Sp.diags eta in
  let face_areas_h := Sp.diags (face_areas g_h) in
  (* Mortar mass matrix *)
  let M := Sp.diags (recip <$> cell_volumes mg) in
  let! hat_P_div := Sp.mul hat_P (Sp.transpose div_h) in
  let mortar_div := Np.sign <$> Sp.row_sums hat_P_div in
  let mortar_div_mat := Sp.diags mortar_div in
  (* Contribution from mortar variable to conservation in the higher domain *)
  let! mortar_to_bc := Py.mul bound_flux_h (VMat (Sp.transpose hat_P)) in
  let! cc02 := Py.mul (VMat div_h) mortar_to_bc in
  let cc := Py.set_block cc 0 2 cc02 in
  (* Acts as a source term. *)
  let cc := Py.set_block cc 1 2 (VMat (Sp.neg (Sp.transpose check_P))) in
  (* Cell center contribution, mapped to the mortar grid *)
  let! hat_P_to_mortar := Py.mul (VMat hat_P) bound_pressure_cc_h in
  let cc := Py.set_block cc 2 0 hat_P_to_mortar in
  (* Contribution from mortar *)
  let! x := Py.mul (VMat hat_P) bound_pressure_face_h in
  let! x := Py.mul x (VMat (Sp.transpose hat_P)) in
  let! cc22 := Py.get_block cc 2 2 in
  let! cc22 := Py.add cc22 x in
  let cc := Py.set_block cc 2 2 cc22 in
  (* Contribution from the lower dimensional pressure *)
  let cc := Py.set_block cc 2 1 (VMat (Sp.neg check_P)) in
  (* Contribution from the \lambda term, moved to the right hand side *)
  let! eta_m := Sp.mul Eta M in
  let! cc22 := Py.get_block cc 2 2 in
  let! cc22 := Py.sub cc22 (VMat eta_m) in
  let cc := Py.set_block cc 2 2 cc22 in
  let data_edge := <["mortar_to_bc" := mortar_to_bc]> data_edge in
  let data_edge := <["jump" := VMat (Sp.neg (Sp.transpose check_P))]> data_edge in
  let data_edge := <["hat_P_to_mortar" := hat_P_to_mortar]> data_edge in
  let data_edge := <["check_P_to_mortar" := VMat check_P]> data_edge in
  let! cc22 := Py.get_block cc 2 2 in
  let data_edge := <["mortar_weight" := cc22]> data_edge in
  let! out := Py.add_blocks matrix cc in
  Ok (out, data_edge).

(** The same assembly with the orientation factor (lines 345-346, [mortar_div]
    and [mortar_div_mat]) left out. *)
Definition matrix_rhs_without_orientation (matrix : list (list value))
    (g_h g_l : Grid) (data_h data_l data_edge : record)
  : result (list (list value) * record) :=
  let! mg := rbind (Py.getitem data_edge "mortar_grid") Py.as_mortar in
  let! bound_pressure_cc_h := Py.getitem data_h "bound_pressure_cell" in
  let! bound_pressure_face_h := Py.getitem data_h "bound_pressure_face" in
  let '(faces_h, cells_h, _) := Sp.find (cell_faces g_h) in
  let ind_faces_h := Np.unique_index faces_h in
  let! cells_h := Np.take cells_h ind_faces_h in
  let! bound_flux_h := Py.getitem data_h "bound_flux" in
  let div_h := fvutils.scalar_divergence g_h in
  let hat_P := high_to_mortar_avg mg in
  let check_P := low_to_mortar_avg mg in
  let '(dof, cc) :=
    create_block_matrix [Tpfa.ndof g_h; Tpfa.ndof g_l; mg_num_cells mg] in
  let! kn := Py.getitem data_edge "kn" in
  let! two_kn := Py.mul (VNum 2%Qc) kn in
  let! inv_k := Py.div (VNum 1%Qc) two_kn in
  let! param_h := rbind (Py.getitem data_h "param") Py.as_param in
  let! aperture_h := from_option_or TypeError (get_aperture param_h) in
  let! a_cells := Np.take aperture_h cells_h in
  let! a_mortar := Sp.matvec hat_P a_cells in
  let! inv_k := Py.as_array inv_k in
  let! eta := Np.bcast Qcdiv inv_k a_mortar in
  let Eta := Sp.diags eta in
  let face_areas_h := Sp.diags (face_areas g_h) in
  let M := Sp.diags (recip <$> cell_volumes mg) in
  let! mortar_to_bc := Py.mul bound_flux_h (VMat (Sp.transpose hat_P)) in
  let! cc02 := Py.mul (VMat div_h) mortar_to_bc in
  let cc := Py.set_block cc 0 2 cc02 in
  let cc := Py.set_block cc 1 2 (VMat (Sp.neg (Sp.transpose check_P))) in
  let! hat_P_to_mortar := Py.mul (VMat hat_P) bound_pressure_cc_h in
  let cc := Py.set_block cc 2 0 hat_P_to_mortar in
  let! x := Py.mul (VMat hat_P) bound_pressure_face_h in
  let! x := Py.mul x (VMat (Sp.transpose hat_P)) in
  let! cc22 := Py.get_block cc 2 2 in
  let! cc22 := Py.add cc22 x in
  let cc := Py.set_block cc 2 2 cc22 in
  let cc := Py.set_block cc 2 1 (VMat (Sp.neg check_P)) in
  let! eta_m := Sp.mul Eta M in
  let! cc22 := Py.get_block cc 2 2 in
  let! cc22 := Py.sub cc22 (VMat eta_m) in
  let cc := Py.set_block cc 2 2 cc22 in
  let data_edge := <["mortar_to_bc" := mortar_to_bc]> data_edge in
  let data_edge := <["jump" := VMat (Sp.neg (Sp.transpose check_P))]> data_edge in
  let data_edge := <["hat_P_to_mortar" := hat_P_to_mortar]> data_edge in
  let data_edge := <["check_P_to_mortar" := VMat check_P]> data_edge in
  let! cc22 := Py.get_block cc 2 2 in
  let data_edge := <["mortar_weight" := cc22]> data_edge in
  let! out := Py.add_blocks matrix cc in
  Ok (out, data_edge).

End TpfaCoupling.

(** ** class TpfaCouplingDFN *)

Module TpfaCouplingDFN.

(** Lines 411-445 of [TpfaCouplingDFN.matrix_rhs]: the coupled pairs
    [(cells_l, cells_h)], the faces and signs on the high-dimensional side,
    and the transmissibility [t] of each pair. *)
Definition coupling_transmissibilities `{Sqrt} (g_h g_l : Grid)
    (data_h data_l data_edge : record)
  : result (list nat * list nat * list nat * list Qc * list Qc) :=
  let! param_h := rbind (Py.getitem data_h "param") Py.as_param in
  let k_h := get_tensor param_h in
  let a_h := get_aperture param_h in
  (* Obtain the cells and face signs of the higher dimensional grid *)
  let! face_cells := rbind (Py.getitem data_edge "face_cells") Py.as_matrix in
  let '(cells_l, faces_h, _) := Sp.find face_cells in
  let '(faces, cells_h, sgn_h) := Sp.find (cell_faces g_h) in
  let ind := Np.unique_index faces in
  let! sgn_h := Np.take sgn_h ind in
  let! cells_h := Np.take cells_h ind in
  let! cells_h' := Np.take cells_h faces_h in
  let! sgn_h := Np.take sgn_h faces_h in
  let cells_h := cells_h' in
  (* Face transmissibilities of the higher grid, as in Tpfa.discretize *)
  let! n := Np.take (face_normals g_h) faces_h in
  let! n := Np.bcast_inplace vscale n sgn_h in
  let! perm_h := Np.take (perm k_h) cells_h in
  let! fcs := Np.take (face_centers g_h) faces_h in
  let! ccs := Np.take (cell_centers g_h) cells_h in
  let! fc_cc_h := Np.bcast vsub fcs ccs in
  let! nk_h := Np.bcast mat_bcast_mul perm_h n in
  let nk_h := mat_sum_axis1 <$> nk_h in
  let! aav := Py.truthy
                (Py.get data_edge "Aavatsmark_transmissibilities" (VBool false)) in
  let! (t_face_h, dist_face_cell_h) :=
    (if (aav : bool) return result (list Qc * list Qc) then
       Ok (norm2 <$> nk_h, norm2 <$> fc_cc_h)
     else
       let! nk_h := Np.bcast_inplace vmul nk_h fc_cc_h in
       Ok (vsum <$> nk_h, (λ d, vsum (vmul d d)) <$> fc_cc_h)) in
  (* Account for the apertures *)
  let! a_h := from_option_or TypeError a_h in
  let! a_cells := Np.take a_h cells_h in
  let! t_face_h := Np.bcast Qcmult t_face_h a_cells in
  let! t := Np.bcast Qcdiv t_face_h dist_face_cell_h in
  Ok (cells_l, cells_h, faces_h, sgn_h, t).

(** [TpfaCouplingDFN.matrix_rhs(g_h, g_l, data_h, data_l, data_edge)]: the
    2 × 2 block matrix [[cc00; cc01]; [cc10; cc11]] and the interface record
    after the call. *)
Definition matrix_rhs `{Sqrt} (g_h g_l : Grid)
    (data_h data_l data_edge : record)
  : result (list (list smatrix) * record) :=
  let dof := [Tpfa.ndof g_h; Tpfa.ndof g_l] in
  let! (cells_l, cells_h, faces_h, sgn_h, t) :=
    coupling_transmissibilities g_h g_l data_h data_l data_edge in
  (* Create the block matrix for the contributions *)
  let cc := (λ i, (λ j, Sp.zero i j) <$> dof) <$> dof in
  (* Compute the off-diagonal terms *)
  let! cc10 := Sp.coo_matrix (Qcopp <$> t) cells_l cells_h
                 (Some (Tpfa.ndof g_l, Tpfa.ndof g_h)) in
  let cc := Py.set_block cc 1 0 cc10 in
  let! cc10' := Py.get_block cc 1 0 in
  let cc := Py.set_block cc 0 1 (Sp.transpose cc10') in
  (* Compute the diagonal terms *)
  let! cc00 := Sp.coo_matrix t cells_h cells_h
                 (Some (Tpfa.ndof g_h, Tpfa.ndof g_h)) in
  let cc := Py.set_block cc 0 0 cc00 in
  let! cc11 := Sp.coo_matrix t cells_l cells_l
                 (Some (Tpfa.ndof g_l, Tpfa.ndof g_l)) in
  let cc := Py.set_block cc 1 1 cc11 in
  (* Save the flux discretization for back-computation of fluxes *)
  let! cells2faces := Sp.coo_matrix sgn_h faces_h cells_h
                        (Some (num_faces g_h, num_cells g_h)) in
  let! cc00' := Py.get_block cc 0 0 in
  let! cc01' := Py.get_block cc 0 1 in
  let! f0 := Sp.mul cells2faces cc00' in
  let! f1 := Sp.mul cells2faces cc01' in
  let! coupling_flux := Sp.hstack f0 f1 in
  let data_edge := <["coupling_flux" := VMat coupling_flux]> data_edge in
  let data_edge := <["coupling_discretization" := VBlocks cc]> data_edge in
  Ok (cc, data_edge).

End TpfaCouplingDFN.

(** ** class TpfaDFN *)

Module TpfaDFN.


End TpfaDFN.

(** ** Concrete grids and records *)

Module Examples.

Definition qz (n : Z) : Qc := Qc_of_Z n.
Definition qfrac (n : Z) (d : positive) : Qc := Q2Qc (n # d).

(** A square root that is exact on squares of rationals. *)
Definition sqrt_exact_fun (q : Qc) : Qc :=
  Q2Qc (Z.sqrt (Qnum q) # Pos.sqrt (Qden q)).

Lemma Pos_sqrt_square (q : positive) : Pos.sqrt (q * q) = q.
Proof.
  pose proof (Pos.sqrt_spec (q * q)) as [Hlo Hhi]. cbv zeta in *.
  set (s := Pos.sqrt (q * q)) in *. nia.
Qed.

Lemma sqrt_exact_square (y : Qc) : (0 ≤ y)%Qc → sqrt_exact_fun (y * y) = y.
Proof.
  destruct y as [[p q] Hc]. intros Hy.
  assert (0 ≤ p)%Z as Hp.
  { unfold Qcle, Qle in Hy. simpl in Hy. lia. }
  unfold sqrt_exact_fun.
  assert (this (Qcmake (p # q) Hc * Qcmake (p # q) Hc)%Qc = (p * p # q * q))
    as ->.
  { simpl. apply Qred_identity. simpl.
    pose proof (Qred_identity2 _ Hc) as Hg. simpl in Hg.
    rewrite Pos2Z.inj_mul.
    apply Z.coprime_mul_l; apply Z.coprime_mul_r; exact Hg. }
  simpl. rewrite Z.sqrt_square by done. rewrite Pos_sqrt_square.
  apply Qc_is_canon. simpl. apply Qred_correct.
Qed.

Definition sqrt_exact : Sqrt :=
  {| sqrt := sqrt_exact_fun; sqrt_square := sqrt_exact_square |}.

Definition id3 : mat3 := ((1, 0, 0), (0, 1, 0), (0, 0, 1))%Qc.

(** The line [0, 3] cut into three unit cells: faces 0..3 at x = 0, 1, 2, 3,
    cells 0..2; each cell has its left face with sign -1 and its right face
    with sign +1. *)
Definition line3 : Grid := {|
  dim := 1;
  num_cells := 3;
  num_faces := 4;
  cell_faces := SMat 4 3
    [(0, 0, (-1)%Qc); (1, 0, 1%Qc); (1, 1, (-1)%Qc); (2, 1, 1%Qc);
     (2, 2, (-1)%Qc); (3, 2, 1%Qc)];
  face_normals := replicate 4 (1, 0, 0)%Qc;
  face_centers := [(0, 0, 0); (1, 0, 0); (2, 0, 0); (qz 3, 0, 0)]%Qc;
  cell_centers := [(qfrac 1 2, 0, 0); (qfrac 3 2, 0, 0); (qfrac 5 2, 0, 0)]%Qc;
  face_areas := replicate 4 1%Qc;
  get_boundary_faces := [0; 3]
|}.

(** Unit permeability, pressure 1 imposed on the left end and 0 on the
    right end. *)
Definition dirichlet_param : Parameters := {|
  get_tensor := {| perm := replicate 3 id3 |};
  get_bc := {| is_dir := [true; false; false; true];
               is_neu := [false; false; false; false] |};
  get_aperture := None;
  get_bc_val := [1; 0; 0; 0]%Qc
|}.

Definition dirichlet_data : record := {[ "param" := VParam dirichlet_param ]}.

(** Aperture 2 in every cell, Dirichlet on the left end, Neumann on the
    right end. *)
Definition mixed_param : Parameters := {|
  get_tensor := {| perm := replicate 3 id3 |};
  get_bc := {| is_dir := [true; false; false; false];
               is_neu := [false; false; false; true] |};
  get_aperture := Some (replicate 3 2%Qc);
  get_bc_val := [1; 0; 0; 2]%Qc
|}.

Definition mixed_data : record := {[ "param" := VParam mixed_param ]}.


(** The incidences of [line3], in the order of [sps.find]. *)
Definition line3_fi : list nat := [0; 1; 1; 2; 2; 3].
Definition line3_ci : list nat := [0; 0; 1; 1; 2; 2].
Definition line3_sgn : list Qc := [-1; 1; -1; 1; -1; 1]%Qc.

(** The record of [line3] after discretisation with [dirichlet_param]. *)
Definition dirichlet_discretized : record :=
  match @Tpfa.discretize sqrt_exact line3 dirichlet_data None with
  | Ok d => d
  | Raise _ => dirichlet_data
  end.

(** The system that [matrix_rhs] assembles on [line3] with
    [dirichlet_param], and the record it leaves. *)
Definition dirichlet_system : value * value * record :=
  match @Tpfa.matrix_rhs sqrt_exact line3 dirichlet_data (Some [1]) true with
  | Ok r => r
  | Raise _ => (VNum 0%Qc, VNum 0%Qc, ∅)
  end.

(** The record of [line3] after discretisation with [mixed_param]. *)
Definition mixed_discretized : record :=
  match @Tpfa.discretize sqrt_exact line3 mixed_data None with
  | Ok d => d
  | Raise _ => mixed_data
  end.

(** The sparse matrix stored under a key of a record, and a matrix applied
    to a vector. *)
Definition stored_matrix (d : record) (k : string) : smatrix :=
  match d !! k with
  | Some (VMat M) => M
  | _ => Sp.zero 0 0
  end.

Definition applied (M : smatrix) (v : list Qc) : list Qc :=
  match Sp.matvec M v with
  | Ok q => q
  | Raise _ => []
  end.

(** Cell pressures on [line3]. *)
Definition pressures : list Qc := [qz 5; qz 3; 0%Qc].

(** A point grid: one cell, no face. *)
Definition point : Grid := {|
  dim := 0;
  num_cells := 1;
  num_faces := 0;
  cell_faces := SMat 0 1 [];
  face_normals := [];
  face_centers := [];
  cell_centers := [(qz 3, 0, 0)%Qc];
  face_areas := [];
  get_boundary_faces := []
|}.

Definition point_param : Parameters := {|
  get_tensor := {| perm := [id3] |};
  get_bc := {| is_dir := []; is_neu := [] |};
  get_aperture := Some [1%Qc];
  get_bc_val := []
|}.

Definition point_data : record := {[ "param" := VParam point_param ]}.

(** A mortar grid with one cell of volume 5 joining face 3 of [line3] to the
    cell of [point]. *)
Definition mortar1 : MortarGrid := {|
  mg_num_cells := 1;
  cell_volumes := [qz 5];
  high_to_mortar_avg := SMat 1 4 [(0, 3, 1%Qc)];
  low_to_mortar_avg := SMat 1 1 [(0, 0, 1%Qc)]
|}.

Definition edge_data : record :=
  {[ "mortar_grid" := VMortar mortar1; "kn" := VNum (qz 3) ]}.

(** The block matrix the coupling terms are added to: empty blocks. *)
Definition empty_blocks : list (list value) :=
  (TpfaCoupling.create_block_matrix [3; 1; 1]).2.

(** The result of the mortar coupling of [line3] and [point]. *)
Definition coupling_result : list (list value) * record :=
  match TpfaCoupling.matrix_rhs empty_blocks line3 point mixed_discretized
          point_data edge_data with
  | Ok r => r
  | Raise _ => ([], ∅)
  end.

(** A fracture plane of one cell, the parallelogram with corners (0, 0),
    (1, 0), (5, 3) and (4, 3): faces 0..3 are its bottom, right, top and
    left edges, with outward normals weighted by the edge lengths 1, 5, 1
    and 5, and the cell centre is (5/2, 3/2). *)
Definition parallelogram : Grid := {|
  dim := 2;
  num_cells := 1;
  num_faces := 4;
  cell_faces := SMat 4 1 [(0, 0, 1%Qc); (1, 0, 1%Qc); (2, 0, 1%Qc); (3, 0, 1%Qc)];
  face_normals :=
    [(0, -(1), 0); (qz 3, qz (-4), 0); (0, 1, 0); (qz (-3), qz 4, 0)]%Qc;
  face_centers :=
    [(qfrac 1 2, 0, 0); (qz 3, qfrac 3 2, 0); (qfrac 9 2, qz 3, 0);
     (2, qfrac 3 2, 0)]%Qc;
  cell_centers := [(qfrac 5 2, qfrac 3 2, 0)%Qc];
  face_areas := [1; qz 5; 1; qz 5]%Qc;
  get_boundary_faces := [0; 1; 2; 3]
|}.

(** The symmetric positive definite permeability [[1, 2], [2, 5]] in the
    plane, unit aperture. *)
Definition parallelogram_param : Parameters := {|
  get_tensor := {| perm := [((1, 2, 0), (2, qz 5, 0), (0, 0, 1))%Qc] |};
  get_bc := {| is_dir := replicate 4 true; is_neu := replicate 4 false |};
  get_aperture := Some [1%Qc];
  get_bc_val := replicate 4 0%Qc
|}.

Definition parallelogram_data : record :=
  {[ "param" := VParam parallelogram_param ]}.

(** The intersection line along the right edge of [parallelogram], one
    cell from (1, 0) to (5, 3). *)
Definition segment : Grid := {|
  dim := 1;
  num_cells := 1;
  num_faces := 2;
  cell_faces := SMat 2 1 [(0, 0, (-1)%Qc); (1, 0, 1%Qc)];
  face_normals := replicate 2 (qfrac 4 5, qfrac 3 5, 0)%Qc;
  face_centers := [(1, 0, 0); (qz 5, qz 3, 0)]%Qc;
  cell_centers := [(qz 3, qfrac 3 2, 0)%Qc];
  face_areas := replicate 2 1%Qc;
  get_boundary_faces := [0; 1]
|}.

Definition segment_param : Parameters := {|
  get_tensor := {| perm := [id3] |};
  get_bc := {| is_dir := [true; true]; is_neu := [false; false] |};
  get_aperture := Some [1%Qc];
  get_bc_val := [0; 0]%Qc
|}.

Definition segment_data : record := {[ "param" := VParam segment_param ]}.

(** The face-cell incidence of the direct coupling: face 1 of
    [parallelogram] meets the cell of [segment]. *)
Definition dfn_edge : record :=
  {[ "face_cells" := VMat (SMat 1 4 [(0, 1, 1%Qc)]) ]}.

(** The result of the direct coupling of [parallelogram] and [segment]. *)
Definition dfn_result : list (list smatrix) * record :=
  match @TpfaCouplingDFN.matrix_rhs sqrt_exact parallelogram segment
          parallelogram_data segment_data dfn_edge with
  | Ok r => r
  | Raise _ => ([], ∅)
  end.

End Examples.

(** ** Vocabulary of the statements *)

(** The permeability tensor contracted with a vector. *)
Definition contract (K : mat3) (n : vec3) : vec3 :=
  let '(r1, r2, r3) := K in (dot r1 n, dot r2 n, dot r3 n).

(** The normal of face [f] as seen from cell [c]: scaled by the aperture of
    the cell when apertures are given, and by the sign of the incidence. *)
Definition scaled_normal (aperture : option (list Qc)) (nf : vec3) (c : nat)
    (s : Qc) : option vec3 :=
  match aperture with
  | None => Some (vscale nf s)
  | Some a => (λ ac, vscale (vscale nf ac) s) <$> a !! c
  end.

(** The sum of the weights [w] at the positions where [x] holds [i]: the
    grouping by index that [np.bincount] performs. *)
Definition sum_at (x : list nat) (w : list Qc) (i : nat) : Qc :=
  qsum ((λ j, default 0%Qc (w !! j)) <$> Np.positions i x).

(** The transmissibility of face [f] before the boundary conditions are
    applied ([t_full] in the source): the reciprocal of the sum of the
    reciprocal half-transmissibilities of the face. *)
Definition t_full (fi : list nat) (th : list Qc) (f : nat) : Qc :=
  recip (sum_at fi (recip <$> th) f).

(** Face [f] lies outside the active subset declared by the caller. *)
Definition inactive (faces : option (list nat)) (f : nat) : bool :=
  match faces with
  | None => false
  | Some fs => bool_decide (f ∉ fs)
  end.

(** The sum of [φ 0], ..., [φ (n - 1)]. *)
Definition sum_upto (n : nat) (φ : nat → Qc) : Qc := qsum (φ <$> seq 0 n).

(** A record that some call of [discretize] on the grid has produced. *)
Definition discretized `{Sqrt} (g : Grid) (data : record) : Prop :=
  ∃ data0 faces, Tpfa.discretize g data0 faces = Ok data.

(** The right-hand side in the words of the specification: minus the
    transposed divergence operator, times the boundary-flux operator, times
    the boundary values. *)
Definition rhs_as_specified (g : Grid) (bound_flux : value)
    (bc_val : list Qc) : result value :=
  let div := fvutils.scalar_divergence g in
  let! x := Py.mul (VMat (Sp.neg (Sp.transpose div))) bound_flux in
  Py.mul x (VArr bc_val).

(** The entry of a one-dimensional array that an element-wise operation
    pairs with position [m] of its other operand: NumPy repeats an array of
    length one at every position. *)
Definition bcast_at (l : list Qc) (m : nat) : option Qc :=
  match l with
  | [x] => Some x
  | _ => l !! m
  end.

(** The self-term in the words of the specification: minus the inverse of
    the normal permeability, over twice the volume of the mortar cell. *)
Definition self_term_as_specified (inv_k vol : Qc) : Qc :=
  (- inv_k / (2 * vol))%Qc.

(** The sum of the entries of row [i] of a matrix. *)
Definition row_sum (M : smatrix) (i : nat) : Qc :=
  sum_upto (ncols M) (λ j, Sp.mget M i j).

(** The summed magnitudes of the entries of row [i] of a matrix. *)
Definition row_magnitudes (M : smatrix) (i : nat) : Qc :=
  sum_upto (ncols M) (λ j, Qcabs (Sp.mget M i j)).

(** The keys that [Tpfa.discretize] writes on a grid. *)
Definition written_keys (g : Grid) : list string :=
  if decide (dim g = 0) then ["flux"; "bound_flux"]
  else ["flux"; "bound_flux"; "bound_pressure_cell"; "bound_pressure_face"].

(** * Properties *)

(** The library operations are kept folded by [simpl]. *)
#[global] Arguments Np.take : simpl never.
#[global] Arguments Np.getmask : simpl never.
#[global] Arguments Np.setmask : simpl never.
#[global] Arguments Np.setmask_scalar : simpl never.
#[global] Arguments Np.setindex_scalar : simpl never.
#[global] Arguments Np.bcast : simpl never.
#[global] Arguments Np.bcast_inplace : simpl never.
#[global] Arguments Np.bincount : simpl never.
#[global] Arguments Np.argsort : simpl never.
#[global] Arguments Np.unique_index : simpl never.
#[global] Arguments Np.zeros : simpl never.
#[global] Arguments Sp.mget : simpl never.
#[global] Arguments Sp.mul : simpl never.
#[global] Arguments Sp.matvec : simpl never.
#[global] Arguments Sp.add : simpl never.
#[global] Arguments Sp.sub : simpl never.
#[global] Arguments Sp.coo_matrix : simpl never.
#[global] Arguments Sp.find : simpl never.
#[global] Arguments Sp.row_select : simpl never.
#[global] Arguments Sp.hstack : simpl never.
#[global] Arguments Sp.diags : simpl never.
#[global] Arguments Sp.dia_matrix : simpl never.
#[global] Arguments Sp.transpose : simpl never.
#[global] Arguments Sp.neg : simpl never.
#[global] Arguments Sp.scale : simpl never.
#[global] Arguments Sp.row_sums : simpl never.
#[global] Arguments Py.getitem : simpl never.
#[global] Arguments Py.get : simpl never.
#[global] Arguments Py.mul : simpl never.
#[global] Arguments Py.div : simpl never.
#[global] Arguments Py.add : simpl never.
#[global] Arguments Py.sub : simpl never.
#[global] Arguments Py.truthy : simpl never.
#[global] Arguments Py.add_blocks : simpl never.
#[global] Arguments fvutils.scalar_divergence : simpl never.
#[global] Arguments Tpfa.half_transmissibilities : simpl never.
#[global] Arguments TpfaCouplingDFN.coupling_transmissibilities : simpl never.

(** ** The error monad *)

Lemma rbind_Ok {A B} (r : result A) (f : A → result B) (b : B) :
  rbind r f = Ok b ↔ ∃ a, r = Ok a ∧ f a = Ok b.
Proof.
  destruct r as [a|e]; simpl; split.
  - intros Hf. by exists a.
  - by intros (a' & [= <-] & Hf).
  - discriminate.
  - by intros (a' & [=] & _).
Qed.

Lemma from_option_or_Ok {A} (e : pyerr) (o : option A) (a : A) :
  from_option_or e o = Ok a ↔ o = Some a.
Proof. destruct o; simpl; split; congruence. Qed.

Lemma fmap_result_Ok {A B} (f : A → B) (r : result A) (b : B) :
  f <$> r = Ok b ↔ ∃ a, r = Ok a ∧ b = f a.
Proof.
  destruct r as [a|e]; simpl; split.
  - intros [= <-]. by exists a.
  - by intros (a' & [= <-] & ->).
  - discriminate.
  - by intros (a' & [=] & _).
Qed.

(** Split a successful sequence into its successful steps. *)
Ltac inv_step H :=
  lazymatch type of H with
  | rbind _ _ = Ok _ =>
      let a := fresh "x" in
      let E := fresh "E" in
      apply rbind_Ok in H as (a & E & H)
  | (if decide ?P then _ else _) = Ok _ =>
      destruct (decide P); [|discriminate H]
  | (let '(_, _) := ?p in _) = Ok _ => destruct p
  | (match ?p with (_, _) => _ end) = Ok _ => destruct p
  end.
Ltac inv_steps H := repeat (inv_step H; cbn [rbind] in H).

(** ** NumPy primitives *)

Lemma take_Ok {A} (a : list A) (idx : list nat) (r : list A) :
  Np.take a idx = Ok r ↔ Forall2 (λ i y, a !! i = Some y) idx r.
Proof. unfold Np.take. rewrite from_option_or_Ok. apply mapM_Some. Qed.

Lemma take_Ok_length {A} (a : list A) (idx : list nat) (r : list A) :
  Np.take a idx = Ok r → length r = length idx.
Proof. rewrite take_Ok. intros HF. symmetry. by eapply Forall2_length. Qed.

Lemma take_Ok_lookup {A} (a : list A) (idx : list nat) (r : list A) k i :
  Np.take a idx = Ok r → idx !! k = Some i → r !! k = a !! i.
Proof.
  rewrite take_Ok. intros HF Hk.
  destruct (Forall2_lookup_l _ _ _ _ _ HF Hk) as (y & Hy & Hay). congruence.
Qed.

Lemma take_is_Ok {A} (a : list A) (idx : list nat) :
  Forall (λ i, i < length a) idx → ∃ r, Np.take a idx = Ok r.
Proof.
  induction 1 as [|i idx Hi _ [r Hr]].
  - exists []. by apply take_Ok.
  - apply lookup_lt_is_Some in Hi as [y Hy].
    exists (y :: r). apply take_Ok. constructor; [done|]. by apply take_Ok.
Qed.

Lemma elem_of_positions (v : nat) (x : list nat) (k : nat) :
  k ∈ Np.positions v x ↔ x !! k = Some v.
Proof.
  unfold Np.positions. rewrite list_elem_of_filter, elem_of_seq.
  split; [tauto|]. intros Hk. split; [done|].
  apply lookup_lt_Some in Hk. lia.
Qed.

Lemma unique_index_lt (x : list nat) :
  Forall (λ k, k < length x) (Np.unique_index x).
Proof.
  apply Forall_forall. intros k. unfold Np.unique_index.
  rewrite list_elem_of_omap. intros (v & _ & Hh).
  apply head_Some_elem_of in Hh. apply elem_of_positions in Hh.
  by apply lookup_lt_Some in Hh.
Qed.

Lemma find_lengths (M : smatrix) (I J : list nat) (V : list Qc) :
  Sp.find M = (I, J, V) → length J = length I ∧ length V = length I.
Proof.
  unfold Sp.find. intros [= <- <- <-]. by rewrite !length_fmap.
Qed.

(** ** A point grid short-circuits *)

(** C9. On a grid of dimension zero, [discretize] stores a 1 × 1 zero matrix
    under ['flux'] and the scalar 0 under ['bound_flux'] and returns at once:
    the geometry of the grid is not looked at (no condition on it is needed),
    and every other key of the record, ['bound_pressure_cell'] and
    ['bound_pressure_face'] among them, is left as it was. *)
Theorem discretize_point_grid `{Sqrt} (g : Grid) (data : record)
    (faces : option (list nat)) (p : Parameters) :
  dim g = 0 →
  data !! "param" = Some (VParam p) →
  ∃ data' Z,
    Tpfa.discretize g data faces = Ok data' ∧
    data' !! "flux" = Some (VMat Z) ∧
    nrows Z = 1 ∧ ncols Z = 1 ∧ entries Z = [] ∧ Sp.mget Z 0 0 = 0%Qc ∧
    data' !! "bound_flux" = Some (VNum 0%Qc) ∧
    data' !! "bound_pressure_cell" = data !! "bound_pressure_cell" ∧
    data' !! "bound_pressure_face" = data !! "bound_pressure_face" ∧
    ∀ k, k ≠ "flux" → k ≠ "bound_flux" → data' !! k = data !! k.
Proof.
  intros Hdim Hp.
  eexists _, (SMat 1 1 []).
  unfold Tpfa.discretize, Py.getitem. rewrite Hp. simpl.
  destruct (decide (dim g = 0)) as [_|]; [|done].
  split; [reflexivity|].
  split; [by rewrite lookup_insert_ne, lookup_insert_eq|].
  do 4 (split; [reflexivity|]).
  split; [by rewrite lookup_insert_eq|].
  split; [by rewrite !lookup_insert_ne|].
  split; [by rewrite !lookup_insert_ne|].
  intros k Hk1 Hk2. by rewrite !lookup_insert_ne.
Qed.

Lemma discretize_point_grid_witness :
  ∃ data',
    @Tpfa.discretize Examples.sqrt_exact Examples.point Examples.point_data None
      = Ok data' ∧
    data' !! "bound_flux" = Some (VNum 0%Qc) ∧
    data' !! "bound_pressure_cell" = None.
Proof.
  destruct (@discretize_point_grid Examples.sqrt_exact Examples.point
              Examples.point_data None Examples.point_param)
    as (data' & Z & Hd & _ & _ & _ & _ & _ & Hb & Hc & _).
  - reflexivity.
  - reflexivity.
  - exists data'. split; [exact Hd|]. split; [exact Hb|].
    rewrite Hc. reflexivity.
Defined.

(** ** Missing keys *)

Lemma getitem_None (d : record) (k : string) :
  d !! k = None → Py.getitem d k = Raise (KeyError k).
Proof. unfold Py.getitem. by intros ->. Qed.

Lemma getitem_Some (d : record) (k : string) (v : value) :
  d !! k = Some v → Py.getitem d k = Ok v.
Proof. unfold Py.getitem. by intros ->. Qed.

Lemma not_is_Ok_Raise {A} (r : result A) (e : pyerr) : r = Raise e → ¬ is_Ok r.
Proof. intros -> [a [=]]. Qed.

(** With a mortar grid on the interface, the mortar coupling fails on the
    first of the three keys that the high-dimensional record lacks. *)
Lemma coupling_first_missing_key (matrix : list (list value)) (g_h g_l : Grid)
    (data_h data_l data_edge : record) (mg : MortarGrid) :
  data_edge !! "mortar_grid" = Some (VMortar mg) →
  data_h !! "bound_pressure_cell" = None ∨
  data_h !! "bound_pressure_face" = None ∨
  data_h !! "bound_flux" = None →
  ∃ k, k ∈ ["bound_pressure_cell"; "bound_pressure_face"; "bound_flux"] ∧
       data_h !! k = None ∧
       TpfaCoupling.matrix_rhs matrix g_h g_l data_h data_l data_edge
         = Raise (KeyError k).
Proof.
  intros Hmg Hmiss. unfold TpfaCoupling.matrix_rhs.
  rewrite (getitem_Some _ _ _ Hmg). cbn [rbind].
  destruct (data_h !! "bound_pressure_cell") as [bc|] eqn:Hbc; last first.
  { exists "bound_pressure_cell". split; [rewrite !elem_of_cons; tauto|]. split; [done|].
    by rewrite (getitem_None _ _ Hbc). }
  rewrite (getitem_Some _ _ _ Hbc). cbn [rbind].
  destruct (data_h !! "bound_pressure_face") as [bf|] eqn:Hbf; last first.
  { exists "bound_pressure_face". split; [rewrite !elem_of_cons; tauto|]. split; [done|].
    by rewrite (getitem_None _ _ Hbf). }
  rewrite (getitem_Some _ _ _ Hbf). cbn [rbind].
  destruct Hmiss as [?|[?|Hfl]]; [done|done|].
  exists "bound_flux". split; [rewrite !elem_of_cons; tauto|]. split; [done|].
  destruct (Sp.find (cell_faces g_h)) as [[faces_h cells_h] sg] eqn:Hfind.
  apply find_lengths in Hfind as [Hlen _]. cbn [rbind].
  destruct (take_is_Ok cells_h (Np.unique_index faces_h)) as [cs ->].
  { rewrite Hlen. apply unique_index_lt. }
  cbn [rbind]. by rewrite (getitem_None _ _ Hfl).
Qed.

(** C8. Reusing a discretisation that is not there fails: with
    [discretize=False], [Tpfa.matrix_rhs] raises [KeyError] on a record
    without ['flux'], and also on one without ['bound_flux'] as soon as the
    stored flux can be multiplied by the divergence (in no case does it
    return); [TpfaCoupling.matrix_rhs] never returns when the
    high-dimensional record lacks ['bound_pressure_cell'],
    ['bound_pressure_face'] or ['bound_flux'], and with a mortar grid on the
    interface the exception is the [KeyError] of the first of these keys that
    is missing.  Nothing is recomputed and no default is substituted. *)
Theorem missing_key_fails `{Sqrt} :
  (∀ g data faces,
     data !! "flux" = None →
     Tpfa.matrix_rhs g data faces false = Raise (KeyError "flux")) ∧
  (∀ g data faces,
     data !! "bound_flux" = None →
     ¬ is_Ok (Tpfa.matrix_rhs g data faces false) ∧
     ∀ flux M,
       data !! "flux" = Some flux →
       Py.mul (VMat (fvutils.scalar_divergence g)) flux = Ok M →
       Tpfa.matrix_rhs g data faces false = Raise (KeyError "bound_flux")) ∧
  (∀ matrix g_h g_l data_h data_l data_edge,
     data_h !! "bound_pressure_cell" = None ∨
     data_h !! "bound_pressure_face" = None ∨
     data_h !! "bound_flux" = None →
     ¬ is_Ok (TpfaCoupling.matrix_rhs matrix g_h g_l data_h data_l data_edge) ∧
     ∀ mg,
       data_edge !! "mortar_grid" = Some (VMortar mg) →
       ∃ k, k ∈ ["bound_pressure_cell"; "bound_pressure_face"; "bound_flux"] ∧
            data_h !! k = None ∧
            TpfaCoupling.matrix_rhs matrix g_h g_l data_h data_l data_edge
              = Raise (KeyError k)).
Proof.
  split; [|split].
  - intros g data faces Hfl. unfold Tpfa.matrix_rhs. cbn [rbind].
    by rewrite (getitem_None _ _ Hfl).
  - intros g data faces Hbf.
    assert (∀ flux M, data !! "flux" = Some flux →
              Py.mul (VMat (fvutils.scalar_divergence g)) flux = Ok M →
              Tpfa.matrix_rhs g data faces false = Raise (KeyError "bound_flux"))
      as Hkey.
    { intros flux M Hfl HM. unfold Tpfa.matrix_rhs. cbn [rbind].
      rewrite (getitem_Some _ _ _ Hfl). cbn [rbind]. rewrite HM. cbn [rbind].
      by rewrite (getitem_None _ _ Hbf). }
    split; [|exact Hkey].
    intros [r Hr].
    destruct (data !! "flux") as [flux|] eqn:Hfl.
    + destruct (Py.mul (VMat (fvutils.scalar_divergence g)) flux) as [M|e] eqn:HM.
      * rewrite (Hkey flux M eq_refl HM) in Hr. discriminate.
      * unfold Tpfa.matrix_rhs in Hr. cbn [rbind] in Hr.
        rewrite (getitem_Some _ _ _ Hfl) in Hr. cbn [rbind] in Hr.
        rewrite HM in Hr. discriminate.
    + unfold Tpfa.matrix_rhs in Hr. cbn [rbind] in Hr.
      rewrite (getitem_None _ _ Hfl) in Hr. discriminate.
  - intros matrix g_h g_l data_h data_l data_edge Hmiss.
    split.
    + intros [r Hr].
      destruct (data_edge !! "mortar_grid") as [v|] eqn:Hmg.
      * destruct v as [| | | | |mg|];
          try (unfold TpfaCoupling.matrix_rhs in Hr;
               rewrite (getitem_Some _ _ _ Hmg) in Hr; discriminate).
        destruct (coupling_first_missing_key matrix g_h g_l data_h data_l
                    data_edge mg Hmg Hmiss) as (k & _ & _ & Hk).
        rewrite Hk in Hr. discriminate.
      * unfold TpfaCoupling.matrix_rhs in Hr.
        rewrite (getitem_None _ _ Hmg) in Hr. discriminate.
    + intros mg Hmg. by eapply coupling_first_missing_key.
Qed.

Lemma missing_key_fails_witness :
  @Tpfa.matrix_rhs Examples.sqrt_exact Examples.line3 Examples.dirichlet_data
    None false = Raise (KeyError "flux") ∧
  ∃ k, TpfaCoupling.matrix_rhs Examples.empty_blocks Examples.line3
         Examples.point Examples.dirichlet_data Examples.point_data
         Examples.edge_data = Raise (KeyError k).
Proof.
  destruct (@missing_key_fails Examples.sqrt_exact) as (Hflux & _ & Hcoupling).
  split.
  - apply Hflux. reflexivity.
  - destruct (Hcoupling Examples.empty_blocks Examples.line3 Examples.point
                Examples.dirichlet_data Examples.point_data Examples.edge_data)
      as [_ Hk].
    + left. reflexivity.
    + destruct (Hk Examples.mortar1) as (k & _ & _ & Hr).
      * reflexivity.
      * exists k. exact Hr.
Defined.

(** ** The unused orientation factor *)

Lemma mul_is_Ok (A B : smatrix) :
  ncols A = nrows B → ∃ C, Sp.mul A B = Ok C.
Proof. intros HAB. unfold Sp.mul. rewrite decide_True by done. eauto. Qed.

(** Peel equal leading steps off two sequences. *)
Ltac same_step :=
  lazymatch goal with
  | |- rbind ?r _ = rbind ?r _ =>
      let E := fresh "E" in
      destruct r eqn:E; cbn [rbind]; [|reflexivity]
  | |- (let '(_, _) := ?p in _) = _ => destruct p
  | |- (match ?p with (_, _) => _ end) = _ => destruct p
  end.

(** C10. The orientation factor of [TpfaCoupling.matrix_rhs] (the diagonal
    matrix of the signs of the row sums of the mortar-to-face projection times
    the transposed divergence) is computed and dropped: whenever the assembly
    returns, the assembly without that factor returns the same block matrix
    and the same interface record; and on every input where the projection
    has as many columns as the grid has face rows, so that the factor can be
    computed at all, the two assemblies agree, exceptions included. *)
Theorem orientation_factor_unused (matrix : list (list value)) (g_h g_l : Grid)
    (data_h data_l data_edge : record) :
  (∀ r,
     TpfaCoupling.matrix_rhs matrix g_h g_l data_h data_l data_edge = Ok r →
     TpfaCoupling.matrix_rhs_without_orientation
       matrix g_h g_l data_h data_l data_edge = Ok r) ∧
  ((∀ mg, data_edge !! "mortar_grid" = Some (VMortar mg) →
          ncols (high_to_mortar_avg mg) = nrows (cell_faces g_h)) →
   TpfaCoupling.matrix_rhs matrix g_h g_l data_h data_l data_edge =
   TpfaCoupling.matrix_rhs_without_orientation
     matrix g_h g_l data_h data_l data_edge).
Proof.
  assert (∀ mg, data_edge !! "mortar_grid" = Some (VMortar mg) →
            (∃ C, Sp.mul (high_to_mortar_avg mg)
                    (Sp.transpose (fvutils.scalar_divergence g_h)) = Ok C) →
            TpfaCoupling.matrix_rhs matrix g_h g_l data_h data_l data_edge =
            TpfaCoupling.matrix_rhs_without_orientation
              matrix g_h g_l data_h data_l data_edge) as Hsame.
  { intros mg Hmg [C HC].
    unfold TpfaCoupling.matrix_rhs, TpfaCoupling.matrix_rhs_without_orientation.
    rewrite (getitem_Some _ _ _ Hmg). cbn [rbind Py.as_mortar].
    repeat same_step.
    cbn [TpfaCoupling.create_block_matrix].
    repeat same_step.
    rewrite HC. cbn [rbind]. reflexivity. }
  split.
  - intros r Hr.
    destruct (data_edge !! "mortar_grid") as [v|] eqn:Hmg; last first.
    { unfold TpfaCoupling.matrix_rhs in Hr.
      rewrite (getitem_None _ _ Hmg) in Hr. discriminate. }
    destruct v as [| | | | |mg|];
      try (unfold TpfaCoupling.matrix_rhs in Hr;
           rewrite (getitem_Some _ _ _ Hmg) in Hr; discriminate).
    rewrite <- Hr. symmetry. apply (Hsame mg eq_refl).
    unfold TpfaCoupling.matrix_rhs in Hr.
    rewrite (getitem_Some _ _ _ Hmg) in Hr. cbn [rbind Py.as_mortar] in Hr.
    inv_steps Hr.
    cbn [TpfaCoupling.create_block_matrix] in Hr.
    inv_steps Hr. eauto.
  - intros Hshape.
    destruct (data_edge !! "mortar_grid") as [v|] eqn:Hmg; last first.
    { unfold TpfaCoupling.matrix_rhs, TpfaCoupling.matrix_rhs_without_orientation.
      rewrite (getitem_None _ _ Hmg). reflexivity. }
    destruct v as [| | | | |mg|];
      try (unfold TpfaCoupling.matrix_rhs,
             TpfaCoupling.matrix_rhs_without_orientation;
           rewrite (getitem_Some _ _ _ Hmg); reflexivity).
    apply (Hsame mg eq_refl). apply mul_is_Ok.
    rewrite (Hshape mg eq_refl). reflexivity.
Qed.

Lemma orientation_factor_unused_witness :
  is_Ok (TpfaCoupling.matrix_rhs Examples.empty_blocks Examples.line3
           Examples.point Examples.mixed_discretized Examples.point_data
           Examples.edge_data) ∧
  TpfaCoupling.matrix_rhs Examples.empty_blocks Examples.line3 Examples.point
    Examples.mixed_discretized Examples.point_data Examples.edge_data =
  TpfaCoupling.matrix_rhs_without_orientation Examples.empty_blocks
    Examples.line3 Examples.point Examples.mixed_discretized
    Examples.point_data Examples.edge_data.
Proof.
  split.
  - apply (bool_decide_unpack _). vm_compute. exact I.
  - apply (orientation_factor_unused Examples.empty_blocks Examples.line3
             Examples.point Examples.mixed_discretized Examples.point_data
             Examples.edge_data).
    intros mg Hmg. vm_compute in Hmg. injection Hmg as <-. reflexivity.
Defined.

(** ** Half-transmissibilities *)

Lemma bcast_Ok_zip {A B C} (f : A → B → C) a b r :
  length a = length b → Np.bcast f a b = Ok r → r = zip_with f a b.
Proof. intros Hl. unfold Np.bcast. rewrite decide_True by done. congruence. Qed.

Lemma bcast_inplace_Ok_zip {A B} (f : A → B → A) a b r :
  length a = length b → Np.bcast_inplace f a b = Ok r → r = zip_with f a b.
Proof.
  intros Hl. unfold Np.bcast_inplace. rewrite decide_True by done. congruence.
Qed.

Lemma contract_sum_axis1 (K : mat3) (n : vec3) :
  mat_sum_axis1 (mat_bcast_mul K n) = contract K n.
Proof. by destruct K as [[r1 r2] r3]. Qed.

Lemma find_lookup (M : smatrix) I J V j f :
  Sp.find M = (I, J, V) → I !! j = Some f →
  ∃ c s, J !! j = Some c ∧ V !! j = Some s.
Proof.
  unfold Sp.find. intros [= <- <- <-]. rewrite !list_lookup_fmap.
  destruct (_ !! j) as [[[i c] s]|]; [|done]. simpl. eauto.
Qed.

Lemma take_Ok_lookup_Some {A} (a : list A) (idx : list nat) (r : list A) k i :
  Np.take a idx = Ok r → idx !! k = Some i →
  ∃ y, r !! k = Some y ∧ a !! i = Some y.
Proof.
  rewrite take_Ok. intros HF Hk.
  destruct (Forall2_lookup_l _ _ _ _ _ HF Hk) as (y & Hy & Hay). eauto.
Qed.

(** The arrays computed by lines 194-223, incidence by incidence. *)
Lemma half_transmissibilities_inv `{Sqrt} (g : Grid) (data : record)
    (k : SecondOrderTensor) (aperture : option (list Qc))
    (fi ci : list nat) (sgn t_face : list Qc) :
  Tpfa.half_transmissibilities g data k aperture = Ok (fi, ci, sgn, t_face) →
  Sp.find (cell_faces g) = (fi, ci, sgn) ∧
  length t_face = length fi ∧
  ∀ j f c s,
    fi !! j = Some f → ci !! j = Some c → sgn !! j = Some s →
    ∃ nf xf xc K n,
      face_normals g !! f = Some nf ∧
      face_centers g !! f = Some xf ∧
      cell_centers g !! c = Some xc ∧
      perm k !! c = Some K ∧
      scaled_normal aperture nf c s = Some n ∧
      let d := vsub xf xc in
      (data !! "Aavatsmark_transmissibilities" = None ∨
       data !! "Aavatsmark_transmissibilities" = Some (VBool false) →
       t_face !! j = Some (dot (contract K n) d / dot d d)%Qc) ∧
      (data !! "Aavatsmark_transmissibilities" = Some (VBool true) →
       t_face !! j = Some (norm2 (contract K n) / norm2 d)%Qc).
Proof.
  unfold Tpfa.half_transmissibilities. intros Hh.
  destruct (Sp.find (cell_faces g)) as [[fi' ci'] sgn'] eqn:Hfind.
  destruct (find_lengths _ _ _ _ Hfind) as [Hlc Hls].
  inv_steps Hh. injection Hh as -> -> -> ->.
  rename x into n0, x0 into n, x1 into pm, x2 into fcs, x3 into ccs,
    x4 into fc_cc, x5 into nk3, x6 into aav, l into tf, l0 into dist.
  pose proof (take_Ok_length _ _ _ E1) as Lpm.
  pose proof (take_Ok_length _ _ _ E2) as Lfcs.
  pose proof (take_Ok_length _ _ _ E3) as Lccs.
  assert (length n0 = length fi) as Ln0.
  { destruct aperture as [a|].
    - apply rbind_Ok in E as (nf0 & Enf & E).
      apply rbind_Ok in E as (ac0 & Eac & E).
      pose proof (take_Ok_length _ _ _ Enf) as L1.
      pose proof (take_Ok_length _ _ _ Eac) as L2.
      apply bcast_Ok_zip in E; [|congruence].
      subst n0. rewrite length_zip_with. lia.
    - by apply take_Ok_length in E. }
  apply bcast_inplace_Ok_zip in E0; [|congruence].
  apply bcast_Ok_zip in E4; [|congruence].
  assert (length n = length fi) as Ln by (subst n; rewrite length_zip_with; lia).
  apply bcast_Ok_zip in E5; [|congruence].
  assert (length fc_cc = length fi) as Lfc
    by (subst fc_cc; rewrite length_zip_with; lia).
  assert (length nk3 = length fi) as Lnk
    by (subst nk3; rewrite length_zip_with; lia).
  assert (length tf = length fi ∧ length dist = length fi) as [Ltf Ldist].
  { destruct aav.
    - injection E7 as <- <-. by rewrite !length_fmap.
    - apply rbind_Ok in E7 as (nk & Enk & E7). injection E7 as <- <-.
      apply bcast_inplace_Ok_zip in Enk; [|rewrite length_fmap; congruence].
      subst nk. rewrite !length_fmap, length_zip_with, length_fmap. lia. }
  apply bcast_Ok_zip in E8; [|congruence].
  split; [done|]. split; [subst t_face; rewrite length_zip_with; lia|].
  intros j f c s Hf Hc Hs.
  destruct (take_Ok_lookup_Some _ _ _ _ _ E1 Hc) as (K & HKj & HK).
  destruct (take_Ok_lookup_Some _ _ _ _ _ E2 Hf) as (xf & Hxfj & Hxf).
  destruct (take_Ok_lookup_Some _ _ _ _ _ E3 Hc) as (xc & Hxcj & Hxc).
  assert (∃ nf m, face_normals g !! f = Some nf ∧
                  scaled_normal aperture nf c s = Some m ∧ n !! j = Some m)
    as (nf & m & Hnf & Hm & Hnj).
  { destruct aperture as [a|].
    - apply rbind_Ok in E as (nf0 & Enf & E).
      apply rbind_Ok in E as (ac0 & Eac & E).
      pose proof (take_Ok_length _ _ _ Enf) as L1.
      pose proof (take_Ok_length _ _ _ Eac) as L2.
      apply bcast_Ok_zip in E; [|congruence].
      destruct (take_Ok_lookup_Some _ _ _ _ _ Enf Hf) as (nf & Hnfj & Hnf).
      destruct (take_Ok_lookup_Some _ _ _ _ _ Eac Hc) as (ac & Hacj & Hac).
      exists nf, (vscale (vscale nf ac) s). split; [done|].
      split; [simpl; by rewrite Hac|].
      subst n n0. rewrite !lookup_zip_with, Hnfj, Hacj, Hs. done.
    - destruct (take_Ok_lookup_Some _ _ _ _ _ E Hf) as (nf & Hnfj & Hnf).
      exists nf, (vscale nf s). split; [done|]. split; [done|].
      subst n. by rewrite lookup_zip_with, Hnfj, Hs. }
  exists nf, xf, xc, K, m. do 5 (split; [done|]).
  assert (fc_cc !! j = Some (vsub xf xc)) as Hd
    by (subst fc_cc; by rewrite lookup_zip_with, Hxfj, Hxcj).
  assert ((mat_sum_axis1 <$> nk3) !! j = Some (contract K m)) as Hnk.
  { subst nk3. rewrite list_lookup_fmap, lookup_zip_with, HKj, Hnj. simpl.
    by rewrite contract_sum_axis1. }
  simpl. split.
  - intros Hkey.
    assert (aav = false) as ->.
    { unfold Py.get, Py.truthy in E6.
      destruct Hkey as [Hk|Hk]; rewrite Hk in E6; by injection E6. }
    apply rbind_Ok in E7 as (nk & Enk & E7). injection E7 as <- <-.
    apply bcast_inplace_Ok_zip in Enk; [|rewrite length_fmap; congruence].
    subst t_face nk. rewrite lookup_zip_with, !list_lookup_fmap, lookup_zip_with.
    by rewrite Hnk, Hd.
  - intros Hkey.
    assert (aav = true) as ->.
    { unfold Py.get, Py.truthy in E6. rewrite Hkey in E6. by injection E6. }
    injection E7 as <- <-.
    subst t_face. rewrite lookup_zip_with, !list_lookup_fmap.
    rewrite list_lookup_fmap in Hnk. by rewrite Hnk, Hd.
Qed.




(** ** Sums *)

Lemma qsum_app (l k : list Qc) : qsum (l ++ k) = (qsum l + qsum k)%Qc.
Proof.
  induction l as [|a l IH]; simpl.
  - by rewrite Qcplus_0_l.
  - rewrite IH. by rewrite Qcplus_assoc.
Qed.

Lemma qsum_Permutation (l k : list Qc) : l ≡ₚ k → qsum l = qsum k.
Proof.
  induction 1 as [|a l k _ IH|a b l|l k m _ IH1 _ IH2]; simpl.
  - done.
  - by rewrite IH.
  - rewrite !Qcplus_assoc. f_equal. apply Qcplus_comm.
  - congruence.
Qed.

Lemma qsum_singleton (a : Qc) : qsum [a] = a.
Proof. simpl. apply Qcplus_0_r. Qed.

Lemma qsum_zero (l : list Qc) : Forall (λ a, a = 0%Qc) l → qsum l = 0%Qc.
Proof. induction 1 as [|a l -> _ IH]; simpl; [done|]. by rewrite IH. Qed.

(** ** Positions and grouping *)

Lemma filter_ext_in {A} (P Q : A → Prop) `{!∀ x, Decision (P x)}
    `{!∀ x, Decision (Q x)} (l : list A) :
  (∀ x, x ∈ l → P x ↔ Q x) → filter P l = filter Q l.
Proof.
  induction l as [|a l IH]; intros Hext; [done|].
  rewrite !filter_cons.
  rewrite IH by (intros x Hx; apply Hext; by right).
  destruct (decide (P a)) as [HP|HP], (decide (Q a)) as [HQ|HQ]; try done.
  - apply Hext in HP; [done|by left].
  - apply Hext in HQ; [done|by left].
Qed.

Lemma positions_nil (v : nat) : Np.positions v [] = [].
Proof. done. Qed.

Lemma positions_snoc (v : nat) (x : list nat) (a : nat) :
  Np.positions v (x ++ [a]) =
  Np.positions v x ++ (if decide (a = v) then [length x] else []).
Proof.
  unfold Np.positions. rewrite length_app. simpl.
  replace (length x + 1) with (S (length x)) by lia.
  rewrite seq_S, filter_app. simpl. f_equal.
  - apply filter_ext_in. intros k Hk. apply elem_of_seq in Hk.
    rewrite lookup_app_l by lia. done.
  - rewrite filter_cons, filter_nil.
    rewrite lookup_app_r, Nat.sub_diag by lia. simpl.
    destruct (decide (a = v)) as [->|Hne].
    + by rewrite decide_True.
    + rewrite decide_False; [done|]. by intros [= ?].
Qed.

Lemma NoDup_positions (v : nat) (x : list nat) : NoDup (Np.positions v x).
Proof. unfold Np.positions. apply NoDup_filter, NoDup_seq. Qed.

Lemma positions_single (v : nat) (x : list nat) (j : nat) :
  (∀ k, x !! k = Some v ↔ k = j) → Np.positions v x = [j].
Proof.
  intros Hj. apply Permutation_singleton_r.
  apply NoDup_Permutation; [apply NoDup_positions|apply NoDup_singleton|].
  intros k. rewrite elem_of_positions, Hj. by rewrite list_elem_of_singleton.
Qed.

Lemma positions_pair (v : nat) (x : list nat) (j1 j2 : nat) :
  j1 ≠ j2 → (∀ k, x !! k = Some v ↔ k = j1 ∨ k = j2) →
  Np.positions v x ≡ₚ [j1; j2].
Proof.
  intros Hne Hj.
  apply NoDup_Permutation; [apply NoDup_positions| |].
  - apply NoDup_cons. split; [by rewrite list_elem_of_singleton|].
    apply NoDup_singleton.
  - intros k. rewrite elem_of_positions, Hj.
    rewrite !elem_of_cons, elem_of_nil. tauto.
Qed.

Lemma sum_at_single (x : list nat) (w : list Qc) (v j : nat) (a : Qc) :
  (∀ k, x !! k = Some v ↔ k = j) → w !! j = Some a → sum_at x w v = a.
Proof.
  intros Hj Ha. unfold sum_at. rewrite (positions_single v x j Hj). simpl.
  rewrite Ha. simpl. apply Qcplus_0_r.
Qed.

Lemma sum_at_pair (x : list nat) (w : list Qc) (v j1 j2 : nat) (a1 a2 : Qc) :
  j1 ≠ j2 → (∀ k, x !! k = Some v ↔ k = j1 ∨ k = j2) →
  w !! j1 = Some a1 → w !! j2 = Some a2 →
  sum_at x w v = (a1 + a2)%Qc.
Proof.
  intros Hne Hj H1 H2. unfold sum_at.
  rewrite (qsum_Permutation _ ((λ j, default 0%Qc (w !! j)) <$> [j1; j2])).
  - simpl. rewrite H1, H2. simpl. by rewrite Qcplus_0_r.
  - apply fmap_Permutation. by apply positions_pair.
Qed.

Lemma sum_at_snoc (x : list nat) (w : list Qc) (a : nat) (b : Qc) (i : nat) :
  length w = length x →
  sum_at (x ++ [a]) (w ++ [b]) i =
  (sum_at x w i + (if decide (a = i) then b else 0))%Qc.
Proof.
  intros Hlen. unfold sum_at. rewrite positions_snoc, fmap_app, qsum_app.
  f_equal.
  - f_equal. apply list_fmap_ext. intros n k Hk.
    apply list_elem_of_lookup_2, elem_of_positions, lookup_lt_Some in Hk.
    rewrite lookup_app_l by lia. done.
  - destruct (decide (a = i)); [|done]. simpl.
    rewrite lookup_app_r, Hlen, Nat.sub_diag by lia. simpl. apply Qcplus_0_r.
Qed.

Lemma bincount_fold (x : list nat) (w acc : list Qc) (i : nat) :
  length w = length x →
  foldl (λ out (p : nat * Qc), alter (λ s, (s + p.2)%Qc) p.1 out) acc (zip x w)
    !! i
  = (λ s, (s + sum_at x w i)%Qc) <$> acc !! i.
Proof.
  revert w. induction x as [|a x IH] using rev_ind; intros w Hlen.
  - destruct w; [|done]. simpl. unfold sum_at. simpl.
    destruct (acc !! i); simpl; [|done]. by rewrite Qcplus_0_r.
  - destruct w as [|b w _] using rev_ind.
    { rewrite length_app in Hlen. simpl in Hlen. lia. }
    rewrite !length_app in Hlen. simpl in Hlen.
    assert (length w = length x) as Hlen' by lia.
    rewrite (zip_with_app pair x [a] w [b]) by lia. simpl.
    rewrite foldl_app. simpl.
    rewrite sum_at_snoc by done.
    destruct (decide (a = i)) as [->|Hne].
    + rewrite list_lookup_alter_eq. fold (zip x w). rewrite IH by done.
      destruct (acc !! i); simpl; [|done]. by rewrite Qcplus_assoc.
    + rewrite list_lookup_alter_ne by done. fold (zip x w). rewrite IH by done.
      destruct (acc !! i); simpl; [|done]. by rewrite Qcplus_0_r.
Qed.

Lemma length_bincount_fold (l : list (nat * Qc)) (acc : list Qc) :
  length (foldl (λ out (p : nat * Qc), alter (λ s, (s + p.2)%Qc) p.1 out) acc l)
  = length acc.
Proof.
  revert acc. induction l as [|p l IH]; intros acc; simpl; [done|].
  by rewrite IH, length_alter.
Qed.

(** [np.bincount] groups the weights by index. *)
Lemma bincount_Ok (x : list nat) (w out : list Qc) :
  Np.bincount x w = Ok out →
  length w = length x ∧
  length out = Np.bincount_size x ∧
  ∀ i, i < Np.bincount_size x → out !! i = Some (sum_at x w i).
Proof.
  unfold Np.bincount. intros Hb. inv_step Hb. injection Hb as <-.
  split; [done|]. split.
  - by rewrite length_bincount_fold, length_replicate.
  - intros i Hi. rewrite bincount_fold by done.
    rewrite lookup_replicate_2 by done. simpl. by rewrite Qcplus_0_l.
Qed.

(** ** Boolean masks *)

Lemma setmask_scalar_Ok {A} (a : list A) (m : list bool) (v : A) (r : list A) :
  Np.setmask_scalar a m v = Ok r →
  length m = length a ∧ length r = length a ∧
  ∀ i x (b : bool), a !! i = Some x → m !! i = Some b →
    r !! i = Some (if b then v else x).
Proof.
  unfold Np.setmask_scalar. intros Hs. inv_step Hs. injection Hs as <-.
  split; [done|]. split; [rewrite length_zip_with; lia|].
  intros i x b Hx Hb. by rewrite lookup_zip_with, Hb, Hx.
Qed.

Lemma getmask_Ok {A} (a : list A) (m : list bool) (r : list A) :
  Np.getmask a m = Ok r → length m = length a ∧ r = Np.mask_sel m a.
Proof. unfold Np.getmask. intros Hg. inv_step Hg. by injection Hg as <-. Qed.

Lemma length_mask_sel {A} (m : list bool) (a : list A) :
  length m = length a →
  length (Np.mask_sel m a) = length (filter (λ b, b = true) m).
Proof.
  revert a. induction m as [|b m IH]; intros [|x a] Hlen; try done.
  simpl in *. destruct b.
  - rewrite filter_cons_True by done. simpl. f_equal. apply IH. lia.
  - rewrite filter_cons_False by done. apply IH. lia.
Qed.

Lemma mask_put_sel {A B} (f : B → A) (m : list bool) (a : list A) (b : list B)
    (i : nat) (x : A) (y : B) (mi : bool) :
  length m = length a → length m = length b →
  a !! i = Some x → b !! i = Some y → m !! i = Some mi →
  Np.mask_put m a (f <$> Np.mask_sel m b) !! i = Some (if mi then f y else x).
Proof.
  revert a b i. induction m as [|c m IH]; intros [|x' a] [|y' b] i La Lb;
    try done.
  simpl in La, Lb. destruct i as [|i]; simpl.
  - intros [= ->] [= ->] [= ->]. by destruct mi.
  - intros Hx Hy Hm. destruct c; simpl; apply IH; (done || lia).
Qed.

Lemma length_mask_put {A} (m : list bool) (a vals : list A) :
  length (Np.mask_put m a vals) = length a.
Proof.
  revert a vals. induction m as [|c m IH]; intros [|x a] vals; try done.
  - by destruct c.
  - destruct c; [destruct vals|]; simpl; auto.
Qed.

(** [a[m] = f(b[m])]: position by position. *)
Lemma setmask_getmask_Ok {A B} (f : B → A) (a : list A) (b sel : list B)
    (m : list bool) (r : list A) :
  Np.getmask b m = Ok sel → Np.setmask a m (f <$> sel) = Ok r →
  length m = length a ∧ length m = length b ∧ length r = length a ∧
  ∀ i x y (mi : bool), a !! i = Some x → b !! i = Some y → m !! i = Some mi →
    r !! i = Some (if mi then f y else x).
Proof.
  intros [Lb ->]%getmask_Ok. unfold Np.setmask. intros Hs. inv_step Hs.
  rewrite decide_True in Hs by (rewrite length_fmap; by apply length_mask_sel).
  injection Hs as <-.
  split; [done|]. split; [done|]. split; [apply length_mask_put|].
  intros i x y mi Hx Hy Hm. by apply mask_put_sel.
Qed.

Lemma setindex_fold (idx : list nat) (acc : list bool) (i : nat) (b : bool) :
  acc !! i = Some b →
  foldl (λ acc j, <[j := true]> acc) acc idx !! i
  = Some (if decide (i ∈ idx) then true else b).
Proof.
  revert acc b. induction idx as [|j idx IH]; intros acc b Hb; cbn [foldl].
  - case_decide as Hin; [by apply elem_of_nil in Hin|done].
  - destruct (decide (j = i)) as [->|Hne].
    + rewrite (IH _ true)
        by (apply list_lookup_insert_eq; by apply lookup_lt_Some in Hb).
      clear IH. repeat case_decide; try done; exfalso;
        match goal with Hn : ?i ∉ ?i :: _ |- _ => apply Hn; by left end.
    + rewrite (IH _ b) by (by rewrite list_lookup_insert_ne).
      clear IH. repeat case_decide; try done; exfalso;
        match goal with
        | Hn : ?i ∉ _ :: ?l, Hy : ?i ∈ ?l |- _ => apply Hn; by right
        | Hy : ?i ∈ _ :: ?l, Hn : ?i ∉ ?l |- _ =>
            apply elem_of_cons in Hy as [?|?]; done
        end.
Qed.

Lemma length_setindex_fold {A} (idx : list nat) (acc : list A) (v : A) :
  length (foldl (λ acc j, <[j := v]> acc) acc idx) = length acc.
Proof.
  revert acc. induction idx as [|j idx IH]; intros acc; simpl; [done|].
  by rewrite IH, length_insert.
Qed.

(** ** Triplet sums *)

Lemma entry_at_zip_none (keys : list (nat * nat)) (data : list Qc) (i j : nat) :
  (i, j) ∉ keys → omap (Sp.entry_at i j) (zip keys data) = [].
Proof.
  revert data. induction keys as [|[i' j'] keys IH]; intros [|d data] Hk;
    try done.
  simpl. unfold Sp.entry_at at 1. simpl.
  rewrite decide_False.
  - apply IH. intros Hin. apply Hk. by right.
  - intros [-> ->]. apply Hk. by left.
Qed.

Lemma entry_at_zip_unique (keys : list (nat * nat)) (data : list Qc)
    (k i j : nat) (d : Qc) :
  keys !! k = Some (i, j) → data !! k = Some d →
  (∀ k', keys !! k' = Some (i, j) → k' = k) →
  omap (Sp.entry_at i j) (zip keys data) = [d].
Proof.
  revert data k. induction keys as [|[i' j'] keys IH]; intros [|d' data] k;
    try done.
  destruct k as [|k]; simpl.
  - intros [= -> ->] [= ->] Huniq. unfold Sp.entry_at at 1. simpl.
    rewrite decide_True by done. f_equal.
    apply entry_at_zip_none. intros (k' & Hk')%list_elem_of_lookup_1.
    by specialize (Huniq (S k') Hk').
  - intros Hk Hd Huniq. unfold Sp.entry_at at 1. simpl.
    rewrite decide_False.
    + apply (IH _ k); [done..|]. intros k' Hk'.
      specialize (Huniq (S k') Hk'). lia.
    + intros [-> ->]. by specialize (Huniq 0 eq_refl).
Qed.

(** An entry of a matrix built from triplets with a position that occurs
    once. *)
Lemma mget_triplets_unique (n m : nat) (I J : list nat) (data : list Qc)
    (k i j : nat) (d : Qc) :
  I !! k = Some i → J !! k = Some j → data !! k = Some d →
  (∀ k', I !! k' = Some i → J !! k' = Some j → k' = k) →
  Sp.mget (SMat n m (zip (zip I J) data)) i j = d.
Proof.
  intros Hi Hj Hd Huniq. unfold Sp.mget. simpl.
  rewrite (entry_at_zip_unique _ _ k i j d); [apply qsum_singleton| |done|].
  - by rewrite lookup_zip_with, Hi, Hj.
  - intros k' Hk'. rewrite lookup_zip_with in Hk'.
    destruct (I !! k') as [i'|] eqn:Hi'; [|done].
    destruct (J !! k') as [j'|] eqn:Hj'; [|done].
    injection Hk' as -> ->. by apply Huniq.
Qed.

(** An entry at a position that no triplet has. *)
Lemma mget_triplets_none (n m : nat) (I J : list nat) (data : list Qc)
    (i j : nat) :
  (∀ k, I !! k = Some i → J !! k = Some j → False) →
  Sp.mget (SMat n m (zip (zip I J) data)) i j = 0%Qc.
Proof.
  intros Hnone. unfold Sp.mget. simpl.
  rewrite entry_at_zip_none; [done|].
  intros (k & Hk)%list_elem_of_lookup_1. rewrite lookup_zip_with in Hk.
  destruct (I !! k) as [i'|] eqn:Hi'; [|done].
  destruct (J !! k) as [j'|] eqn:Hj'; [|done].
  injection Hk as -> ->. by eapply Hnone.
Qed.

Lemma coo_matrix_Ok (data : list Qc) (I J : list nat)
    (shape : option (nat * nat)) (M : smatrix) :
  Sp.coo_matrix data I J shape = Ok M →
  length I = length data ∧ length J = length data ∧
  entries M = zip (zip I J) data ∧
  match shape with
  | Some (n, m) =>
      nrows M = n ∧ ncols M = m ∧
      Forall (λ i, i < n) I ∧ Forall (λ j, j < m) J
  | None => nrows M = S (max_list I) ∧ ncols M = S (max_list J) ∧ I ≠ []
  end.
Proof.
  unfold Sp.coo_matrix. intros Hc. inv_step Hc.
  destruct a as [HI HJ]. split; [done|]. split; [done|].
  destruct shape as [[n m]|].
  - inv_step Hc. injection Hc as <-. simpl. destruct a as [? ?]. done.
  - destruct I as [|i I]; [done|]. injection Hc as <-. done.
Qed.

(** ** Canonical order and [find] *)

Lemma elem_of_canonical (n m : nat) (f : nat → nat → Qc) (i j : nat) (v : Qc) :
  (i, j, v) ∈ Sp.canonical n m f ↔ i < n ∧ j < m ∧ v = f i j ∧ f i j ≠ 0%Qc.
Proof.
  unfold Sp.canonical. split.
  - intros (j' & Hin & Hj')%list_elem_of_bind. apply elem_of_seq in Hj'.
    apply list_elem_of_omap in Hin as (i' & Hi' & Hv). apply elem_of_seq in Hi'.
    destruct (decide (f i' j' = 0%Qc)); [done|]. injection Hv as -> -> <-.
    repeat split; (done || lia).
  - intros (Hi & Hj & -> & Hne). apply list_elem_of_bind.
    exists j. split; [|apply elem_of_seq; lia].
    apply list_elem_of_omap. exists i. split; [apply elem_of_seq; lia|].
    by rewrite decide_False.
Qed.

Lemma NoDup_omap {A B} (g : A → option B) (l : list A) :
  (∀ x y z, g x = Some z → g y = Some z → x = y) →
  NoDup l → NoDup (omap g l).
Proof.
  intros Hinj. induction 1 as [|x l Hx _ IH]; [constructor|]. simpl.
  destruct (g x) as [z|] eqn:Hgx; [|done].
  constructor; [|done].
  intros (y & Hy & Hgy)%list_elem_of_omap.
  by rewrite (Hinj x y z Hgx Hgy) in Hx.
Qed.

Lemma NoDup_canonical_keys (n m : nat) (f : nat → nat → Qc) :
  NoDup (fst <$> Sp.canonical n m f).
Proof.
  apply NoDup_fmap_2_strong.
  - intros [[i j] v] [[i' j'] v'] Hx Hy. simpl. intros [= <- <-].
    apply elem_of_canonical in Hx as (_ & _ & -> & _).
    apply elem_of_canonical in Hy as (_ & _ & -> & _). done.
  - unfold Sp.canonical. apply NoDup_bind; [| |apply NoDup_seq].
    + intros j j' [[i c] v] _ _ Hin Hin'.
      apply list_elem_of_omap in Hin as (i1 & _ & H1).
      apply list_elem_of_omap in Hin' as (i2 & _ & H2).
      repeat case_decide; try done. congruence.
    + intros j _. apply NoDup_omap; [|apply NoDup_seq].
      intros i i' z Hi Hi'.
      repeat case_decide; try done. congruence.
Qed.

Lemma canonical_lookup_unique (n m : nat) (f : nat → nat → Qc)
    (k k' : nat) (e e' : nat * nat * Qc) :
  Sp.canonical n m f !! k = Some e → Sp.canonical n m f !! k' = Some e' →
  e.1 = e'.1 → k = k'.
Proof.
  intros Hk Hk' He.
  eapply (NoDup_lookup _ k k' e.1); [apply NoDup_canonical_keys|..].
  - by rewrite list_lookup_fmap, Hk.
  - by rewrite list_lookup_fmap, Hk', He.
Qed.

(** The three arrays of [find] describe the non-zero entries, each once. *)
Lemma find_entry (M : smatrix) (I J : list nat) (V : list Qc)
    (k i j : nat) (v : Qc) :
  Sp.find M = (I, J, V) →
  I !! k = Some i → J !! k = Some j → V !! k = Some v →
  i < nrows M ∧ j < ncols M ∧ v = Sp.mget M i j ∧ v ≠ 0%Qc.
Proof.
  unfold Sp.find. intros [= <- <- <-]. rewrite !list_lookup_fmap.
  destruct (Sp.canonical _ _ _ !! k) as [[[i' j'] v']|] eqn:Hk; [|done].
  simpl. intros [= ->] [= ->] [= ->].
  apply list_elem_of_lookup_2, elem_of_canonical in Hk
    as (Hi & Hj & -> & Hne). done.
Qed.

Lemma find_complete (M : smatrix) (I J : list nat) (V : list Qc) (i j : nat) :
  Sp.find M = (I, J, V) →
  i < nrows M → j < ncols M → Sp.mget M i j ≠ 0%Qc →
  ∃ k, I !! k = Some i ∧ J !! k = Some j ∧ V !! k = Some (Sp.mget M i j).
Proof.
  unfold Sp.find. intros [= <- <- <-] Hi Hj Hne.
  assert ((i, j, Sp.mget M i j) ∈ Sp.canonical (nrows M) (ncols M) (Sp.mget M))
    as (k & Hk)%list_elem_of_lookup_1 by by apply elem_of_canonical.
  exists k. by rewrite !list_lookup_fmap, Hk.
Qed.

Lemma find_unique (M : smatrix) (I J : list nat) (V : list Qc)
    (k k' i j : nat) :
  Sp.find M = (I, J, V) →
  I !! k = Some i → J !! k = Some j →
  I !! k' = Some i → J !! k' = Some j → k = k'.
Proof.
  unfold Sp.find. intros [= <- <- <-]. rewrite !list_lookup_fmap.
  destruct (Sp.canonical _ _ _ !! k) as [[[i1 j1] v1]|] eqn:Hk; [|done].
  destruct (Sp.canonical _ _ _ !! k') as [[[i2 j2] v2]|] eqn:Hk'; [|done].
  simpl. intros [= ->] [= ->] [= ->] [= ->].
  by eapply canonical_lookup_unique.
Qed.

(** ** What [discretize] computes *)

Tactic Notation "step" hyp(H) "as" ident(x) ident(E) :=
  apply rbind_Ok in H as (x & E & H).

Lemma half_transmissibilities_find `{Sqrt} (g : Grid) (data : record)
    (k : SecondOrderTensor) (aperture : option (list Qc))
    (fi ci : list nat) (sgn t_face : list Qc) :
  Tpfa.half_transmissibilities g data k aperture = Ok (fi, ci, sgn, t_face) →
  Sp.find (cell_faces g) = (fi, ci, sgn) ∧ length t_face = length fi.
Proof.
  intros Hh. by destruct (half_transmissibilities_inv _ _ _ _ _ _ _ _ Hh) as (? & ? & _).
Qed.

Lemma coo_matrix_eq (data : list Qc) (I J : list nat)
    (shape : option (nat * nat)) (M : smatrix) :
  Sp.coo_matrix data I J shape = Ok M →
  M = SMat (nrows M) (ncols M) (zip (zip I J) data).
Proof.
  intros (_ & _ & He & _)%coo_matrix_Ok. destruct M. simpl in *. by subst.
Qed.

Lemma bincount_size_cons (x : list nat) :
  x ≠ [] → Np.bincount_size x = S (max_list x).
Proof. by destruct x. Qed.

Lemma inactive_lookup (g : Grid) (faces : option (list nat)) (ina : list bool) :
  match faces with
  | Some fs =>
      rbind (Np.setindex_scalar (replicate (num_faces g) false) fs true)
        (λ is_active : list bool, Ok (negb <$> is_active))
  | None => Ok (replicate (num_faces g) false)
  end = Ok ina →
  length ina = num_faces g ∧
  ∀ f, f < num_faces g → ina !! f = Some (inactive faces f).
Proof.
  destruct faces as [fs|]; simpl.
  - intros Hi. step Hi as act Eact. injection Hi as <-.
    unfold Np.setindex_scalar in Eact. inv_step Eact. injection Eact as <-.
    split; [by rewrite length_fmap, length_setindex_fold, length_replicate|].
    intros q Hq. rewrite list_lookup_fmap.
    rewrite (setindex_fold _ _ _ false) by by apply lookup_replicate_2.
    simpl. f_equal.
    destruct (decide (q ∈ fs)) as [Hin|Hin]; simpl; symmetry.
    + apply bool_decide_eq_false_2. tauto.
    + by apply bool_decide_eq_true_2.
  - intros [= <-]. split; [apply length_replicate|].
    intros f Hf. by apply lookup_replicate_2.
Qed.

Lemma discretize_inv `{Sqrt} (g : Grid) (data data' : record)
    (faces : option (list nat)) (p : Parameters) :
  Tpfa.discretize g data faces = Ok data' →
  dim g ≠ 0 →
  data !! "param" = Some (VParam p) →
  let bnd := get_bc p in
  let nf := num_faces g in
  let bndr := get_boundary_faces g in
  ∃ fi ci sgn th F B Bc Bf fd rows bsgn t_b bd vc vf,
    Tpfa.half_transmissibilities g data (get_tensor p) (get_aperture p)
      = Ok (fi, ci, sgn, th) ∧
    Sp.find (cell_faces g) = (fi, ci, sgn) ∧
    length th = length fi ∧
    (Np.bincount_size fi = nf ∧ length (is_dir bnd) = nf ∧
     length (is_neu bnd) = nf ∧ fi ≠ [] ∧ Forall (λ b, b < nf) bndr) ∧
    data' = <["bound_pressure_face" := VMat Bf]>
              (<["bound_pressure_cell" := VMat Bc]>
                 (<["bound_flux" := VMat B]> (<["flux" := VMat F]> data))) ∧
    (F = SMat nf (S (max_list ci)) (zip (zip fi ci) fd) ∧
     length fd = length fi ∧
     ∀ j f s (nu : bool),
       fi !! j = Some f → sgn !! j = Some s → is_neu bnd !! f = Some nu →
       fd !! j = Some ((if nu || inactive faces f then 0
                        else t_full fi th f) * s)%Qc) ∧
    (Sp.row_select (cell_faces g) bndr = Ok rows ∧
     Np.take (Sp.data rows) (Np.argsort (Sp.indices rows)) = Ok bsgn ∧
     Np.bcast Qcmult t_b bsgn = Ok bd ∧
     B = SMat nf nf (zip (zip bndr bndr) bd) ∧
     length bd = length bndr ∧ length t_b = length bndr ∧
     ∀ k f (di nu : bool),
       bndr !! k = Some f →
       is_dir bnd !! f = Some di → is_neu bnd !! f = Some nu →
       t_b !! k = Some (if nu then 1 else if di then - t_full fi th f else 0)%Qc) ∧
    (Bc = SMat nf (num_cells g) (zip (zip fi ci) vc) ∧
     length vc = length fi ∧
     ∀ j f (nu : bool),
       fi !! j = Some f → is_neu bnd !! f = Some nu →
       vc !! j = Some (if nu then 1 else 0)%Qc) ∧
    (Bf = Sp.dia_matrix vf nf nf ∧
     length vf = nf ∧
     ∀ f (di nu : bool),
       is_dir bnd !! f = Some di → is_neu bnd !! f = Some nu →
       vf !! f = Some (if nu then -1 / t_full fi th f
                       else if di then 1 else 0)%Qc).
Proof.
  intros Hd Hdim Hp. cbv zeta. unfold Tpfa.discretize in Hd.
  rewrite (getitem_Some _ _ _ Hp) in Hd. cbn [rbind Py.as_param] in Hd.
  rewrite decide_False in Hd by done.
  step Hd as ina Eina.
  step Hd as ht Eht. destruct ht as [[[fi ci] sgn] th].
  step Hd as w Ew.
  step Hd as sgn_full Esf.
  step Hd as t_dir Etdir.
  step Hd as t_b1 Etb1.
  step Hd as t_b2 Etb2.
  step Hd as t_b Etb.
  step Hd as off Eoff.
  step Hd as t Et.
  step Hd as t_fi Etfi.
  step Hd as fd Efd.
  step Hd as F EF.
  step Hd as rows Erows.
  step Hd as bsgn Ebsgn.
  step Hd as bd Ebd.
  step Hd as B EB.
  step Hd as vf1 Evf1.
  step Hd as t_neu Etneu.
  step Hd as vf Evf.
  step Hd as neu_fi Eneufi.
  step Hd as vc Evc.
  step Hd as Bc EBc.
  injection Hd as <-.
  destruct (half_transmissibilities_find _ _ _ _ _ _ _ _ Eht) as [Hfind Lth].
  destruct (find_lengths _ _ _ _ Hfind) as [Lci Lsgn].
  apply inactive_lookup in Eina as [Lina Hina].
  apply bincount_Ok in Ew as (_ & Lw & Hw).
  destruct (setmask_getmask_Ok _ _ _ _ _ _ Etdir Etb1)
    as (Ldir & Ldir' & Ltb1 & Htb1).
  unfold Np.zeros in *. rewrite length_replicate in Ldir, Ltb1.
  rewrite length_fmap, Lw in Ldir'.
  assert (Np.bincount_size fi = (num_faces g)) as Hsize by congruence.
  rewrite Hsize in *.
  assert (∀ f, f < (num_faces g) → (recip <$> w) !! f = Some (t_full fi th f)) as Ht.
  { intros f Hf. by rewrite list_lookup_fmap, Hw. }
  apply setmask_scalar_Ok in Etb2 as (Lneu & Ltb2 & Htb2).
  rewrite Ltb1 in Lneu, Ltb2.
  apply bcast_Ok_zip in Eoff; [|congruence].
  apply setmask_scalar_Ok in Et as (Loff & Lt & Ht').
  rewrite length_fmap, Lw in Loff, Lt.
  pose proof (take_Ok_length _ _ _ Etfi) as Ltfi.
  apply bcast_Ok_zip in Efd; [|congruence].
  pose proof (coo_matrix_eq _ _ _ _ _ EF) as HF.
  apply coo_matrix_Ok in EF as (LfdI & _ & _ & HFr & HFc & Hfine).
  pose proof (coo_matrix_eq _ _ _ _ _ EB) as HB.
  apply coo_matrix_Ok in EB as (LbdI & _ & _ & HBr & HBcol & Hbndr & _).
  pose proof (coo_matrix_eq _ _ _ _ _ EBc) as HBceq.
  apply coo_matrix_Ok in EBc as (LvcI & _ & _ & HBcr & HBcc & _ & _).
  apply setmask_scalar_Ok in Evf1 as (_ & Lvf1 & Hvf1).
  rewrite length_replicate in Lvf1.
  destruct (setmask_getmask_Ok _ _ _ _ _ _ Etneu Evf)
    as (_ & _ & Lvf & Hvf).
  rewrite Lvf1 in Lvf.
  apply setmask_scalar_Ok in Evc as (Lnf & Lvc & Hvc).
  rewrite length_replicate in Lnf, Lvc.
  exists fi, ci, sgn, th, F, B, Bc, (Sp.dia_matrix vf (num_faces g) (num_faces g)), fd, rows, bsgn,
    t_b, bd, vc, vf.
  split; [done|]. split; [done|]. split; [done|]. split; [done|].
  split; [done|]. split; [|split; [|split; [|split]]].
  - (* flux *)
    split.
    { rewrite HF, HFr, HFc. f_equal.
      rewrite <- Hsize. symmetry. by apply bincount_size_cons. }
    split; [congruence|].
    intros j f s nu Hf Hs Hnu.
    assert (f < (num_faces g)) as Hlt by (apply lookup_lt_Some in Hnu; lia).
    assert (t !! f = Some (if nu || inactive faces f then 0%Qc
                           else t_full fi th f)) as Htf.
    { erewrite Ht'; [done|by apply Ht|].
      subst off. by rewrite lookup_zip_with, Hnu, (Hina f Hlt). }
    subst fd. rewrite lookup_zip_with.
    rewrite (take_Ok_lookup _ _ _ _ _ Etfi Hf), Htf. simpl. by rewrite Hs.
  - (* bound_flux *)
    split; [done|]. split; [done|]. split; [done|].
    split; [by rewrite HB, HBr, HBcol|].
    split; [congruence|]. split; [by apply take_Ok_length in Etb|].
    intros k f di nu Hk Hdi Hnu.
    assert (f < (num_faces g)) as Hlt by (apply lookup_lt_Some in Hnu; lia).
    rewrite (take_Ok_lookup _ _ _ _ _ Etb Hk).
    erewrite Htb2; [done| |done].
    erewrite (Htb1 f 0%Qc (t_full fi th f) di); [by destruct di| |by apply Ht|done].
    by apply lookup_replicate_2.
  - (* bound_pressure_cell *)
    split; [by rewrite HBceq, HBcr, HBcc|]. split; [done|].
    intros j f nu Hf Hnu.
    erewrite Hvc; [done| |].
    + apply lookup_replicate_2. by apply lookup_lt_Some in Hf.
    + by rewrite (take_Ok_lookup _ _ _ _ _ Eneufi Hf).
  - done.
  - split; [done|].
    intros f di nu Hdi Hnu.
    assert (f < (num_faces g)) as Hlt by (apply lookup_lt_Some in Hnu; lia).
    erewrite (Hvf f _ (t_full fi th f) nu); [done| |by apply Ht|done].
    erewrite Hvf1; [done| |done]. by apply lookup_replicate_2.
Qed.

(** ** The harmonic average *)

Lemma recip_recip (h : Qc) : recip (recip h) = h.
Proof.
  unfold recip. destruct (decide (h = 0%Qc)) as [->|Hne].
  - reflexivity.
  - field. done.
Qed.

Lemma t_full_single (fi : list nat) (th : list Qc) (f j : nat) (h : Qc) :
  (∀ j', fi !! j' = Some f ↔ j' = j) → th !! j = Some h →
  t_full fi th f = h.
Proof.
  intros Hj Hh. unfold t_full.
  rewrite (sum_at_single fi _ f j (recip h)); [apply recip_recip|done|].
  by rewrite list_lookup_fmap, Hh.
Qed.

Lemma t_full_pair (fi : list nat) (th : list Qc) (f j1 j2 : nat) (t1 t2 : Qc) :
  j1 ≠ j2 → (∀ j, fi !! j = Some f ↔ j = j1 ∨ j = j2) →
  th !! j1 = Some t1 → th !! j2 = Some t2 →
  t_full fi th f = (1 / (1 / t1 + 1 / t2))%Qc.
Proof.
  intros Hne Hj H1 H2. unfold t_full.
  rewrite (sum_at_pair fi _ f j1 j2 (recip t1) (recip t2)); [done..| |].
  - by rewrite list_lookup_fmap, H1.
  - by rewrite list_lookup_fmap, H2.
Qed.

(** An entry of the flux operator at an incidence. *)
Lemma flux_entry (fi ci : list nat) (sgn fd : list Qc) (M : smatrix)
    (n m j f c : nat) (d : Qc) :
  Sp.find M = (fi, ci, sgn) →
  fi !! j = Some f → ci !! j = Some c → fd !! j = Some d →
  Sp.mget (SMat n m (zip (zip fi ci) fd)) f c = d.
Proof.
  intros Hfind Hf Hc Hd. apply (mget_triplets_unique _ _ _ _ _ j); [done..|].
  intros j' Hf' Hc'. by eapply find_unique.
Qed.

(** C2. On a face with exactly two incidences, not a Neumann face and
    active, the transmissibility that [discretize] puts into the flux operator
    is the harmonic combination [1 / (1/t1 + 1/t2)] of the two
    half-transmissibilities (the reciprocals are summed face by face by
    [np.bincount]); each of the two entries of the face carries it with the
    sign of its incidence.  The two half-transmissibilities are not zero and
    their reciprocals do not cancel: none of the three divisions is a
    division by zero, where NumPy stores [inf]. *)
Theorem harmonic_average_interior_face `{Sqrt} (g : Grid) (data data' : record)
    (faces : option (list nat)) (p : Parameters)
    (fi ci : list nat) (sgn th : list Qc)
    (f j1 j2 c1 c2 : nat) (t1 t2 s1 s2 : Qc) :
  Tpfa.discretize g data faces = Ok data' →
  dim g ≠ 0 →
  data !! "param" = Some (VParam p) →
  Tpfa.half_transmissibilities g data (get_tensor p) (get_aperture p)
    = Ok (fi, ci, sgn, th) →
  j1 ≠ j2 →
  (∀ j, fi !! j = Some f ↔ j = j1 ∨ j = j2) →
  th !! j1 = Some t1 → th !! j2 = Some t2 →
  t1 ≠ 0%Qc → t2 ≠ 0%Qc → (1 / t1 + 1 / t2 ≠ 0)%Qc →
  ci !! j1 = Some c1 → ci !! j2 = Some c2 →
  sgn !! j1 = Some s1 → sgn !! j2 = Some s2 →
  is_neu (get_bc p) !! f = Some false →
  inactive faces f = false →
  t_full fi th f = (1 / (1 / t1 + 1 / t2))%Qc ∧
  ∃ F, data' !! "flux" = Some (VMat F) ∧
       Sp.mget F f c1 = (1 / (1 / t1 + 1 / t2) * s1)%Qc ∧
       Sp.mget F f c2 = (1 / (1 / t1 + 1 / t2) * s2)%Qc.
Proof.
  intros Hd Hdim Hp Hh Hne Hj Ht1 Ht2 _ _ _ Hc1 Hc2 Hs1 Hs2 Hneu Hact.
  destruct (discretize_inv g data data' faces p Hd Hdim Hp)
    as (fi' & ci' & sgn' & th' & F & B & Bc & Bf & fd & rows & bsgn & t_b & bd
        & vc & vf & Hh' & Hfind & Lth & _ & -> & (-> & Lfd & Hfd) & _).
  rewrite Hh in Hh'. injection Hh' as <- <- <- <-.
  pose proof (t_full_pair fi th f j1 j2 t1 t2 Hne Hj Ht1 Ht2) as Ht.
  split; [done|]. exists (SMat (num_faces g) (S (max_list ci)) (zip (zip fi ci) fd)).
  split; [do 3 rewrite lookup_insert_ne by done; by rewrite lookup_insert_eq|].
  assert (fi !! j1 = Some f) as Hf1 by (apply Hj; by left).
  assert (fi !! j2 = Some f) as Hf2 by (apply Hj; by right).
  split.
  - apply (flux_entry _ _ _ _ _ _ _ j1 f c1 _ Hfind Hf1 Hc1).
    rewrite (Hfd j1 f s1 false Hf1 Hs1 Hneu), Hact, Ht. done.
  - apply (flux_entry _ _ _ _ _ _ _ j2 f c2 _ Hfind Hf2 Hc2).
    rewrite (Hfd j2 f s2 false Hf2 Hs2 Hneu), Hact, Ht. done.
Qed.

(** ** The signs of the boundary faces *)

Lemma bind_singletons_lookup (x : list nat) (n : nat) :
  (∀ v, v < n → ∃ q, Np.positions v x = [q]) →
  length (seq 0 n ≫= λ v, Np.positions v x) = n ∧
  ∀ k q, k < n → Np.positions k x = [q] →
    (seq 0 n ≫= λ v, Np.positions v x) !! k = Some q.
Proof.
  induction n as [|n IH]; intros Hx.
  - split; [done|]. intros k q Hk. lia.
  - destruct IH as [IHl IHk]; [intros v Hv; apply Hx; lia|].
    destruct (Hx n) as [qn Hqn]; [lia|].
    rewrite seq_S, bind_app. simpl. rewrite Hqn. simpl.
    split; [rewrite length_app, IHl; simpl; lia|].
    intros k q Hk Hq. destruct (decide (k = n)) as [->|Hne].
    + rewrite lookup_app_r, IHl, Nat.sub_diag by lia. simpl. congruence.
    + rewrite lookup_app_l by lia. apply IHk; [lia|done].
Qed.

Lemma bincount_size_range (x : list nat) (n : nat) :
  (∀ v, v ∈ x → v < n) → (∀ v, v < n → v ∈ x) → Np.bincount_size x = n.
Proof.
  intros Hlt Hin. destruct x as [|a x].
  - destruct n as [|n]; [done|]. specialize (Hin 0 (Nat.lt_0_succ n)).
    by apply elem_of_nil in Hin.
  - unfold Np.bincount_size. destruct n as [|n].
    { assert (a < 0) by (apply Hlt; left). lia. }
    f_equal. apply Nat.le_antisymm.
    + assert (max_list (a :: x) ∈ a :: x) as Hm by by apply max_list_elem_of.
      apply Hlt in Hm. lia.
    + apply max_list_elem_of_le, Hin. lia.
Qed.

(** When every selected row has exactly one non-zero entry, sorting the
    stored values by row index lists the entry of each row in turn. *)
Lemma row_select_sorted_data (M : smatrix) (idx : list nat) (rows : smatrix)
    (bsgn : list Qc) :
  Sp.row_select M idx = Ok rows →
  Np.take (Sp.data rows) (Np.argsort (Sp.indices rows)) = Ok bsgn →
  (∀ k f, idx !! k = Some f →
     ∃ c, c < ncols M ∧ Sp.mget M f c ≠ 0%Qc ∧
          ∀ c', c' < ncols M → Sp.mget M f c' ≠ 0%Qc → c' = c) →
  length bsgn = length idx ∧
  ∀ k f c, idx !! k = Some f → c < ncols M → Sp.mget M f c ≠ 0%Qc →
    bsgn !! k = Some (Sp.mget M f c).
Proof.
  unfold Sp.row_select. intros Hr. inv_step Hr. injection Hr as <-.
  unfold Sp.data, Sp.indices. simpl.
  set (φ := λ k j : nat, Sp.mget M (default 0 (idx !! k)) j).
  set (E := Sp.canonical (length idx) (ncols M) φ).
  intros Ht Hone.
  (* the position of the entry of row [k] *)
  assert (∀ k fc c, idx !! k = Some fc → c < ncols M → Sp.mget M fc c ≠ 0%Qc →
            ∃ q, E !! q = Some (k, c, Sp.mget M fc c) ∧
                 ∀ q', ((λ e : nat * nat * Qc, e.1.1) <$> E) !! q' = Some k ↔ q' = q)
    as Hpos.
  { intros k fc c Hk Hc Hne.
    assert ((k, c, Sp.mget M fc c) ∈ E) as (q & Hq)%list_elem_of_lookup_1.
    { apply elem_of_canonical. unfold φ. rewrite Hk. simpl.
      split; [by apply lookup_lt_Some in Hk|done]. }
    exists q. split; [done|]. intros q'. rewrite list_lookup_fmap. split.
    - destruct (E !! q') as [[[k' c'] v']|] eqn:Hq'; [|done].
      simpl. intros [= ->].
      pose proof Hq' as Hin. apply list_elem_of_lookup_2, elem_of_canonical in Hin
        as (_ & Hc' & -> & Hne').
      unfold φ in Hne'. rewrite Hk in Hne'. simpl in Hne'.
      destruct (Hone k fc Hk) as (c0 & _ & _ & Huniq).
      assert (c' = c) as -> by (rewrite (Huniq c'), (Huniq c); done).
      by eapply (canonical_lookup_unique _ _ _ q' q).
    - intros ->. by rewrite Hq. }
  assert (∀ k, k < length idx →
            ∃ q, Np.positions k ((λ e : nat * nat * Qc, e.1.1) <$> E) = [q])
    as Hsingle.
  { intros k Hk. apply lookup_lt_is_Some in Hk as [fc Hfc].
    destruct (Hone k fc Hfc) as (c & Hc & Hne & _).
    destruct (Hpos k fc c Hfc Hc Hne) as (q & _ & Hq).
    exists q. by apply positions_single. }
  assert (Np.bincount_size ((λ e : nat * nat * Qc, e.1.1) <$> E) = length idx)
    as Hsize.
  { apply bincount_size_range.
    - intros v ([[k c] x] & -> & Hin)%list_elem_of_fmap.
      by apply elem_of_canonical in Hin as (? & _).
    - intros v Hv. destruct (Hsingle v Hv) as [q Hq].
      assert (q ∈ Np.positions v ((λ e : nat * nat * Qc, e.1.1) <$> E)) as Hin
        by (rewrite Hq; left).
      apply elem_of_positions in Hin. by eapply list_elem_of_lookup_2. }
  unfold Np.argsort in Ht. rewrite Hsize in Ht.
  destruct (bind_singletons_lookup _ _ Hsingle) as [Hlen Hlook].
  split; [by rewrite (take_Ok_length _ _ _ Ht)|].
  intros k fc c Hk Hc Hne.
  destruct (Hpos k fc c Hk Hc Hne) as (q & Hq & Hqu).
  assert (k < length idx) as Hlt by by apply lookup_lt_Some in Hk.
  rewrite (take_Ok_lookup _ _ _ k q Ht).
  - by rewrite list_lookup_fmap, Hq.
  - apply Hlook; [done|]. by apply positions_single.
Qed.

(** ** Boundary conditions *)

Lemma mget_triplets_zero (n m : nat) (I J : list nat) (data : list Qc)
    (i j : nat) :
  (∀ k d, I !! k = Some i → J !! k = Some j → data !! k = Some d → d = 0%Qc) →
  Sp.mget (SMat n m (zip (zip I J) data)) i j = 0%Qc.
Proof.
  intros Hz. unfold Sp.mget. simpl. apply qsum_zero, Forall_forall.
  intros d ([[i' j'] d'] & Hin & He)%list_elem_of_omap.
  unfold Sp.entry_at in He. simpl in He.
  destruct (decide (i' = i ∧ j' = j)) as [[-> ->]|]; [|done].
  injection He as ->.
  apply list_elem_of_lookup_1 in Hin as (k & Hk).
  rewrite !lookup_zip_with in Hk.
  destruct (I !! k) as [a|] eqn:HI; [|done].
  destruct (J !! k) as [b|] eqn:HJ; [|done].
  destruct (data !! k) as [x|] eqn:HD; [|done].
  simpl in Hk. injection Hk as -> -> ->. by eapply Hz.
Qed.

(** A face with a single incidence has a single non-zero entry in its row of
    the incidence matrix. *)
Lemma single_incidence_row (M : smatrix) (fi ci : list nat) (sgn : list Qc)
    (f j : nat) :
  Sp.find M = (fi, ci, sgn) →
  (∀ j', fi !! j' = Some f ↔ j' = j) →
  ∃ c s, ci !! j = Some c ∧ sgn !! j = Some s ∧
         c < ncols M ∧ Sp.mget M f c = s ∧ s ≠ 0%Qc ∧
         ∀ c', c' < ncols M → Sp.mget M f c' ≠ 0%Qc → c' = c.
Proof.
  intros Hfind Hj.
  assert (fi !! j = Some f) as Hf by by apply Hj.
  destruct (find_lookup _ _ _ _ _ _ Hfind Hf) as (c & s & Hc & Hs).
  destruct (find_entry _ _ _ _ _ _ _ _ Hfind Hf Hc Hs) as (Hlt & Hcl & -> & Hne).
  exists c, (Sp.mget M f c). do 5 (split; [done|]).
  intros c' Hc' Hne'.
  destruct (find_complete _ _ _ _ f c' Hfind Hlt Hc' Hne') as (j' & Hf' & Hcj' & _).
  apply Hj in Hf' as ->. congruence.
Qed.

(** C3. After [discretize] on a grid of dimension at least one whose boundary
    faces each have a single incidence: on a Dirichlet boundary face the
    diagonal entry of the boundary-flux operator is minus the
    half-transmissibility of the face, times the sign of its incidence; on a
    Neumann boundary face it is 1 times that sign, and the row of the face in
    the flux operator is zero; the row of every face outside the active subset
    is zero as well; and the boundary-flux operator has no other entry than
    the diagonal ones of the boundary faces. *)
Theorem boundary_condition_policy `{Sqrt} (g : Grid) (data data' : record)
    (faces : option (list nat)) (p : Parameters)
    (fi ci : list nat) (sgn th : list Qc) :
  Tpfa.discretize g data faces = Ok data' →
  dim g ≠ 0 →
  data !! "param" = Some (VParam p) →
  Tpfa.half_transmissibilities g data (get_tensor p) (get_aperture p)
    = Ok (fi, ci, sgn, th) →
  NoDup (get_boundary_faces g) →
  (∀ b, b ∈ get_boundary_faces g → ∃ j, ∀ j', fi !! j' = Some b ↔ j' = j) →
  ∃ F B,
    data' !! "flux" = Some (VMat F) ∧
    data' !! "bound_flux" = Some (VMat B) ∧
    (∀ f j h s,
       f ∈ get_boundary_faces g →
       fi !! j = Some f → th !! j = Some h → sgn !! j = Some s →
       (is_dir (get_bc p) !! f = Some true →
        is_neu (get_bc p) !! f = Some false →
        Sp.mget B f f = (- h * s)%Qc) ∧
       (is_neu (get_bc p) !! f = Some true →
        Sp.mget B f f = (1 * s)%Qc ∧ ∀ c, Sp.mget F f c = 0%Qc)) ∧
    (∀ f c, f < num_faces g → inactive faces f = true →
            Sp.mget F f c = 0%Qc) ∧
    (∀ f f', f ≠ f' ∨ f ∉ get_boundary_faces g → Sp.mget B f f' = 0%Qc).
Proof.
  intros Hd Hdim Hp Hh Hnd Hone.
  destruct (discretize_inv g data data' faces p Hd Hdim Hp)
    as (fi' & ci' & sgn' & th' & F & B & Bc & Bf & fd & rows & bsgn & t_b & bd
        & vc & vf & Hh' & Hfind & Lth & (Hsize & Ldir & Lneu & _) & ->
        & (-> & Lfd & Hfd) & (Erows & Ebsgn & Ebd & -> & Lbd & Ltb & Htb) & _).
  rewrite Hh in Hh'. injection Hh' as <- <- <- <-.
  set (bndr := get_boundary_faces g) in *.
  (* the signs of the boundary faces, in the order of [bndr] *)
  destruct (row_select_sorted_data _ _ _ _ Erows Ebsgn) as [Lbsgn Hbsgn].
  { intros k f Hk.
    destruct (Hone f) as [j Hj]; [by eapply list_elem_of_lookup_2|].
    destruct (single_incidence_row _ _ _ _ _ _ Hfind Hj)
      as (c & s & _ & _ & Hc & <- & Hne & Huniq).
    exists c. done. }
  apply bcast_Ok_zip in Ebd; [|congruence].
  (* rows of the flux operator that are switched off *)
  assert (∀ f c (nu : bool), is_neu (get_bc p) !! f = Some nu →
            nu || inactive faces f = true →
            Sp.mget (SMat (num_faces g) (S (max_list ci)) (zip (zip fi ci) fd))
              f c = 0%Qc) as Hoff.
  { intros f c nu Hnu Hor. apply mget_triplets_zero.
    intros k d Hf Hc Hd'.
    destruct (find_lookup _ _ _ _ _ _ Hfind Hf) as (c' & s & _ & Hs).
    rewrite (Hfd k f s nu Hf Hs Hnu), Hor in Hd'. injection Hd' as <-.
    apply Qcmult_0_l. }
  eexists _, _.
  split; [do 3 rewrite lookup_insert_ne by done; by rewrite lookup_insert_eq|].
  split; [do 2 rewrite lookup_insert_ne by done; by rewrite lookup_insert_eq|].
  split; [|split].
  - intros f j h s Hin Hf Hth Hs.
    destruct (Hone f Hin) as [j0 Hj0].
    assert (j0 = j) as -> by (symmetry; by apply Hj0).
    destruct (single_incidence_row _ _ _ _ _ _ Hfind Hj0)
      as (c & s' & _ & Hs' & Hc & Hm & Hne & _).
    assert (s' = s) as -> by congruence.
    apply list_elem_of_lookup_1 in Hin as (k & Hk).
    assert (bsgn !! k = Some s) as Hbk.
    { rewrite (Hbsgn k f c Hk Hc); [by rewrite Hm|by rewrite Hm]. }
    assert (∀ di nu : bool, is_dir (get_bc p) !! f = Some di →
              is_neu (get_bc p) !! f = Some nu →
              Sp.mget (SMat (num_faces g) (num_faces g)
                         (zip (zip bndr bndr) bd)) f f
              = ((if nu then 1 else if di then - t_full fi th f else 0) * s)%Qc)
      as HB.
    { intros di nu Hdi Hnu.
      apply (mget_triplets_unique _ _ _ _ _ k); [done..| |].
      - subst bd. by rewrite lookup_zip_with, (Htb k f di nu Hk Hdi Hnu), Hbk.
      - intros k' Hk' _. by eapply NoDup_lookup. }
    split.
    + intros Hdi Hnu. rewrite (HB true false Hdi Hnu).
      by rewrite (t_full_single fi th f j h Hj0 Hth).
    + intros Hnu.
      assert (f < num_faces g) as Hlt by (apply lookup_lt_Some in Hnu; lia).
      destruct (lookup_lt_is_Some_2 (is_dir (get_bc p)) f) as [di Hdi]; [lia|].
      split; [by rewrite (HB di true Hdi Hnu)|].
      intros c'. by apply (Hoff f c' true).
  - intros f c Hlt Hina.
    destruct (lookup_lt_is_Some_2 (is_neu (get_bc p)) f) as [nu Hnu]; [lia|].
    apply (Hoff f c nu Hnu). rewrite Hina. by destruct nu.
  - intros f f' Hor. apply mget_triplets_none.
    intros k Hk Hk'. destruct Hor as [Hne|Hnin].
    + congruence.
    + apply Hnin. by eapply list_elem_of_lookup_2.
Qed.

(** ** Diagonal matrices and matrix-vector products *)

Lemma qsum_imap_zero {A} (ψ : nat → A → Qc) (l : list A) :
  (∀ k y, l !! k = Some y → ψ k y = 0%Qc) → qsum (imap ψ l) = 0%Qc.
Proof.
  intros Hz. apply qsum_zero, Forall_forall.
  intros a (k & y & -> & Hk)%elem_of_lookup_imap. by eapply Hz.
Qed.

Lemma qsum_cons (a : Qc) (l : list Qc) : qsum (a :: l) = (a + qsum l)%Qc.
Proof. done. Qed.

Lemma qsum_imap_indicator {A} (φ : nat → A → Qc) (l : list A) (f : nat) (x : A) :
  l !! f = Some x →
  qsum (imap (λ k y, if decide (k = f) then φ k y else 0%Qc) l) = φ f x.
Proof.
  revert f φ. induction l as [|y l IH]; intros f φ Hf; [done|].
  rewrite imap_cons, qsum_cons. destruct f as [|f]; simpl in Hf.
  - injection Hf as ->. rewrite decide_True by done.
    rewrite qsum_imap_zero; [apply Qcplus_0_r|].
    intros k z _. unfold compose. by rewrite decide_False.
  - rewrite decide_False by done. rewrite Qcplus_0_l.
    rewrite <- (IH f (λ k z, φ (S k) z) Hf).
    f_equal. apply imap_ext. intros k z _. unfold compose.
    destruct (decide (k = f)) as [->|Hne].
    + by rewrite decide_True.
    + rewrite decide_False; [done|lia].
Qed.

Lemma qsum_omap_entry_at (i j : nat) (es : list (nat * nat * Qc)) :
  qsum (omap (Sp.entry_at i j) es) =
  qsum ((λ e : nat * nat * Qc,
           if decide (e.1.1 = i ∧ e.1.2 = j) then e.2 else 0%Qc) <$> es).
Proof.
  induction es as [|e es IH]; [done|].
  rewrite fmap_cons, qsum_cons, <- IH. cbn [omap list_omap].
  unfold Sp.entry_at at 1.
  destruct (decide (e.1.1 = i ∧ e.1.2 = j)); [done|].
  by rewrite Qcplus_0_l.
Qed.

Lemma mget_dia_matrix (v : list Qc) (n f f' : nat) :
  length v = n →
  Sp.mget (Sp.dia_matrix v n n) f f' =
  if decide (f = f') then default 0%Qc (v !! f) else 0%Qc.
Proof.
  intros Hlen. unfold Sp.mget, Sp.dia_matrix. simpl.
  rewrite Nat.min_id, take_ge by lia.
  rewrite qsum_omap_entry_at, fmap_imap. simpl.
  destruct (decide (f = f')) as [<-|Hne].
  - destruct (v !! f) as [x|] eqn:Hf; simpl.
    + rewrite <- (qsum_imap_indicator (λ _ y, y) v f x Hf).
      f_equal. apply imap_ext. intros k y _. simpl.
      destruct (decide (k = f)) as [->|Hk].
      * by rewrite decide_True.
      * rewrite decide_False; [done|]. by intros [? _].
    + apply qsum_imap_zero. intros k y Hk. simpl.
      rewrite decide_False; [done|]. intros [-> _]. congruence.
  - apply qsum_imap_zero. intros k y _. simpl.
    rewrite decide_False; [done|]. intros [-> ->]. done.
Qed.

(** A row of a matrix-vector product. *)
Lemma matvec_Ok (A : smatrix) (v r : list Qc) :
  Sp.matvec A v = Ok r →
  length v = ncols A ∧ length r = nrows A ∧
  ∀ i, i < nrows A →
    r !! i = Some (qsum ((λ e : nat * nat * Qc,
                            if decide (e.1.1 = i)
                            then (e.2 * default 0%Qc (v !! e.1.2))%Qc else 0%Qc)
                         <$> entries A)).
Proof.
  unfold Sp.matvec. intros Hm. inv_step Hm. injection Hm as <-.
  split; [done|]. split; [by rewrite length_fmap, length_seq|].
  intros i Hi. rewrite list_lookup_fmap.
  rewrite (proj2 (lookup_seq 0 (nrows A) i i)); [done|]. split; [done|lia].
Qed.

Lemma matvec_is_Ok (A : smatrix) (v : list Qc) :
  length v = ncols A → ∃ r, Sp.matvec A v = Ok r.
Proof. intros Hl. unfold Sp.matvec. rewrite decide_True by done. eauto. Qed.

Lemma matvec_dia_matrix (d v r : list Qc) (n f : nat) (x y : Qc) :
  length d = n →
  Sp.matvec (Sp.dia_matrix d n n) v = Ok r →
  d !! f = Some x → v !! f = Some y →
  r !! f = Some (x * y)%Qc.
Proof.
  intros Hlen (_ & _ & Hr)%matvec_Ok Hx Hy.
  assert (f < n) as Hlt by (apply lookup_lt_Some in Hx; lia).
  rewrite (Hr f Hlt). f_equal. unfold Sp.dia_matrix. simpl.
  rewrite Nat.min_id, take_ge by lia. rewrite fmap_imap.
  trans (qsum (imap (λ k z, if decide (k = f)
                            then (z * default 0%Qc (v !! k))%Qc else 0%Qc) d)).
  - f_equal.
  - rewrite (qsum_imap_indicator (λ k z, (z * default 0%Qc (v !! k))%Qc) d f x Hx).
    by rewrite Hy.
Qed.

(** ** Reconstruction of the boundary pressure *)

Lemma row_terms_zero (I J : list nat) (data : list Qc) (i : nat)
    (φ : nat * nat * Qc → Qc) :
  (∀ k d, I !! k = Some i → data !! k = Some d → d = 0%Qc) →
  qsum ((λ e : nat * nat * Qc,
           if decide (e.1.1 = i) then (e.2 * φ e)%Qc else 0%Qc)
        <$> zip (zip I J) data) = 0%Qc.
Proof.
  intros Hz. apply qsum_zero, Forall_forall.
  intros a ([[i' j'] d] & -> & Hin)%list_elem_of_fmap. simpl.
  destruct (decide (i' = i)) as [->|]; [|done].
  apply list_elem_of_lookup_1 in Hin as (k & Hk).
  rewrite !lookup_zip_with in Hk.
  destruct (I !! k) as [a|] eqn:HI; [|done].
  destruct (J !! k) as [b|] eqn:HJ; [|done].
  destruct (data !! k) as [x|] eqn:HD; [|done].
  simpl in Hk. injection Hk as -> -> ->.
  rewrite (Hz k d HI HD). apply Qcmult_0_l.
Qed.

(** C6. After [discretize] on a grid of dimension at least one:
    ['bound_pressure_cell'] has coefficient 1 at the (face, cell) incidences
    of the Neumann faces and 0 everywhere else; ['bound_pressure_face'] is
    diagonal, with coefficient 1 on a Dirichlet face and [-1 / h] on a Neumann
    face whose only half-transmissibility is [h], a number other than zero
    (for [h = 0] NumPy stores [-inf]); hence, for every vector of
    cell pressures and every vector of boundary values, the sum of the two
    operators applied to them gives back, on a Dirichlet face, the boundary
    value of that face. *)
Theorem boundary_pressure_reconstruction `{Sqrt} (g : Grid)
    (data data' : record) (faces : option (list nat)) (p : Parameters)
    (fi ci : list nat) (sgn th : list Qc) :
  Tpfa.discretize g data faces = Ok data' →
  dim g ≠ 0 →
  data !! "param" = Some (VParam p) →
  Tpfa.half_transmissibilities g data (get_tensor p) (get_aperture p)
    = Ok (fi, ci, sgn, th) →
  ∃ Bc Bf,
    data' !! "bound_pressure_cell" = Some (VMat Bc) ∧
    data' !! "bound_pressure_face" = Some (VMat Bf) ∧
    (∀ j f c (nu : bool),
       fi !! j = Some f → ci !! j = Some c →
       is_neu (get_bc p) !! f = Some nu →
       Sp.mget Bc f c = if nu then 1%Qc else 0%Qc) ∧
    (∀ f c, (∀ j, fi !! j = Some f → ci !! j = Some c → False) →
            Sp.mget Bc f c = 0%Qc) ∧
    (∀ f f', f ≠ f' → Sp.mget Bf f f' = 0%Qc) ∧
    (∀ f, is_dir (get_bc p) !! f = Some true →
          is_neu (get_bc p) !! f = Some false →
          Sp.mget Bf f f = 1%Qc) ∧
    (∀ f j h,
       is_neu (get_bc p) !! f = Some true →
       (∀ j', fi !! j' = Some f ↔ j' = j) → th !! j = Some h →
       h ≠ 0%Qc →
       Sp.mget Bf f f = (-1 / h)%Qc) ∧
    (∀ pr b,
       length pr = num_cells g → length b = num_faces g →
       ∃ u v,
         Sp.matvec Bc pr = Ok u ∧ Sp.matvec Bf b = Ok v ∧
         ∀ f bf,
           is_dir (get_bc p) !! f = Some true →
           is_neu (get_bc p) !! f = Some false →
           b !! f = Some bf →
           ∃ uf vf, u !! f = Some uf ∧ v !! f = Some vf ∧ (uf + vf)%Qc = bf).
Proof.
  intros Hd Hdim Hp Hh.
  destruct (discretize_inv g data data' faces p Hd Hdim Hp)
    as (fi' & ci' & sgn' & th' & F & B & Bc & Bf & fd & rows & bsgn & t_b & bd
        & vc & vf & Hh' & Hfind & Lth & (Hsize & Ldir & Lneu & _) & ->
        & _ & _ & (-> & Lvc & Hvc) & (-> & Lvf & Hvf)).
  rewrite Hh in Hh'. injection Hh' as <- <- <- <-.
  eexists _, _.
  split; [rewrite lookup_insert_ne by done; by rewrite lookup_insert_eq|].
  split; [by rewrite lookup_insert_eq|].
  split; [|split; [|split; [|split; [|split]]]].
  - intros j f c nu Hf Hc Hnu.
    apply (flux_entry _ _ _ _ _ _ _ j f c _ Hfind Hf Hc). by apply (Hvc j f nu).
  - intros f c Hnone. by apply mget_triplets_none.
  - intros f f' Hne. rewrite mget_dia_matrix by done. by rewrite decide_False.
  - intros f Hdi Hnu. rewrite mget_dia_matrix by done.
    rewrite decide_True by done. by rewrite (Hvf f true false Hdi Hnu).
  - intros f j h Hnu Hj Hth _. rewrite mget_dia_matrix by done.
    rewrite decide_True by done.
    assert (f < num_faces g) as Hlt by (apply lookup_lt_Some in Hnu; lia).
    destruct (lookup_lt_is_Some_2 (is_dir (get_bc p)) f) as [di Hdi]; [lia|].
    rewrite (Hvf f di true Hdi Hnu). simpl.
    by rewrite (t_full_single fi th f j h Hj Hth).
  - intros pr b Lpr Lb.
    destruct (matvec_is_Ok (SMat (num_faces g) (num_cells g) (zip (zip fi ci) vc))
                pr Lpr) as [u Hu].
    destruct (matvec_is_Ok (Sp.dia_matrix vf (num_faces g) (num_faces g)) b Lb)
      as [v Hv].
    exists u, v. split; [done|]. split; [done|].
    intros f bf Hdi Hnu Hbf.
    assert (f < num_faces g) as Hlt by (apply lookup_lt_Some in Hnu; lia).
    exists 0%Qc, bf. split; [|split].
    + apply matvec_Ok in Hu as (_ & _ & Hu). rewrite (Hu f Hlt). f_equal.
      simpl. apply row_terms_zero. intros k d Hk Hd'.
      rewrite (Hvc k f false Hk Hnu) in Hd'. by injection Hd' as <-.
    + rewrite (matvec_dia_matrix vf b v _ f 1%Qc bf Lvf Hv);
        [|by apply (Hvf f true false)|done].
      by rewrite Qcmult_1_l.
    + apply Qcplus_0_l.
Qed.

(** ** The statements on the three-cell line *)

(** Decide a closed statement by evaluation. *)
Ltac by_evaluation := apply (bool_decide_unpack _); vm_compute; exact I.

(** The positions of a value in a concrete list of six elements. *)
Ltac positions6 :=
  let j := fresh "j" in
  let side := (cbv; split;
               [intros ?; first [discriminate | lia]
               |intros ?; first [reflexivity | lia]]) in
  intros j; do 6 (destruct j as [|j]; [side|]); side.

Lemma harmonic_average_interior_face_witness :
  t_full Examples.line3_fi (replicate 6 2%Qc) 1 = (1 / (1 / 2 + 1 / 2))%Qc ∧
  ∃ F, Examples.dirichlet_discretized !! "flux" = Some (VMat F) ∧
       Sp.mget F 1 0 = (1 / (1 / 2 + 1 / 2) * 1)%Qc ∧
       Sp.mget F 1 1 = (1 / (1 / 2 + 1 / 2) * -1)%Qc.
Proof.
  apply (@harmonic_average_interior_face Examples.sqrt_exact Examples.line3 Examples.dirichlet_data
           Examples.dirichlet_discretized None Examples.dirichlet_param
           Examples.line3_fi Examples.line3_ci Examples.line3_sgn (replicate 6 2%Qc) 1 1 2 0 1).
  - by_evaluation.
  - by_evaluation.
  - reflexivity.
  - by_evaluation.
  - lia.
  - positions6.
  - reflexivity.
  - reflexivity.
  - by_evaluation.
  - by_evaluation.
  - by_evaluation.
  - reflexivity.
  - reflexivity.
  - reflexivity.
  - reflexivity.
  - reflexivity.
  - reflexivity.
Defined.

Lemma boundary_condition_policy_witness :
  ∃ F B,
    Examples.mixed_discretized !! "flux" = Some (VMat F) ∧
    Examples.mixed_discretized !! "bound_flux" = Some (VMat B) ∧
    Sp.mget B 0 0 = (- Examples.qz 4 * -1)%Qc ∧
    Sp.mget B 3 3 = (1 * 1)%Qc ∧
    Sp.mget F 3 2 = 0%Qc.
Proof.
  destruct (@boundary_condition_policy Examples.sqrt_exact Examples.line3 Examples.mixed_data
              Examples.mixed_discretized None Examples.mixed_param
              Examples.line3_fi Examples.line3_ci Examples.line3_sgn (replicate 6 (Examples.qz 4)))
    as (F & B & HF & HB & Hbnd & _ & _).
  - by_evaluation.
  - by_evaluation.
  - reflexivity.
  - by_evaluation.
  - by_evaluation.
  - intros b Hb. apply elem_of_cons in Hb as [->|Hb].
    + exists 0. positions6.
    + apply list_elem_of_singleton in Hb as ->. exists 5. positions6.
  - exists F, B. split; [exact HF|]. split; [exact HB|].
    destruct (Hbnd 0 0 (Examples.qz 4) (-1)%Qc) as [Hdir _];
      [by_evaluation|reflexivity..|].
    destruct (Hbnd 3 5 (Examples.qz 4) 1%Qc) as [_ Hneu];
      [by_evaluation|reflexivity..|].
    destruct Hneu as [Hneu Hrow]; [reflexivity|].
    split; [apply Hdir; reflexivity|]. split; [exact Hneu|apply Hrow].
Defined.

Lemma boundary_pressure_reconstruction_witness :
  ∃ Bc Bf,
    Examples.mixed_discretized !! "bound_pressure_cell" = Some (VMat Bc) ∧
    Examples.mixed_discretized !! "bound_pressure_face" = Some (VMat Bf) ∧
    Sp.mget Bc 3 2 = 1%Qc ∧
    Sp.mget Bf 0 0 = 1%Qc ∧
    Sp.mget Bf 3 3 = (-1 / Examples.qz 4)%Qc.
Proof.
  destruct (@boundary_pressure_reconstruction Examples.sqrt_exact Examples.line3 Examples.mixed_data
              Examples.mixed_discretized None Examples.mixed_param
              Examples.line3_fi Examples.line3_ci Examples.line3_sgn (replicate 6 (Examples.qz 4)))
    as (Bc & Bf & HBc & HBf & Hcell & _ & _ & Hdir & Hneu & _).
  - by_evaluation.
  - by_evaluation.
  - reflexivity.
  - by_evaluation.
  - exists Bc, Bf. split; [exact HBc|]. split; [exact HBf|].
    split; [|split].
    + apply (Hcell 5 3 2 true); reflexivity.
    + apply Hdir; reflexivity.
    + apply (Hneu 3 5 (Examples.qz 4));
        [reflexivity| |reflexivity|by_evaluation]. positions6.
Defined.

(** ** Sparse products, entry by entry *)

Lemma qsum_fmap_add {A} (φ ψ : A → Qc) (l : list A) :
  qsum ((λ x, (φ x + ψ x)%Qc) <$> l) = (qsum (φ <$> l) + qsum (ψ <$> l))%Qc.
Proof.
  induction l as [|x l IH]; [by rewrite Qcplus_0_l|].
  rewrite !fmap_cons, !qsum_cons, IH. ring.
Qed.

Lemma qsum_fmap_scale {A} (c : Qc) (φ : A → Qc) (l : list A) :
  qsum ((λ x, (c * φ x)%Qc) <$> l) = (c * qsum (φ <$> l))%Qc.
Proof.
  induction l as [|x l IH]; [simpl; ring|].
  rewrite !fmap_cons, !qsum_cons, IH. ring.
Qed.

Lemma sum_upto_add (n : nat) (φ ψ : nat → Qc) :
  sum_upto n (λ k, (φ k + ψ k)%Qc) = (sum_upto n φ + sum_upto n ψ)%Qc.
Proof. apply qsum_fmap_add. Qed.

Lemma sum_upto_zero (n : nat) (φ : nat → Qc) :
  (∀ k, k < n → φ k = 0%Qc) → sum_upto n φ = 0%Qc.
Proof.
  intros Hz. apply qsum_zero, Forall_forall.
  intros a (k & -> & Hk)%list_elem_of_fmap. apply Hz.
  apply elem_of_seq in Hk. lia.
Qed.

Lemma sum_upto_ext (n : nat) (φ ψ : nat → Qc) :
  (∀ k, k < n → φ k = ψ k) → sum_upto n φ = sum_upto n ψ.
Proof.
  intros He. unfold sum_upto. f_equal. apply list_fmap_ext.
  intros i k Hk. apply He. apply lookup_seq in Hk. lia.
Qed.

Lemma sum_upto_S (n : nat) (φ : nat → Qc) :
  sum_upto (S n) φ = (sum_upto n φ + φ n)%Qc.
Proof.
  unfold sum_upto. rewrite seq_S, fmap_app, qsum_app. simpl. ring.
Qed.

Lemma sum_upto_indicator (n k0 : nat) (φ : nat → Qc) :
  k0 < n →
  sum_upto n (λ k, if decide (k = k0) then φ k else 0%Qc) = φ k0.
Proof.
  induction n as [|n IH]; intros Hlt; [lia|]. rewrite sum_upto_S.
  destruct (decide (n = k0)) as [->|Hne].
  - rewrite sum_upto_zero; [ring|].
    intros k Hk. rewrite decide_False; [done|lia].
  - rewrite IH by lia. ring.
Qed.

Lemma mget_app (n m n' m' n'' m'' : nat) (es es' : list (nat * nat * Qc))
    (i j : nat) :
  Sp.mget (SMat n m (es ++ es')) i j =
  (Sp.mget (SMat n' m' es) i j + Sp.mget (SMat n'' m'' es') i j)%Qc.
Proof. unfold Sp.mget. simpl. by rewrite omap_app, qsum_app. Qed.

Lemma mget_cons (n m : nat) (e : nat * nat * Qc) (es : list (nat * nat * Qc))
    (i j : nat) :
  Sp.mget (SMat n m (e :: es)) i j =
  ((if decide (e.1.1 = i ∧ e.1.2 = j) then e.2 else 0) +
   Sp.mget (SMat n m es) i j)%Qc.
Proof.
  unfold Sp.mget. simpl. unfold Sp.entry_at at 1.
  destruct (decide _); simpl; [done|]. by rewrite Qcplus_0_l.
Qed.

Lemma mget_nil (n m i j : nat) : Sp.mget (SMat n m []) i j = 0%Qc.
Proof. done. Qed.

(** An entry outside the rows that a matrix stores is zero. *)
Lemma mget_row_out (M : smatrix) (n i j : nat) :
  Forall (λ e : nat * nat * Qc, e.1.1 < n) (entries M) → n ≤ i →
  Sp.mget M i j = 0%Qc.
Proof.
  intros Hin Hi. unfold Sp.mget. rewrite qsum_omap_entry_at.
  apply qsum_zero, Forall_forall.
  intros a (e & -> & He)%list_elem_of_fmap.
  rewrite Forall_forall in Hin. specialize (Hin e He). simpl.
  rewrite decide_False; [done|]. intros [? _]. lia.
Qed.

Lemma mget_col_out (M : smatrix) (n i j : nat) :
  Forall (λ e : nat * nat * Qc, e.1.2 < n) (entries M) → n ≤ j →
  Sp.mget M i j = 0%Qc.
Proof.
  intros Hin Hj. unfold Sp.mget. rewrite qsum_omap_entry_at.
  apply qsum_zero, Forall_forall.
  intros a (e & -> & He)%list_elem_of_fmap.
  rewrite Forall_forall in Hin. specialize (Hin e He). simpl.
  rewrite decide_False; [done|]. intros [_ ?]. lia.
Qed.

Lemma mget_neg (M : smatrix) (i j : nat) :
  Sp.mget (Sp.neg M) i j = (- Sp.mget M i j)%Qc.
Proof.
  unfold Sp.mget, Sp.neg. simpl. rewrite !qsum_omap_entry_at.
  induction (entries M) as [|e es IH]; [done|].
  rewrite !fmap_cons, !qsum_cons, IH. simpl.
  destruct (decide _); ring.
Qed.

Lemma mget_transpose (M : smatrix) (i j : nat) :
  Sp.mget (Sp.transpose M) i j = Sp.mget M j i.
Proof.
  unfold Sp.mget, Sp.transpose. simpl. rewrite !qsum_omap_entry_at.
  induction (entries M) as [|e es IH]; [done|].
  rewrite !fmap_cons, !qsum_cons, IH. simpl. f_equal.
  destruct (decide (e.1.2 = i ∧ e.1.1 = j)), (decide (e.1.1 = j ∧ e.1.2 = i));
    tauto || done.
Qed.

(** The contribution of one entry of the left factor to a product. *)
Lemma mget_mul_row (a : nat * nat * Qc) (B : list (nat * nat * Qc))
    (n m n' m' i j : nat) :
  Sp.mget (SMat n m
             (omap (λ b : nat * nat * Qc,
                if decide (a.1.2 = b.1.1)
                then Some (a.1.1, b.1.2, (a.2 * b.2)%Qc) else None) B)) i j =
  if decide (a.1.1 = i) then (a.2 * Sp.mget (SMat n' m' B) a.1.2 j)%Qc
  else 0%Qc.
Proof.
  induction B as [|b B IH].
  - rewrite !mget_nil. destruct (decide _); [ring|done].
  - cbn [omap list_omap]. rewrite (mget_cons n' m' b B).
    destruct (decide (a.1.2 = b.1.1)) as [Hab|Hab].
    + rewrite mget_cons, IH. simpl.
      destruct (decide (a.1.1 = i)) as [Hi|Hi].
      * destruct (decide (b.1.1 = a.1.2 ∧ b.1.2 = j)) as [[_ Hj]|Hn].
        -- rewrite decide_True by done. ring.
        -- rewrite decide_False by (intros [_ ?]; apply Hn; done). ring.
      * rewrite decide_False by (intros [? _]; done). ring.
    + rewrite IH. destruct (decide (a.1.1 = i)); [|done].
      rewrite decide_False by (intros [? _]; done). ring.
Qed.

(** An entry of a sparse product is the sum over the inner index. *)
Lemma mget_mul (A B C : smatrix) (i j : nat) :
  Sp.mul A B = Ok C →
  Forall (λ e : nat * nat * Qc, e.1.1 < nrows B) (entries B) →
  nrows C = nrows A ∧ ncols C = ncols B ∧
  Sp.mget C i j = sum_upto (ncols A) (λ k, (Sp.mget A i k * Sp.mget B k j)%Qc).
Proof.
  unfold Sp.mul. intros Hm HB. inv_step Hm. injection Hm as <-. simpl.
  split; [done|]. split; [done|].
  destruct A as [nA mA eA], B as [nB mB eB]. simpl in *. subst nB.
  induction eA as [|a eA IH].
  - rewrite mget_nil. symmetry. apply sum_upto_zero. intros k _.
    rewrite mget_nil. ring.
  - cbn [flat_map]. rewrite (mget_app _ _ nA mB nA mB), IH.
    rewrite (mget_mul_row a eB nA mB mA mB).
    rewrite (sum_upto_ext mA
               (λ k, (Sp.mget (SMat nA mA (a :: eA)) i k
                      * Sp.mget (SMat mA mB eB) k j)%Qc)
               (λ k, ((if decide (k = a.1.2)
                       then (if decide (a.1.1 = i) then a.2 else 0)
                            * Sp.mget (SMat mA mB eB) k j else 0)
                      + Sp.mget (SMat nA mA eA) i k
                        * Sp.mget (SMat mA mB eB) k j)%Qc)).
    2: { intros k _. cbv beta. rewrite (mget_cons nA mA a eA).
         destruct (decide (k = a.1.2)) as [->|Hk].
         - destruct (decide (a.1.1 = i)) as [Hi|Hi].
           + rewrite decide_True by done. ring.
           + rewrite decide_False by (intros [? _]; done). ring.
         - rewrite decide_False by (intros [_ ?]; done). ring. }
    rewrite sum_upto_add. f_equal.
    destruct (decide (a.1.2 < mA)) as [Hlt|Hge].
    + rewrite (sum_upto_indicator mA a.1.2
                 (λ k, ((if decide (a.1.1 = i) then a.2 else 0)
                        * Sp.mget (SMat mA mB eB) k j)%Qc)) by done.
      destruct (decide (a.1.1 = i)); ring.
    + rewrite (mget_row_out (SMat mA mB eB) mA) by (done || simpl; lia).
      rewrite sum_upto_zero; [destruct (decide _); ring|].
      intros k Hk. rewrite decide_False; [done|lia].
Qed.

(** A row of a matrix-vector product as a sum over the columns. *)
Lemma matvec_lookup (A : smatrix) (v r : list Qc) (i : nat) :
  Sp.matvec A v = Ok r →
  Forall (λ e : nat * nat * Qc, e.1.2 < ncols A) (entries A) →
  i < nrows A →
  r !! i = Some (sum_upto (ncols A)
                   (λ j, (Sp.mget A i j * default 0%Qc (v !! j))%Qc)).
Proof.
  intros (_ & _ & Hr)%matvec_Ok HA Hi. rewrite (Hr i Hi). f_equal. clear Hr.
  destruct A as [nA mA eA]. simpl in *.
  induction eA as [|a eA IH].
  - symmetry. apply sum_upto_zero. intros k _. rewrite mget_nil. ring.
  - rewrite fmap_cons, qsum_cons, IH by (by eapply Forall_inv_tail).
    apply Forall_inv in HA.
    rewrite (sum_upto_ext mA
               (λ j, (Sp.mget (SMat nA mA (a :: eA)) i j
                      * default 0%Qc (v !! j))%Qc)
               (λ j, ((if decide (j = a.1.2)
                       then (if decide (a.1.1 = i) then a.2 else 0)
                            * default 0%Qc (v !! j) else 0)
                      + Sp.mget (SMat nA mA eA) i j
                        * default 0%Qc (v !! j))%Qc)).
    2: { intros k _. cbv beta. rewrite (mget_cons nA mA a eA).
         destruct (decide (k = a.1.2)) as [->|Hk].
         - destruct (decide (a.1.1 = i)) as [Hi'|Hi'].
           + rewrite decide_True by done. ring.
           + rewrite decide_False by (intros [? _]; done). ring.
         - rewrite decide_False by (intros [_ ?]; done). ring. }
    rewrite sum_upto_add. f_equal.
    rewrite (sum_upto_indicator mA a.1.2
               (λ j, ((if decide (a.1.1 = i) then a.2 else 0)
                      * default 0%Qc (v !! j))%Qc)) by done.
    destruct (decide (a.1.1 = i)); ring.
Qed.

(** ** The assembled system *)

Lemma discretize_param `{Sqrt} (g : Grid) (data data' : record)
    (faces : option (list nat)) :
  Tpfa.discretize g data faces = Ok data' →
  ∃ p, data !! "param" = Some (VParam p).
Proof.
  unfold Tpfa.discretize, Py.getitem. intros Hd.
  destruct (data !! "param") as [[| | | |p| |]|]; try done. eauto.
Qed.

Lemma Forall_zip_rows (I J : list nat) (data : list Qc) (P : nat → Prop) :
  Forall P I →
  Forall (λ e : nat * nat * Qc, P e.1.1) (zip (zip I J) data).
Proof.
  intros HI. apply Forall_forall. intros [[i j] d] Hin.
  apply list_elem_of_lookup_1 in Hin as (k & Hk).
  rewrite !lookup_zip_with in Hk.
  destruct (I !! k) as [a|] eqn:Ha; [|done].
  destruct (J !! k) as [b|]; [|done]. destruct (data !! k); [|done].
  simpl in Hk. injection Hk as -> -> ->. simpl.
  rewrite Forall_forall in HI. apply HI. by eapply list_elem_of_lookup_2.
Qed.

Lemma Forall_zip_cols (I J : list nat) (data : list Qc) (P : nat → Prop) :
  Forall P J →
  Forall (λ e : nat * nat * Qc, P e.1.2) (zip (zip I J) data).
Proof.
  intros HJ. apply Forall_forall. intros [[i j] d] Hin.
  apply list_elem_of_lookup_1 in Hin as (k & Hk).
  rewrite !lookup_zip_with in Hk.
  destruct (I !! k) as [a|]; [|done].
  destruct (J !! k) as [b|] eqn:Hb; [|done]. destruct (data !! k); [|done].
  simpl in Hk. injection Hk as -> -> ->. simpl.
  rewrite Forall_forall in HJ. apply HJ. by eapply list_elem_of_lookup_2.
Qed.

Lemma mul_cols (A B C : smatrix) (m : nat) :
  Sp.mul A B = Ok C →
  Forall (λ e : nat * nat * Qc, e.1.2 < m) (entries B) →
  Forall (λ e : nat * nat * Qc, e.1.2 < m) (entries C).
Proof.
  unfold Sp.mul. intros Hm HB. inv_step Hm. injection Hm as <-. simpl.
  apply Forall_forall. intros x Hin. apply list_elem_of_In, in_flat_map in Hin
    as (a & _ & Hin). apply list_elem_of_In, list_elem_of_omap in Hin
    as (b & Hb & He).
  destruct (decide _); [|done]. injection He as <-. simpl.
  rewrite Forall_forall in HB. by apply HB.
Qed.

(** The operators that [discretize] stores, with their shapes, on a grid
    whose incidence matrix has one row per face and one column per cell and
    whose cells all have a face. *)
Lemma discretize_operators `{Sqrt} (g : Grid) (data data' : record)
    (faces : option (list nat)) :
  Tpfa.discretize g data faces = Ok data' →
  dim g ≠ 0 →
  nrows (cell_faces g) = num_faces g →
  ncols (cell_faces g) = num_cells g →
  (∀ c, c < num_cells g →
        ∃ f, f < num_faces g ∧ Sp.mget (cell_faces g) f c ≠ 0%Qc) →
  ∃ F B p,
    data' !! "flux" = Some (VMat F) ∧
    data' !! "bound_flux" = Some (VMat B) ∧
    data' !! "param" = Some (VParam p) ∧
    nrows F = num_faces g ∧ ncols F = num_cells g ∧
    Forall (λ e : nat * nat * Qc, e.1.1 < num_faces g) (entries F) ∧
    nrows B = num_faces g ∧ ncols B = num_faces g ∧
    Forall (λ e : nat * nat * Qc, e.1.1 < num_faces g) (entries B) ∧
    Forall (λ e : nat * nat * Qc, e.1.2 < num_faces g) (entries B).
Proof.
  intros Hd Hdim Hr Hc Hcells.
  destruct (discretize_param _ _ _ _ Hd) as [p Hp].
  destruct (discretize_inv g data data' faces p Hd Hdim Hp)
    as (fi & ci & sgn & th & F & B & Bc & Bf & fd & rows & bsgn & t_b & bd
        & vc & vf & _ & Hfind & _ & (Hsize & _ & _ & Hne & Hbndr) & ->
        & (-> & Lfd & _) & (_ & _ & _ & -> & _) & _).
  eexists _, _, p.
  split; [do 3 rewrite lookup_insert_ne by done; by rewrite lookup_insert_eq|].
  split; [do 2 rewrite lookup_insert_ne by done; by rewrite lookup_insert_eq|].
  split; [by rewrite !lookup_insert_ne|].
  simpl. split; [done|].
  destruct (find_lengths _ _ _ _ Hfind) as [Lci Lsgn].
  assert (∀ k, fi !! k = None ∨ ∃ f c s, fi !! k = Some f ∧ ci !! k = Some c ∧
                                          sgn !! k = Some s) as Hk.
  { intros k. destruct (fi !! k) as [f|] eqn:Hf; [right|by left].
    destruct (find_lookup _ _ _ _ _ _ Hfind Hf) as (c & s & ? & ?). eauto 6. }
  split; [|split; [|split; [done|split; [done|split]]]].
  - (* the columns of the flux operator are the cells *)
    assert (ci ≠ []) as Hcne by (intros ->; destruct fi; done).
    rewrite <- (bincount_size_cons ci Hcne).
    apply bincount_size_range.
    + intros c (k & Hck)%list_elem_of_lookup_1.
      destruct (Hk k) as [Hn|(f & c' & s & Hf & Hc' & Hs)].
      * apply lookup_ge_None in Hn. apply lookup_lt_Some in Hck. lia.
      * assert (c' = c) as -> by congruence.
        destruct (find_entry _ _ _ _ _ _ _ _ Hfind Hf Hc' Hs) as (_ & ? & _).
        lia.
    + intros c Hlt. destruct (Hcells c Hlt) as (f & Hf & Hne').
      destruct (find_complete _ _ _ _ f c Hfind) as (k & _ & Hck & _);
        [lia..|done|]. by eapply list_elem_of_lookup_2.
  - apply (Forall_zip_rows fi ci fd (λ i, i < num_faces g)).
    apply Forall_forall. intros f (k & Hf)%list_elem_of_lookup_1.
    destruct (Hk k) as [Hn|(f' & c & s & Hf' & Hc' & Hs)]; [congruence|].
    assert (f' = f) as -> by congruence.
    destruct (find_entry _ _ _ _ _ _ _ _ Hfind Hf Hc' Hs) as (? & _). lia.
  - by apply (Forall_zip_rows _ _ _ (λ i, i < num_faces g)).
  - by apply (Forall_zip_cols _ _ _ (λ i, i < num_faces g)).
Qed.

(** C1 (amended). On a grid of dimension at least one whose record is
    discretised (by the call itself, or before it when [discretize=False]),
    [matrix_rhs] returns the product of the divergence operator and the stored
    flux operator, a square matrix of size [num_cells], and the right-hand
    side minus the divergence operator (not its transpose) times the stored
    boundary-flux operator times the boundary values. *)
Theorem matrix_rhs_assembly `{Sqrt} (g : Grid) (data data1 : record)
    (faces : option (list nat)) (d : bool) :
  dim g ≠ 0 →
  nrows (cell_faces g) = num_faces g →
  ncols (cell_faces g) = num_cells g →
  (∀ c, c < num_cells g →
        ∃ f, f < num_faces g ∧ Sp.mget (cell_faces g) f c ≠ 0%Qc) →
  (if d then Tpfa.discretize g data None else Ok data) = Ok data1 →
  (d = false → discretized g data) →
  (∀ p, data1 !! "param" = Some (VParam p) →
        length (get_bc_val p) = num_faces g) →
  let div := fvutils.scalar_divergence g in
  ∃ M r F B p,
    Tpfa.matrix_rhs g data faces d = Ok (VMat M, VArr r, data1) ∧
    data1 !! "flux" = Some (VMat F) ∧
    data1 !! "bound_flux" = Some (VMat B) ∧
    data1 !! "param" = Some (VParam p) ∧
    Sp.mul div F = Ok M ∧
    nrows M = num_cells g ∧ ncols M = num_cells g ∧
    (∀ i j, Sp.mget M i j =
            sum_upto (num_faces g)
              (λ f, (Sp.mget div i f * Sp.mget F f j)%Qc)) ∧
    length r = num_cells g ∧
    (∀ i, i < num_cells g →
          r !! i = Some
            (sum_upto (num_faces g) (λ f,
               (sum_upto (num_faces g)
                  (λ f', (- Sp.mget div i f' * Sp.mget B f' f)%Qc)
                * default 0%Qc (get_bc_val p !! f))%Qc))).
Proof.
  intros Hdim Hr Hc Hcells Hdisc Hprior Hbc div.
  assert (∃ data0 faces0, Tpfa.discretize g data0 faces0 = Ok data1)
    as (data0 & faces0 & Hd).
  { destruct d; [by eexists _, _|].
    injection Hdisc as <-. by apply Hprior. }
  destruct (discretize_operators g data0 data1 faces0 Hd Hdim Hr Hc Hcells)
    as (F & B & p & HF & HB & Hp & HFr & HFc & HFin & HBr & HBc & HBin & HBcol).
  specialize (Hbc p Hp).
  assert (ncols div = num_faces g ∧ nrows div = num_cells g) as [Hdc Hdr].
  { unfold div, fvutils.scalar_divergence, Sp.transpose. simpl. done. }
  destruct (mul_is_Ok div F) as [M HM]; [congruence|].
  destruct (mul_is_Ok (Sp.neg div) B) as [X HX]; [simpl; congruence|].
  destruct (mget_mul div F M 0 0 HM) as (HMr & HMc & _); [by rewrite HFr|].
  destruct (mget_mul (Sp.neg div) B X 0 0 HX) as (HXr & HXc & _);
    [by rewrite HBr|].
  destruct (matvec_is_Ok X (get_bc_val p)) as [r Hrv]; [congruence|].
  exists M, r, F, B, p.
  split.
  { unfold Tpfa.matrix_rhs. fold div. rewrite Hdisc. cbn [rbind].
    rewrite (getitem_Some _ _ _ HF). cbn [rbind].
    unfold Py.mul at 1. rewrite HM. cbn [rbind fmap result_fmap].
    rewrite (getitem_Some _ _ _ HB), (getitem_Some _ _ _ Hp).
    cbn [rbind Py.as_param]. unfold Tpfa.rhs.
    change (Sp.transpose (cell_faces g)) with div.
    unfold Py.mul at 1. rewrite HX. cbn [rbind fmap result_fmap].
    unfold Py.mul. rewrite Hrv. done. }
  do 4 (split; [done|]).
  split; [simpl in *; congruence|]. split; [congruence|].
  split.
  { intros i j. destruct (mget_mul div F M i j HM) as (_ & _ & ->);
      [by rewrite HFr|]. by rewrite Hdc. }
  pose proof (matvec_Ok _ _ _ Hrv) as (_ & Lr & _).
  split; [simpl in *; congruence|].
  intros i Hi.
  rewrite (matvec_lookup X (get_bc_val p) r i Hrv).
  - f_equal. rewrite HXc, HBc. apply sum_upto_ext. intros f _.
    destruct (mget_mul (Sp.neg div) B X i f HX) as (_ & _ & ->);
      [by rewrite HBr|].
    f_equal. change (ncols (Sp.neg div)) with (ncols div).
    rewrite Hdc. apply sum_upto_ext. intros f' _.
    by rewrite mget_neg.
  - rewrite HXc, HBc. by eapply mul_cols.
  - simpl in *. congruence.
Qed.

Lemma matrix_rhs_assembly_witness :
  ∃ M r,
    @Tpfa.matrix_rhs Examples.sqrt_exact Examples.line3 Examples.dirichlet_data None true
      = Ok (VMat M, VArr r, Examples.dirichlet_discretized) ∧
    nrows M = 3 ∧ ncols M = 3 ∧ length r = 3.
Proof.
  destruct (@matrix_rhs_assembly Examples.sqrt_exact Examples.line3 Examples.dirichlet_data
              Examples.dirichlet_discretized None true)
    as (M & r & F & B & p & Hret & _ & _ & _ & _ & Hrows & Hcols & _ & Hlen & _).
  - by_evaluation.
  - reflexivity.
  - reflexivity.
  - intros c Hc. destruct c as [|[|[|c]]].
    + exists 0. split; [vm_compute; lia|by_evaluation].
    + exists 1. split; [vm_compute; lia|by_evaluation].
    + exists 2. split; [vm_compute; lia|by_evaluation].
    + vm_compute in Hc. lia.
  - by_evaluation.
  - discriminate.
  - intros p Hp. vm_compute in Hp. injection Hp as <-. reflexivity.
  - exists M, r. split; [exact Hret|]. split; [exact Hrows|].
    split; [exact Hcols|exact Hlen].
Defined.

(** C1, the claim as stated, fails on the three-cell line: the right-hand
    side that [matrix_rhs] returns is [2, 0, 0], while minus the transposed
    divergence (4 × 3) cannot be multiplied by the boundary-flux operator
    (4 × 4) at all. *)
Lemma rhs_as_specified_fails :
  (λ x : value * value * record, x.1.2)
    <$> @Tpfa.matrix_rhs Examples.sqrt_exact Examples.line3
          Examples.dirichlet_data None true
    = Ok (VArr [2; 0; 0]%Qc) ∧
  rbind (Py.getitem Examples.dirichlet_discretized "bound_flux")
    (λ B, rhs_as_specified Examples.line3 B
            (get_bc_val Examples.dirichlet_param))
    = Raise ValueError ∧
  rbind (Py.getitem Examples.dirichlet_discretized "bound_flux")
    (λ B, rhs_as_specified Examples.line3 B
            (get_bc_val Examples.dirichlet_param))
    ≠ (λ x : value * value * record, x.1.2)
        <$> @Tpfa.matrix_rhs Examples.sqrt_exact Examples.line3
              Examples.dirichlet_data None true.
Proof. split; [|split]; by_evaluation. Qed.

(** ** The mortar self-term *)

(** The array [inv_k = 1. / (2. * kn)]: [kn] is a number other than zero,
    or an array, and [inv_k] holds [1 / (2 k)] for each of its entries. *)
Lemma inverse_k_Ok (kn two_kn inv_k : value) (ik : list Qc) :
  Py.mul (VNum 2%Qc) kn = Ok two_kn →
  Py.div (VNum 1%Qc) two_kn = Ok inv_k →
  Py.as_array inv_k = Ok ik →
  ∃ ks, Py.as_array kn = Ok ks ∧
        ik = (λ k, 1 / (2 * k))%Qc <$> ks ∧
        ∀ k, Py.as_scalar kn = Some k → k ≠ 0%Qc.
Proof.
  unfold Py.mul, Py.div, Py.as_array.
  destruct kn as [B|k|b|ks|p|mg|cc]; simpl; try done.
  - intros [= <-]. simpl. done.
  - intros [= <-]. simpl. destruct (decide _) as [Hz|Hz]; [done|].
    intros [= <-]. simpl. intros [= <-]. exists [k].
    split; [done|]. split; [done|]. intros k' [= <-] ->. apply Hz. ring.
  - intros [= <-]. simpl. destruct (decide _) as [Hz|Hz]; [done|].
    intros [= <-]. simpl. intros [= <-]. eexists.
    split; [done|]. split; [done|]. intros k' [= <-] Hk. apply Hz.
    rewrite Hk. ring.
  - intros [= <-]. simpl. intros [= <-]. intros [= <-]. exists ks.
    split; [done|]. split; [by rewrite <- list_fmap_compose|done].
Qed.

Lemma bcast_at_lookup (l : list Qc) (m : nat) (x : Qc) :
  l !! m = Some x → bcast_at l m = Some x.
Proof.
  destruct l as [|y [|z l]]; [done| |done].
  destruct m as [|m]; [done|]. by destruct m.
Qed.

Lemma bcast_at_fmap (φ : Qc → Qc) (l : list Qc) (m : nat) :
  bcast_at (φ <$> l) m = φ <$> bcast_at l m.
Proof.
  destruct l as [|y [|z l]]; simpl; try done.
  destruct m as [|[|m]]; simpl; [done..|]. by rewrite list_lookup_fmap.
Qed.

(** Element-wise operations pair each position of the result with the
    entries that broadcasting selects. *)
Lemma bcast_lookup (φ : Qc → Qc → Qc) (a b r : list Qc) (m : nat) (z : Qc) :
  Np.bcast φ a b = Ok r → r !! m = Some z →
  ∃ x y, bcast_at a m = Some x ∧ bcast_at b m = Some y ∧ z = φ x y.
Proof.
  unfold Np.bcast. destruct (decide _) as [Hl|Hl].
  - intros [= <-] Hz. apply lookup_zip_with_Some in Hz as (x & y & -> & Hx & Hy).
    exists x, y. split; [by apply bcast_at_lookup|].
    split; [by apply bcast_at_lookup|done].
  - destruct a as [|x [|x' a]].
    + destruct b as [|y [|y' b]]; try done.
      intros [= <-] Hz. done.
    + intros [= <-] Hz. rewrite list_lookup_fmap in Hz.
      destruct (b !! m) as [y|] eqn:Hy; [|done]. injection Hz as <-.
      exists x, y. split; [done|]. split; [by apply bcast_at_lookup|done].
    + destruct b as [|y [|y' b]]; try done.
      intros [= <-] Hz.
      change (((λ u, φ u y) <$> (x :: x' :: a)) !! m = Some z) in Hz.
      rewrite list_lookup_fmap in Hz.
      destruct ((x :: x' :: a) !! m) as [u|] eqn:Hu; [|done].
      injection Hz as <-. exists u, y.
      split; [by apply bcast_at_lookup|done].
Qed.

Lemma diags_dia_matrix (v : list Qc) :
  Sp.diags v = Sp.dia_matrix v (length v) (length v).
Proof. unfold Sp.diags, Sp.dia_matrix. by rewrite Nat.min_id, take_ge. Qed.

Lemma mget_diags (v : list Qc) (i j : nat) :
  Sp.mget (Sp.diags v) i j =
  if decide (i = j) then default 0%Qc (v !! i) else 0%Qc.
Proof. rewrite diags_dia_matrix. by apply mget_dia_matrix. Qed.

Lemma diags_rows (v : list Qc) :
  Forall (λ e : nat * nat * Qc, e.1.1 < nrows (Sp.diags v))
    (entries (Sp.diags v)).
Proof.
  unfold Sp.diags. simpl. apply Forall_forall.
  intros e (i & x & -> & Hi)%elem_of_lookup_imap. simpl.
  by apply lookup_lt_Some in Hi.
Qed.

(** The product of two diagonal matrices. *)
Lemma mget_mul_diags (u v : list Qc) (C : smatrix) (i j : nat) :
  Sp.mul (Sp.diags u) (Sp.diags v) = Ok C →
  length u = length v ∧ nrows C = length u ∧ ncols C = length u ∧
  Sp.mget C i j =
  if decide (i = j) then (default 0 (u !! i) * default 0 (v !! i))%Qc
  else 0%Qc.
Proof.
  intros Hm.
  assert (length u = length v) as Hl.
  { unfold Sp.mul in Hm. inv_step Hm. done. }
  destruct (mget_mul _ _ _ i j Hm (diags_rows v)) as (Hr & Hc & ->).
  split; [done|]. split; [done|]. split; [simpl in *; congruence|].
  change (ncols (Sp.diags u)) with (length u).
  rewrite (sum_upto_ext _ _
             (λ k, if decide (k = i)
                   then (default 0 (u !! i)
                         * (if decide (i = j) then default 0 (v !! i) else 0))%Qc
                   else 0%Qc)).
  2: { intros k _. rewrite !mget_diags.
       destruct (decide (k = i)) as [->|Hk].
       - by rewrite decide_True.
       - rewrite decide_False by done. ring. }
  destruct (decide (i < length u)) as [Hlt|Hge].
  - rewrite (sum_upto_indicator (length u) i
               (λ _, (default 0 (u !! i)
                      * (if decide (i = j) then default 0 (v !! i) else 0))%Qc))
      by done.
    destruct (decide (i = j)); [done|ring].
  - rewrite sum_upto_zero.
    + rewrite lookup_ge_None_2 by lia. simpl. destruct (decide _); ring.
    + intros k Hk. rewrite decide_False; [done|lia].
Qed.

Lemma getitem_Ok (d : record) (k : string) (v : value) :
  Py.getitem d k = Ok v → d !! k = Some v.
Proof. unfold Py.getitem. by rewrite from_option_or_Ok. Qed.

(** [mapM] in the error monad, element by element. *)
Lemma mapM_result_lookup {A B} (φ : A → result B) (l : list A) (k : list B)
    (i : nat) (x : A) :
  mapM φ l = Ok k → l !! i = Some x → ∃ y, k !! i = Some y ∧ φ x = Ok y.
Proof.
  revert k i. induction l as [|a l IH]; intros k i Hm Hi; [done|].
  simpl in Hm. unfold mbind, result_bind in Hm.
  destruct (φ a) as [b|] eqn:Hb; [|done].
  destruct (mapM φ l) as [k'|] eqn:Hk'; [|done].
  injection Hm as <-. destruct i as [|i]; simpl in *.
  - injection Hi as <-. eauto.
  - by eapply IH.
Qed.

Lemma add_blocks_lookup (x y out : list (list value)) (i j : nat)
    (a b : value) :
  Py.add_blocks x y = Ok out →
  Py.get_block x i j = Ok a → Py.get_block y i j = Ok b →
  ∃ c, Py.get_block out i j = Ok c ∧ Py.add a b = Ok c.
Proof.
  unfold Py.add_blocks, Py.get_block. intros Ha. inv_step Ha.
  rewrite !from_option_or_Ok.
  destruct (x !! i) as [rx|] eqn:Hx; [|done].
  destruct (y !! i) as [ry|] eqn:Hy; [|done]. simpl. intros Hxa Hyb.
  destruct (mapM_result_lookup _ _ _ i (rx, ry) Ha) as (ro & Hro & Hrow).
  { by rewrite lookup_zip_with, Hx, Hy. }
  simpl in Hrow.
  destruct (mapM_result_lookup _ _ _ j (a, b) Hrow) as (c & Hc & Hadd).
  { by rewrite lookup_zip_with, Hxa, Hyb. }
  exists c. rewrite Hro. simpl. by rewrite Hc.
Qed.

(** C4 (amended). In [TpfaCoupling.matrix_rhs] the (mortar, mortar) block of
    the coupling terms, also stored under ['mortar_weight'], is the projected
    boundary-pressure operator [hat_P * bound_pressure_face_h * hat_P.T] minus
    the diagonal self-term whose entry for a mortar cell is [inverse_k]
    divided by the volume of the cell; [inverse_k] is [1 / (2 kn)] divided
    element by element by the apertures projected to the mortar grid with
    [hat_P], the aperture taken for each face of the higher-dimensional grid
    being the one of the first cell of that face.  A scalar [kn] is not zero
    (the call raises otherwise); the entry of the self-term is stated for a
    mortar cell whose normal permeability, projected aperture and volume are
    not zero, where no division is a division by zero.  The block that is
    returned is the block of the matrix passed in plus this one. *)
Theorem mortar_self_term (matrix out : list (list value)) (g_h g_l : Grid)
    (data_h data_l data_edge data_edge' : record) (mg : MortarGrid) :
  TpfaCoupling.matrix_rhs matrix g_h g_l data_h data_l data_edge
    = Ok (out, data_edge') →
  data_edge !! "mortar_grid" = Some (VMortar mg) →
  let hat_P := high_to_mortar_avg mg in
  let faces_h := (Sp.find (cell_faces g_h)).1.1 in
  let cells_of_find := (Sp.find (cell_faces g_h)).1.2 in
  ∃ bpf kn ks X param_h aperture_h cells_h a_cells a_mortar C22,
    data_h !! "bound_pressure_face" = Some bpf ∧
    rbind (Py.mul (VMat hat_P) bpf)
      (λ x, Py.mul x (VMat (Sp.transpose hat_P))) = Ok (VMat X) ∧
    data_edge !! "kn" = Some kn ∧
    Py.as_array kn = Ok ks ∧
    (∀ k, Py.as_scalar kn = Some k → k ≠ 0%Qc) ∧
    data_h !! "param" = Some (VParam param_h) ∧
    get_aperture param_h = Some aperture_h ∧
    Np.take cells_of_find (Np.unique_index faces_h) = Ok cells_h ∧
    Np.take aperture_h cells_h = Ok a_cells ∧
    Sp.matvec hat_P a_cells = Ok a_mortar ∧
    length a_mortar = nrows hat_P ∧
    length (cell_volumes mg) = mg_num_cells mg ∧
    data_edge' !! "mortar_weight" = Some (VMat C22) ∧
    nrows C22 = mg_num_cells mg ∧ ncols C22 = mg_num_cells mg ∧
    (∀ m m', m ≠ m' → Sp.mget C22 m m' = Sp.mget X m m') ∧
    (∀ m k a v,
       m < mg_num_cells mg →
       bcast_at ks m = Some k → bcast_at a_mortar m = Some a →
       cell_volumes mg !! m = Some v →
       k ≠ 0%Qc → a ≠ 0%Qc → v ≠ 0%Qc →
       Sp.mget C22 m m = (Sp.mget X m m - 1 / (2 * k) / a / v)%Qc) ∧
    (∀ M22, Py.get_block matrix 2 2 = Ok M22 →
            ∃ W, Py.get_block out 2 2 = Ok W ∧ Py.add M22 (VMat C22) = Ok W).
Proof.
  intros Hc Hmg hat_P. unfold TpfaCoupling.matrix_rhs in Hc.
  rewrite (getitem_Some _ _ _ Hmg) in Hc. cbn [rbind Py.as_mortar] in Hc.
  step Hc as bpc Ebpc. step Hc as bpf Ebpf.
  destruct (Sp.find (cell_faces g_h)) as [[faces_h cells_h0] sg] eqn:Hfind.
  cbn [fst snd]. cbv zeta.
  step Hc as cells_h Ecells. step Hc as bfl Ebfl.
  cbn [TpfaCoupling.create_block_matrix] in Hc.
  step Hc as kn Ekn. step Hc as two_kn Etwo. step Hc as inv_k Einv.
  step Hc as param_h Eparam. step Hc as aperture_h Eap.
  step Hc as a_cells Eac. step Hc as a_mortar Eam.
  step Hc as ik Eik. step Hc as eta Eeta.
  step Hc as hpd Ehpd. step Hc as mtb Emtb. step Hc as cc02 Ecc02.
  step Hc as hptm Ehptm. step Hc as x1 Ex1. step Hc as x2 Ex2.
  unfold Py.set_block, Py.get_block in Hc. simpl in Hc.
  step Hc as cc22 Ecc22. step Hc as eta_m Eem. step Hc as cc23 Ecc23.
  step Hc as out' Eout. injection Hc as <- <-.
  fold hat_P in Eam, Ex1, Ex2.
  (* the shapes forced by the two sums *)
  destruct x2 as [X| | | | | |]; try done.
  unfold Py.add in Ecc22. apply fmap_result_Ok in Ecc22 as (S1 & ES1 & ->).
  unfold Sp.add in ES1. inv_step ES1. injection ES1 as <-.
  match goal with Ha : _ ∧ _ |- _ => destruct Ha as [HXr HXc] end.
  simpl in HXr, HXc.
  unfold Py.sub in Ecc23. apply fmap_result_Ok in Ecc23 as (S2 & ES2 & ->).
  unfold Sp.sub, Sp.add in ES2. inv_step ES2. injection ES2 as <-.
  match goal with Ha : _ ∧ _ |- _ => destruct Ha as [HEr HEc] end.
  simpl in HEr, HEc.
  assert (∀ m m', Sp.mget eta_m m m' =
            if decide (m = m')
            then (default 0 (eta !! m)
                  * default 0 ((recip <$> cell_volumes mg) !! m))%Qc
            else 0%Qc) as Hem.
  { intros m m'. by destruct (mget_mul_diags _ _ _ m m' Eem) as (_ & _ & _ & ->). }
  destruct (mget_mul_diags _ _ _ 0 0 Eem) as (Lev & Lr & Lc & _).
  rewrite length_fmap in Lev.
  change (nrows (Sp.neg eta_m)) with (nrows eta_m) in HEr.
  apply getitem_Ok in Ebpf, Ekn.
  pose proof (matvec_Ok _ _ _ Eam) as (_ & Lam & _).
  apply from_option_or_Ok in Eap.
  destruct (inverse_k_Ok _ _ _ _ Etwo Einv Eik) as (ks & Hks & -> & Hnz).
  assert (data_h !! "param" = Some (VParam param_h)) as Hparam.
  { apply rbind_Ok in Eparam as (v & Ev & Hv). apply getitem_Ok in Ev.
    destruct v; try done. simpl in Hv. congruence. }
  exists bpf, kn, ks, X, param_h, aperture_h, cells_h, a_cells, a_mortar.
  eexists.
  split; [done|]. split; [by rewrite Ex1|]. split; [done|].
  split; [done|]. split; [done|]. split; [done|]. split; [done|].
  split; [done|]. split; [done|]. split; [done|]. split; [done|].
  split; [congruence|].
  split; [by rewrite lookup_insert_eq|].
  split; [done|]. split; [done|]. split; [|split].
  - intros m m' Hne.
    rewrite (mget_app _ _ (nrows X) (ncols X) (nrows eta_m) (ncols eta_m)).
    change (SMat (nrows eta_m) (ncols eta_m) _) with (Sp.neg eta_m).
    rewrite mget_neg, Hem.
    replace (SMat (nrows X) (ncols X) (entries X)) with X by by destruct X.
    rewrite decide_False by done. ring.
  - intros m k a v Hm Hk Ha Hv Hk0 Ha0 Hv0.
    rewrite (mget_app _ _ (nrows X) (ncols X) (nrows eta_m) (ncols eta_m)).
    change (SMat (nrows eta_m) (ncols eta_m) _) with (Sp.neg eta_m).
    rewrite mget_neg, Hem.
    replace (SMat (nrows X) (ncols X) (entries X)) with X by by destruct X.
    rewrite decide_True by done.
    destruct (lookup_lt_is_Some_2 eta m) as [e He]; [congruence|].
    destruct (bcast_lookup _ _ _ _ m e Eeta He) as (x & y & Hx & Hy & ->).
    rewrite bcast_at_fmap, Hk in Hx. injection Hx as <-.
    rewrite Ha in Hy. injection Hy as <-.
    rewrite He, list_lookup_fmap, Hv. simpl. unfold recip, Qcminus, Qcdiv.
    ring.
  - intros M22 HM22.
    apply (add_blocks_lookup _ _ _ 2 2 _ _ Eout HM22). done.
Qed.

(** The mortar self-term on the coupling of the three-cell line with a
    point: normal permeability 3, aperture 2 and volume 5 give the entry
    [-1/4 - 1/(2 * 3)/2/5]. *)
Lemma mortar_self_term_witness :
  ∃ X C22,
    Examples.coupling_result.2 !! "mortar_weight" = Some (VMat C22) ∧
    nrows C22 = 1 ∧ ncols C22 = 1 ∧
    Sp.mget C22 0 0
      = (Sp.mget X 0 0 - 1 / (2 * Examples.qz 3) / 2 / Examples.qz 5)%Qc.
Proof.
  destruct (mortar_self_term Examples.empty_blocks Examples.coupling_result.1
              Examples.line3 Examples.point Examples.mixed_discretized
              Examples.point_data Examples.edge_data
              Examples.coupling_result.2 Examples.mortar1)
    as (bpf & kn & ks & X & param_h & aperture_h & cells_h & a_cells
        & a_mortar & C22 & _ & _ & Hkn & Hks & _ & Hp & Hap & Hcells & Hac
        & Ham & _ & _ & HC & Hr & Hc & _ & Hdiag & _).
  - by_evaluation.
  - reflexivity.
  - exists X, C22. split; [exact HC|]. split; [exact Hr|].
    split; [exact Hc|].
    assert (Some kn = Some (VNum (Examples.qz 3))) as [= ->]
      by (rewrite <- Hkn; by_evaluation).
    assert (Ok ks = Ok [Examples.qz 3]) as [= ->]
      by (rewrite <- Hks; by_evaluation).
    assert (Some (VParam param_h) = Some (VParam Examples.mixed_param))
      as [= ->] by (rewrite <- Hp; by_evaluation).
    assert (Some aperture_h = Some [2; 2; 2]%Qc) as [= ->]
      by (rewrite <- Hap; by_evaluation).
    assert (Ok cells_h = Ok [0; 0; 1; 2]) as [= ->]
      by (rewrite <- Hcells; by_evaluation).
    assert (Ok a_cells = Ok [2; 2; 2; 2]%Qc) as [= ->]
      by (rewrite <- Hac; by_evaluation).
    assert (Ok a_mortar = Ok [2%Qc]) as [= ->]
      by (rewrite <- Ham; by_evaluation).
    apply (Hdiag 0 (Examples.qz 3) 2%Qc (Examples.qz 5)).
    + simpl. lia.
    + reflexivity.
    + reflexivity.
    + reflexivity.
    + by_evaluation.
    + by_evaluation.
    + by_evaluation.
Defined.

(** C4, the claim as stated, fails on the coupling of the three-cell line
    with a point: normal permeability 3, aperture 2, mortar cell volume 5.
    The (mortar, mortar) entry is [-1/4 - 1/60 = -4/15]: the projected
    boundary-pressure operator contributes [-1/4], and the self-term is
    [inverse_k / volume = (1/12) / 5].  The entry differs from
    [- x / (2 volume)] whether the inverse normal permeability [x] is read
    as [inverse_k = 1/12], as [1 / (kn aperture) = 1/6] or as
    [1 / kn = 1/3]. *)
Lemma mortar_block_is_not_the_self_term :
  TpfaCoupling.matrix_rhs Examples.empty_blocks Examples.line3 Examples.point
    Examples.mixed_discretized Examples.point_data Examples.edge_data
    = Ok Examples.coupling_result ∧
  ∃ C22,
    Examples.coupling_result.2 !! "mortar_weight" = Some (VMat C22) ∧
    Sp.mget C22 0 0 = Examples.qfrac (-4) 15 ∧
    Sp.mget C22 0 0
      ≠ self_term_as_specified (1 / (2 * Examples.qz 3) / 2) (Examples.qz 5) ∧
    Sp.mget C22 0 0
      ≠ self_term_as_specified (1 / (Examples.qz 3 * 2)) (Examples.qz 5) ∧
    Sp.mget C22 0 0
      ≠ self_term_as_specified (1 / Examples.qz 3) (Examples.qz 5).
Proof.
  split; [by_evaluation|].
  eexists. split; [vm_compute; reflexivity|].
  repeat split; by_evaluation.
Qed.

(** ** The direct coupling of [TpfaCouplingDFN] *)

Lemma sum_upto_indicator_r (n k0 : nat) (P : Prop) `{!Decision P} (x : Qc) :
  k0 < n →
  sum_upto n (λ k, if decide (P ∧ k0 = k) then x else 0%Qc)
  = if decide P then x else 0%Qc.
Proof.
  intros Hk.
  rewrite <- (sum_upto_indicator n k0 (λ _, if decide P then x else 0%Qc) Hk).
  apply sum_upto_ext. intros k _.
  repeat destruct (decide _); try done; exfalso; intuition congruence.
Qed.

(** The diagonal of [csr_matrix((t, (I, I)))] against the rows of
    [csr_matrix((-t, (I, J)))]. *)
Lemma diagonal_row_sum (I J : list nat) (d : list Qc) (n m n' m' i : nat) :
  length I = length d → length J = length d →
  Forall (λ j, j < m) J →
  Sp.mget (SMat n' m' (zip (zip I I) d)) i i =
  (- sum_upto m (λ j, Sp.mget (SMat n m (zip (zip I J) (Qcopp <$> d))) i j))%Qc.
Proof.
  revert J d. induction I as [|a I IH]; intros [|b J] [|x d]; try done.
  - intros _ _ _. rewrite mget_nil.
    rewrite sum_upto_zero; [ring|]. intros. apply mget_nil.
  - intros [= HI] [= HJ] HF. apply Forall_cons in HF as [Hb HF].
    rewrite fmap_cons. cbn [zip_with]. rewrite mget_cons. cbn [fst snd].
    rewrite (IH J d HI HJ HF).
    rewrite (sum_upto_ext m
               (λ j, Sp.mget (SMat n m ((a, b, - x) :: zip (zip I J) (Qcopp <$> d))) i j)
               (λ j, ((if decide (a = i ∧ b = j) then - x else 0)
                      + Sp.mget (SMat n m (zip (zip I J) (Qcopp <$> d))) i j))%Qc).
    2:{ intros j _. by rewrite mget_cons. }
    rewrite sum_upto_add, sum_upto_indicator_r by done.
    change (sum_upto m (Sp.mget ?M i)) with (sum_upto m (λ j, Sp.mget M i j)).
    repeat destruct (decide _); try ring; exfalso; intuition congruence.
Qed.

(** The same with the roles of rows and columns exchanged. *)
Lemma diagonal_column_sum (I J : list nat) (d : list Qc) (n m n' m' j : nat) :
  length I = length d → length J = length d →
  Forall (λ i, i < n) I →
  Sp.mget (SMat n' m' (zip (zip J J) d)) j j =
  (- sum_upto n (λ i, Sp.mget (SMat n m (zip (zip I J) (Qcopp <$> d))) i j))%Qc.
Proof.
  revert J d. induction I as [|a I IH]; intros [|b J] [|x d]; try done.
  - intros _ _ _. rewrite mget_nil.
    rewrite sum_upto_zero; [ring|]. intros. apply mget_nil.
  - intros [= HI] [= HJ] HF. apply Forall_cons in HF as [Ha HF].
    rewrite fmap_cons. cbn [zip_with]. rewrite mget_cons. cbn [fst snd].
    rewrite (IH J d HI HJ HF).
    rewrite (sum_upto_ext n
               (λ i, Sp.mget (SMat n m ((a, b, - x) :: zip (zip I J) (Qcopp <$> d))) i j)
               (λ i, ((if decide (b = j ∧ a = i) then - x else 0)
                      + Sp.mget (SMat n m (zip (zip I J) (Qcopp <$> d))) i j))%Qc).
    2:{ intros i _. rewrite mget_cons. cbn [fst snd].
        repeat destruct (decide _); try done; exfalso; intuition congruence. }
    rewrite sum_upto_add, sum_upto_indicator_r by done.
    repeat destruct (decide _); try ring; exfalso; intuition congruence.
Qed.

Lemma mget_diagonal_triplets (I : list nat) (d : list Qc) (n m i j : nat) :
  i ≠ j → Sp.mget (SMat n m (zip (zip I I) d)) i j = 0%Qc.
Proof.
  intros Hij. revert d. induction I as [|a I IH]; intros [|x d]; try done.
  cbn [zip_with]. rewrite mget_cons, IH. cbn [fst snd].
  destruct (decide _) as [[-> ->]|]; [done|ring].
Qed.

Lemma mget_nonpos (I J : list nat) (d : list Qc) (n m i j : nat) :
  Forall (λ x, 0 ≤ x)%Qc d →
  (Sp.mget (SMat n m (zip (zip I J) (Qcopp <$> d))) i j ≤ 0)%Qc.
Proof.
  intros Hd. revert I J. induction Hd as [|x d Hx Hd IH]; intros [|a I] [|b J];
    try apply Qcle_refl.
  rewrite fmap_cons. cbn [zip_with]. rewrite mget_cons. cbn [fst snd].
  assert ((if decide (a = i ∧ b = j) then - x else 0) ≤ 0)%Qc as Hu.
  { destruct (decide _); [|apply Qcle_refl].
    replace 0%Qc with (- 0)%Qc by ring. by apply Qcopp_le_compat. }
  pose proof (Qcplus_le_compat _ _ _ _ Hu (IH I J)) as Hle.
  by replace (0 + 0)%Qc with 0%Qc in Hle by ring.
Qed.

Lemma sum_upto_opp (n : nat) (φ : nat → Qc) :
  sum_upto n (λ k, (- φ k)%Qc) = (- sum_upto n φ)%Qc.
Proof.
  induction n as [|n IH]; [unfold sum_upto; simpl; ring|].
  rewrite !sum_upto_S, IH. ring.
Qed.

Lemma row_magnitudes_nonpos (M : smatrix) (i : nat) :
  (∀ j, Sp.mget M i j ≤ 0)%Qc → row_magnitudes M i = (- row_sum M i)%Qc.
Proof.
  intros Hle. unfold row_magnitudes, row_sum. rewrite <- sum_upto_opp.
  apply sum_upto_ext. intros j _. by apply Qcabs_neg.
Qed.

(** C5 (amended). In [TpfaCouplingDFN.matrix_rhs] the block [cc[1,0]] holds
    the triplets [(cells_l[k], cells_h[k], -t[k])], one for each coupled pair
    of a low-dimensional and a high-dimensional cell, [cc[0,1]] is its exact
    transpose, and the diagonal blocks hold [+t[k]] at
    [(cells_h[k], cells_h[k])] and at [(cells_l[k], cells_l[k])].  Each
    diagonal entry is therefore minus the sum of the corresponding row of the
    off-diagonal block, and the diagonal blocks have no other entry.  This is
    the sum of the magnitudes of that row when no transmissibility is
    negative. *)
Theorem dfn_coupling_blocks `{Sqrt} (g_h g_l : Grid)
    (data_h data_l data_edge data_edge' : record)
    (cc : list (list smatrix)) :
  TpfaCouplingDFN.matrix_rhs g_h g_l data_h data_l data_edge
    = Ok (cc, data_edge') →
  ∃ cells_l cells_h faces_h sgn_h t cc00 cc01 cc10 cc11,
    TpfaCouplingDFN.coupling_transmissibilities g_h g_l data_h data_l data_edge
      = Ok (cells_l, cells_h, faces_h, sgn_h, t) ∧
    cc = [[cc00; cc01]; [cc10; cc11]] ∧
    data_edge' !! "coupling_discretization" = Some (VBlocks cc) ∧
    length cells_l = length t ∧ length cells_h = length t ∧
    cc01 = Sp.transpose cc10 ∧
    cc10 = SMat (num_cells g_l) (num_cells g_h)
             (zip (zip cells_l cells_h) (Qcopp <$> t)) ∧
    cc00 = SMat (num_cells g_h) (num_cells g_h) (zip (zip cells_h cells_h) t) ∧
    cc11 = SMat (num_cells g_l) (num_cells g_l) (zip (zip cells_l cells_l) t) ∧
    (∀ h h', h ≠ h' → Sp.mget cc00 h h' = 0%Qc) ∧
    (∀ l l', l ≠ l' → Sp.mget cc11 l l' = 0%Qc) ∧
    (∀ h, Sp.mget cc00 h h = (- row_sum cc01 h)%Qc) ∧
    (∀ l, Sp.mget cc11 l l = (- row_sum cc10 l)%Qc) ∧
    (Forall (λ x, 0 ≤ x)%Qc t →
     (∀ h, Sp.mget cc00 h h = row_magnitudes cc01 h) ∧
     (∀ l, Sp.mget cc11 l l = row_magnitudes cc10 l)).
Proof.
  intros Hc. unfold TpfaCouplingDFN.matrix_rhs in Hc.
  step Hc as r Ect. destruct r as [[[[cells_l cells_h] faces_h] sgn_h] t].
  step Hc as cc10 E10.
  unfold Py.set_block, Py.get_block, Tpfa.ndof in Hc. simpl in Hc.
  step Hc as cc00 E00. step Hc as cc11 E11. step Hc as c2f Ec2f.
  step Hc as f0 Ef0. step Hc as f1 Ef1. step Hc as cf Ecf.
  injection Hc as <- <-.
  pose proof (coo_matrix_eq _ _ _ _ _ E10) as H10.
  pose proof (coo_matrix_eq _ _ _ _ _ E00) as H00.
  pose proof (coo_matrix_eq _ _ _ _ _ E11) as H11.
  apply coo_matrix_Ok in E10 as (Ll & Lh & _ & R10 & C10 & Fl & Fh).
  apply coo_matrix_Ok in E00 as (_ & _ & _ & R00 & C00 & _ & _).
  apply coo_matrix_Ok in E11 as (_ & _ & _ & R11 & C11 & _ & _).
  unfold Tpfa.ndof in *.
  rewrite length_fmap in Ll, Lh.
  rewrite R10, C10 in H10. rewrite R00, C00 in H00. rewrite R11, C11 in H11.
  assert (∀ h, Sp.mget cc00 h h = (- row_sum (Sp.transpose cc10) h)%Qc) as D0.
  { intros h. unfold row_sum.
    change (ncols (Sp.transpose cc10)) with (nrows cc10). rewrite R10.
    rewrite (sum_upto_ext _ _ (λ l, Sp.mget cc10 l h))
      by (intros; apply mget_transpose).
    rewrite H00, H10.
    by apply diagonal_column_sum. }
  assert (∀ l, Sp.mget cc11 l l = (- row_sum cc10 l)%Qc) as D1.
  { intros l. unfold row_sum. rewrite C10, H11, H10.
    by apply diagonal_row_sum. }
  exists cells_l, cells_h, faces_h, sgn_h, t, cc00, (Sp.transpose cc10), cc10, cc11.
  split; [done|]. split; [done|].
  split; [by rewrite lookup_insert_eq|].
  split; [done|]. split; [done|]. split; [done|].
  split; [done|]. split; [done|]. split; [done|].
  split. { intros h h' Hne. rewrite H00. by apply mget_diagonal_triplets. }
  split. { intros l l' Hne. rewrite H11. by apply mget_diagonal_triplets. }
  split; [done|]. split; [done|].
  intros Ht. split.
  - intros h. rewrite D0. symmetry. apply row_magnitudes_nonpos.
    intros l. rewrite mget_transpose, H10. by apply mget_nonpos.
  - intros l. rewrite D1. symmetry. apply row_magnitudes_nonpos.
    intros h. rewrite H10. by apply mget_nonpos.
Qed.

(** The direct coupling of the parallelogram with the segment along its
    right edge. *)
Lemma dfn_coupling_blocks_witness :
  ∃ cc00 cc01 cc10 cc11,
    Examples.dfn_result.1 = [[cc00; cc01]; [cc10; cc11]] ∧
    cc01 = Sp.transpose cc10 ∧
    Sp.mget cc00 0 0 = (- row_sum cc01 0)%Qc ∧
    Sp.mget cc11 0 0 = (- row_sum cc10 0)%Qc.
Proof.
  destruct (@dfn_coupling_blocks Examples.sqrt_exact Examples.parallelogram
              Examples.segment Examples.parallelogram_data
              Examples.segment_data Examples.dfn_edge
              Examples.dfn_result.2 Examples.dfn_result.1)
    as (cells_l & cells_h & faces_h & sgn_h & t & cc00 & cc01 & cc10 & cc11
        & _ & Hcc & _ & _ & _ & HT & _ & _ & _ & _ & _ & D0 & D1 & _).
  - by_evaluation.
  - exists cc00, cc01, cc10, cc11.
    split; [exact Hcc|]. split; [exact HT|]. split; [apply D0|apply D1].
Defined.

(** C5, the claim as stated, fails on a fracture cell that is a skewed
    parallelogram with the anisotropic permeability [[1, 2], [2, 5]]: on its
    right edge the normal is (3, -4), the permeability maps it to (-5, -14),
    the centre of the edge lies at (1/2, 0) from the cell centre, and so the
    transmissibility is [(-5/2) / (1/4) = -10].  The diagonal blocks hold
    [-10], the off-diagonal blocks [+10], and the diagonal entries are minus
    the summed magnitudes of the off-diagonal ones. *)
Lemma dfn_diagonal_is_not_the_magnitude :
  @TpfaCouplingDFN.matrix_rhs Examples.sqrt_exact Examples.parallelogram
    Examples.segment Examples.parallelogram_data Examples.segment_data
    Examples.dfn_edge = Ok Examples.dfn_result ∧
  ∃ cc00 cc01 cc10 cc11,
    Examples.dfn_result.1 = [[cc00; cc01]; [cc10; cc11]] ∧
    Sp.mget cc00 0 0 = Examples.qz (-10) ∧
    row_magnitudes cc01 0 = Examples.qz 10 ∧
    Sp.mget cc11 0 0 = Examples.qz (-10) ∧
    row_magnitudes cc10 0 = Examples.qz 10 ∧
    Sp.mget cc00 0 0 ≠ row_magnitudes cc01 0 ∧
    Sp.mget cc11 0 0 ≠ row_magnitudes cc10 0.
Proof.
  split; [by_evaluation|].
  eexists _, _, _, _. split; [vm_compute; reflexivity|].
  repeat split; by_evaluation.
Qed.

(** * Further properties of the code *)

(** ** What [Tpfa.discretize] requires *)

(** [discretize] reads [data['param']] before anything else, so a record
    without parameters raises [KeyError('param')] on every grid, point grids
    included, and so does [matrix_rhs] when it discretises. *)
Theorem discretize_requires_param `{Sqrt} (g : Grid) (data : record)
    (faces : option (list nat)) :
  data !! "param" = None →
  Tpfa.discretize g data faces = Raise (KeyError "param") ∧
  Tpfa.matrix_rhs g data faces true = Raise (KeyError "param").
Proof.
  intros Hp. unfold Tpfa.matrix_rhs, Tpfa.discretize.
  by rewrite (getitem_None _ _ Hp).
Qed.

Lemma discretize_requires_param_witness :
  @Tpfa.discretize Examples.sqrt_exact Examples.line3 ∅ None
    = Raise (KeyError "param") ∧
  @Tpfa.matrix_rhs Examples.sqrt_exact Examples.line3 ∅ None true
    = Raise (KeyError "param").
Proof.
  apply (@discretize_requires_param Examples.sqrt_exact Examples.line3 ∅ None).
  reflexivity.
Defined.

(** A face index in the active subset that is not a face of the grid makes
    [is_active[faces] = True] raise [IndexError]. *)
Theorem discretize_faces_out_of_range `{Sqrt} (g : Grid) (data : record)
    (fs : list nat) (p : Parameters) (f : nat) :
  data !! "param" = Some (VParam p) →
  dim g ≠ 0 →
  f ∈ fs → num_faces g ≤ f →
  Tpfa.discretize g data (Some fs) = Raise IndexError.
Proof.
  intros Hp Hdim Hf Hle. unfold Tpfa.discretize.
  rewrite (getitem_Some _ _ _ Hp). cbn [rbind Py.as_param].
  rewrite decide_False by done.
  unfold Np.setindex_scalar. rewrite length_replicate.
  rewrite decide_False; [done|].
  rewrite Forall_forall. intros Hall. specialize (Hall f Hf). lia.
Qed.

Lemma discretize_faces_out_of_range_witness :
  @Tpfa.discretize Examples.sqrt_exact Examples.line3 Examples.dirichlet_data
    (Some [1; 4]) = Raise IndexError.
Proof.
  apply (@discretize_faces_out_of_range Examples.sqrt_exact Examples.line3
           Examples.dirichlet_data [1; 4] Examples.dirichlet_param 4).
  - reflexivity.
  - simpl. lia.
  - rewrite !elem_of_cons. tauto.
  - simpl. lia.
Defined.

(** When [discretize] returns on a grid of dimension at least one, the grid
    and the boundary conditions fit together: both masks of the boundary
    condition have one entry per face, every boundary face is a face of the
    grid, and the face-cell incidence is not empty and reaches the last
    face.  On any other input the call raises. *)
Theorem discretize_checks_shapes `{Sqrt} (g : Grid) (data data' : record)
    (faces : option (list nat)) (p : Parameters) :
  Tpfa.discretize g data faces = Ok data' →
  dim g ≠ 0 →
  data !! "param" = Some (VParam p) →
  let fi := (Sp.find (cell_faces g)).1.1 in
  length (is_dir (get_bc p)) = num_faces g ∧
  length (is_neu (get_bc p)) = num_faces g ∧
  Forall (λ b, b < num_faces g) (get_boundary_faces g) ∧
  fi ≠ [] ∧ S (max_list fi) = num_faces g ∧
  match faces with
  | Some fs => Forall (λ f, f < num_faces g) fs
  | None => True
  end.
Proof.
  intros Hd Hdim Hp fi.
  destruct (discretize_inv g data data' faces p Hd Hdim Hp)
    as (fi' & ci & sgn & th & F & B & Bc & Bf & fd & rows & bsgn & t_b & bd
        & vc & vf & _ & Hfind & _ & (Hsz & Ldir & Lneu & Hne & Hb) & _).
  subst fi. rewrite Hfind. cbn [fst snd].
  do 4 (split; [done|]).
  split. { unfold Np.bincount_size in Hsz. by destruct fi'. }
  destruct faces as [fs|]; [|done].
  apply dec_stable. intros Hnot.
  apply not_Forall_Exists in Hnot; [|apply _].
  apply Exists_exists in Hnot as (f & Hf & Hge). unfold compose in Hge.
  rewrite (discretize_faces_out_of_range g data fs p f Hp Hdim Hf) in Hd by lia.
  discriminate.
Qed.

Lemma discretize_checks_shapes_witness :
  length (is_dir (get_bc Examples.dirichlet_param)) = 4 ∧
  Forall (λ b, b < 4) (get_boundary_faces Examples.line3).
Proof.
  destruct (@discretize_checks_shapes Examples.sqrt_exact Examples.line3
              Examples.dirichlet_data Examples.dirichlet_discretized None
              Examples.dirichlet_param)
    as (Hd & _ & Hb & _).
  - by_evaluation.
  - simpl. lia.
  - reflexivity.
  - split; [exact Hd|exact Hb].
Defined.

(** ** What [Tpfa.discretize] stores *)

(** On a grid of dimension at least one, [discretize] stores four sparse
    operators and touches no other key.  The boundary operators get their
    shapes from the grid; the flux operator is built without a shape, so it
    has one column per cell index up to the largest one that has a face. *)
Theorem discretize_stores_four_operators `{Sqrt} (g : Grid)
    (data data' : record) (faces : option (list nat)) :
  Tpfa.discretize g data faces = Ok data' →
  dim g ≠ 0 →
  ∃ F B Bc Bf,
    data' !! "flux" = Some (VMat F) ∧
    data' !! "bound_flux" = Some (VMat B) ∧
    data' !! "bound_pressure_cell" = Some (VMat Bc) ∧
    data' !! "bound_pressure_face" = Some (VMat Bf) ∧
    nrows F = num_faces g ∧
    ncols F = S (max_list (Sp.find (cell_faces g)).1.2) ∧
    nrows B = num_faces g ∧ ncols B = num_faces g ∧
    nrows Bc = num_faces g ∧ ncols Bc = num_cells g ∧
    nrows Bf = num_faces g ∧ ncols Bf = num_faces g ∧
    ∀ k, k ∉ ["flux"; "bound_flux"; "bound_pressure_cell";
              "bound_pressure_face"] →
         data' !! k = data !! k.
Proof.
  intros Hd Hdim.
  destruct (discretize_param _ _ _ _ Hd) as [p Hp].
  destruct (discretize_inv g data data' faces p Hd Hdim Hp)
    as (fi & ci & sgn & th & F & B & Bc & Bf & fd & rows & bsgn & t_b & bd
        & vc & vf & _ & Hfind & _ & _ & -> & (-> & _) & (_ & _ & _ & -> & _)
        & (-> & _) & (-> & _)).
  eexists _, _, _, _.
  split; [by do 3 rewrite lookup_insert_ne by done; rewrite lookup_insert_eq|].
  split; [by do 2 rewrite lookup_insert_ne by done; rewrite lookup_insert_eq|].
  split; [by rewrite lookup_insert_ne by done; rewrite lookup_insert_eq|].
  split; [by rewrite lookup_insert_eq|].
  rewrite Hfind. cbn [fst snd nrows ncols Sp.dia_matrix].
  do 8 (split; [reflexivity|]).
  intros k Hk. rewrite !elem_of_cons, elem_of_nil in Hk.
  rewrite !lookup_insert_ne; [done|intros <-; tauto..].
Qed.

Lemma discretize_stores_four_operators_witness :
  ∃ F, Examples.dirichlet_discretized !! "flux" = Some (VMat F) ∧
       nrows F = 4 ∧ ncols F = 3 ∧
       Examples.dirichlet_discretized !! "param"
         = Examples.dirichlet_data !! "param".
Proof.
  destruct (@discretize_stores_four_operators Examples.sqrt_exact
              Examples.line3 Examples.dirichlet_data
              Examples.dirichlet_discretized None)
    as (F & B & Bc & Bf & HF & _ & _ & _ & Hr & Hc & _ & _ & _ & _ & _ & _
        & Hk).
  - by_evaluation.
  - simpl. lia.
  - exists F. split; [exact HF|]. split; [exact Hr|].
    split; [rewrite Hc; by_evaluation|].
    apply Hk. rewrite !elem_of_cons, elem_of_nil.
    intros [?|[?|[?|[?|[]]]]]; discriminate.
Defined.

(** ** What [Tpfa.discretize] reads *)

Lemma half_transmissibilities_ext `{Sqrt} (g : Grid) (data1 data2 : record)
    (k : SecondOrderTensor) (aperture : option (list Qc)) :
  data1 !! "Aavatsmark_transmissibilities"
    = data2 !! "Aavatsmark_transmissibilities" →
  Tpfa.half_transmissibilities g data1 k aperture
  = Tpfa.half_transmissibilities g data2 k aperture.
Proof.
  intros Hflag. unfold Tpfa.half_transmissibilities, Py.get.
  by rewrite Hflag.
Qed.

Ltac lookup_inserts :=
  repeat (rewrite lookup_insert_eq || (rewrite lookup_insert_ne by done)).

Ltac both_step :=
  lazymatch goal with
  | |- match rbind ?r _ with _ => _ end =>
      let x := fresh "x" in
      destruct r as [x|]; cbn [rbind]; [|reflexivity];
      try (destruct x as [[[? ?] ?] ?])
  end.

Lemma discretize_ext `{Sqrt} (g : Grid) (data1 data2 : record)
    (faces : option (list nat)) :
  data1 !! "param" = data2 !! "param" →
  data1 !! "Aavatsmark_transmissibilities"
    = data2 !! "Aavatsmark_transmissibilities" →
  match Tpfa.discretize g data1 faces, Tpfa.discretize g data2 faces with
  | Ok d1, Ok d2 =>
      ∀ k, d2 !! k = if decide (k ∈ written_keys g) then d1 !! k
                     else data2 !! k
  | Raise e1, Raise e2 => e1 = e2
  | _, _ => False
  end.
Proof.
  intros Hp Hflag. unfold Tpfa.discretize, Py.getitem, written_keys.
  rewrite <- Hp.
  both_step.
  destruct (decide (dim g = 0)).
  - intros k.
    destruct (decide _) as [Hk|Hk]; rewrite !elem_of_cons, elem_of_nil in Hk;
      [destruct Hk as [->|[->|[]]]; by lookup_inserts|].
    rewrite !lookup_insert_ne; [done|intros <-; tauto..].
  - both_step.
    match goal with
    | |- context [Tpfa.half_transmissibilities g data2 ?k ?a] =>
        replace (Tpfa.half_transmissibilities g data2 k a)
          with (Tpfa.half_transmissibilities g data1 k a)
          by by apply half_transmissibilities_ext
    end.
    repeat both_step.
    intros k.
    destruct (decide _) as [Hk|Hk]; rewrite !elem_of_cons, elem_of_nil in Hk;
      [destruct Hk as [->|[->|[->|[->|[]]]]]; by lookup_inserts|].
    rewrite !lookup_insert_ne; [done|intros <-; tauto..].
Qed.

Lemma not_written (g : Grid) (k : string) :
  k = "param" ∨ k = "Aavatsmark_transmissibilities" → k ∉ written_keys g.
Proof.
  unfold written_keys. intros Hk.
  destruct (decide _); rewrite !elem_of_cons, elem_of_nil;
    intros Hin; destruct Hk as [->| ->];
    repeat (destruct Hin as [Hin|Hin]; [discriminate|]); done.
Qed.

(** [discretize] reads two keys of the record, ['param'] and
    ['Aavatsmark_transmissibilities'].  Two records that agree on them fail
    with the same exception or get the same operators written; operators
    already stored are overwritten without being read. *)
Theorem discretize_reads_param_and_flag `{Sqrt} (g : Grid)
    (data1 data2 : record) (faces : option (list nat)) :
  data1 !! "param" = data2 !! "param" →
  data1 !! "Aavatsmark_transmissibilities"
    = data2 !! "Aavatsmark_transmissibilities" →
  (∀ e, Tpfa.discretize g data1 faces = Raise e →
        Tpfa.discretize g data2 faces = Raise e) ∧
  (∀ d1, Tpfa.discretize g data1 faces = Ok d1 →
         ∃ d2, Tpfa.discretize g data2 faces = Ok d2 ∧
               ∀ k, d2 !! k = if decide (k ∈ written_keys g) then d1 !! k
                              else data2 !! k).
Proof.
  intros Hp Hflag.
  pose proof (discretize_ext g data1 data2 faces Hp Hflag) as Hext.
  destruct (Tpfa.discretize g data1 faces) as [d1|e1],
           (Tpfa.discretize g data2 faces) as [d2|e2]; try done.
  - split; [done|]. intros ? [= <-]. by exists d2.
  - split; [|done]. by intros ? [= <-]; subst.
Qed.

Lemma discretize_reads_param_and_flag_witness :
  ∃ d2, @Tpfa.discretize Examples.sqrt_exact Examples.line3
          (<["flux" := VNum 1%Qc]> Examples.dirichlet_data) None = Ok d2 ∧
        d2 !! "flux" = Examples.dirichlet_discretized !! "flux".
Proof.
  destruct (@discretize_reads_param_and_flag Examples.sqrt_exact
              Examples.line3 Examples.dirichlet_data
              (<["flux" := VNum 1%Qc]> Examples.dirichlet_data) None)
    as [_ Hok].
  - reflexivity.
  - reflexivity.
  - destruct (Hok Examples.dirichlet_discretized) as (d2 & Hd2 & Hk).
    + by_evaluation.
    + exists d2. split; [exact Hd2|]. rewrite Hk. reflexivity.
Defined.

(** [discretize] is idempotent: run again on the record it has produced, it
    returns that record unchanged. *)
Theorem discretize_idempotent `{Sqrt} (g : Grid) (data data' : record)
    (faces : option (list nat)) :
  Tpfa.discretize g data faces = Ok data' →
  Tpfa.discretize g data' faces = Ok data'.
Proof.
  intros Hd.
  pose proof (discretize_ext g data data faces eq_refl eq_refl) as Hself.
  rewrite Hd in Hself.
  pose proof (discretize_ext g data data' faces) as Hext.
  rewrite Hd in Hext.
  destruct (Tpfa.discretize g data' faces) as [d2|e2].
  - f_equal. apply map_eq. intros k.
    rewrite Hext.
    + by destruct (decide _).
    + rewrite Hself. by rewrite decide_False by (apply not_written; tauto).
    + rewrite Hself. by rewrite decide_False by (apply not_written; tauto).
  - exfalso. apply Hext.
    + rewrite Hself. by rewrite decide_False by (apply not_written; tauto).
    + rewrite Hself. by rewrite decide_False by (apply not_written; tauto).
Qed.

Lemma discretize_idempotent_witness :
  @Tpfa.discretize Examples.sqrt_exact Examples.line3
    Examples.dirichlet_discretized None = Ok Examples.dirichlet_discretized.
Proof.
  apply (@discretize_idempotent Examples.sqrt_exact Examples.line3
           Examples.dirichlet_data).
  by_evaluation.
Defined.

(** ** Assembly with [Tpfa.matrix_rhs] and [Tpfa.rhs] *)

(** [matrix_rhs] does not forward its [faces] argument: with
    [discretize=True] the record it leaves is the one of [discretize] with
    no face subset, whatever [faces] is, and assembling again from that
    record with [discretize=False] gives the same matrix and right-hand
    side. *)
Theorem matrix_rhs_reuses_discretization `{Sqrt} (g : Grid)
    (data data1 : record) (faces faces' : option (list nat)) (M r : value) :
  Tpfa.matrix_rhs g data faces true = Ok (M, r, data1) →
  Tpfa.discretize g data None = Ok data1 ∧
  Tpfa.matrix_rhs g data1 faces' false = Ok (M, r, data1).
Proof.
  unfold Tpfa.matrix_rhs. intros Hm.
  destruct (Tpfa.discretize g data None) as [d|e]; [|discriminate].
  cbn [rbind] in *.
  assert (d = data1) as ->; [|done].
  inv_steps Hm. by injection Hm as _ _ ->.
Qed.

Lemma matrix_rhs_reuses_discretization_witness :
  @Tpfa.discretize Examples.sqrt_exact Examples.line3 Examples.dirichlet_data
    None = Ok Examples.dirichlet_system.2 ∧
  @Tpfa.matrix_rhs Examples.sqrt_exact Examples.line3
    Examples.dirichlet_system.2 None false = Ok Examples.dirichlet_system.
Proof.
  apply (@matrix_rhs_reuses_discretization Examples.sqrt_exact Examples.line3
           Examples.dirichlet_data Examples.dirichlet_system.2 (Some [1]) None
           Examples.dirichlet_system.1.1 Examples.dirichlet_system.1.2).
  by_evaluation.
Defined.



Lemma matvec_eq (A : smatrix) (v : list Qc) :
  length v = ncols A →
  Sp.matvec A v =
  Ok ((λ i, qsum ((λ e : nat * nat * Qc,
                     if decide (e.1.1 = i)
                     then (e.2 * default 0%Qc (v !! e.1.2))%Qc else 0%Qc)
                  <$> entries A))
      <$> seq 0 (nrows A)).
Proof. intros Hl. unfold Sp.matvec. by rewrite decide_True. Qed.

Lemma fmap_const_replicate {A B} (l : list A) (b : B) (φ : A → B) :
  (∀ x, x ∈ l → φ x = b) → φ <$> l = replicate (length l) b.
Proof.
  induction l as [|x l IH]; [done|]. intros Hall. simpl.
  rewrite Hall by left. f_equal. apply IH. intros y Hy. apply Hall. by right.
Qed.

Lemma matvec_zero (A : smatrix) (n : nat) :
  n = ncols A →
  Sp.matvec A (replicate n 0%Qc) = Ok (replicate (nrows A) 0%Qc).
Proof.
  intros ->. rewrite matvec_eq by by rewrite length_replicate.
  f_equal.
  transitivity (replicate (length (seq 0 (nrows A))) 0%Qc);
    [|by rewrite length_seq].
  apply fmap_const_replicate. intros i _. apply qsum_zero.
  apply Forall_fmap, Forall_forall. intros e _. simpl.
  destruct (decide _); [|done].
  destruct (replicate (ncols A) 0%Qc !! e.1.2) as [x|] eqn:E; simpl; [|ring].
  apply lookup_replicate in E as [-> _]. ring.
Qed.

Lemma matvec_add (A : smatrix) (u v ru rv : list Qc) :
  Sp.matvec A u = Ok ru → Sp.matvec A v = Ok rv →
  Sp.matvec A (zip_with Qcplus u v) = Ok (zip_with Qcplus ru rv).
Proof.
  intros Hu Hv.
  pose proof (matvec_Ok _ _ _ Hu) as (Lu & _ & _).
  pose proof (matvec_Ok _ _ _ Hv) as (Lv & _ & _).
  rewrite matvec_eq in Hu, Hv by done. injection Hu as <-. injection Hv as <-.
  rewrite matvec_eq by (rewrite length_zip_with; lia).
  f_equal. apply list_eq. intros k.
  rewrite lookup_zip_with, !list_lookup_fmap.
  destruct (seq 0 (nrows A) !! k) as [i|]; [|done]. simpl. f_equal.
  rewrite <- qsum_fmap_add. f_equal. apply list_fmap_ext. intros _ e _.
  simpl. destruct (decide _); [|ring].
  rewrite lookup_zip_with.
  destruct (u !! e.1.2) as [x|] eqn:Ex, (v !! e.1.2) as [y|] eqn:Ey; simpl;
    try ring.
  all: exfalso;
    first [apply lookup_lt_Some in Ex; apply lookup_ge_None in Ey
          |apply lookup_lt_Some in Ey; apply lookup_ge_None in Ex]; lia.
Qed.

(** The right-hand side is additive in the boundary values: the
    contributions of two sets of boundary values superpose. *)
Theorem rhs_additive (g : Grid) (bound_flux : smatrix) (u v ru rv : list Qc) :
  Tpfa.rhs g (VMat bound_flux) u = Ok (VArr ru) →
  Tpfa.rhs g (VMat bound_flux) v = Ok (VArr rv) →
  Tpfa.rhs g (VMat bound_flux) (zip_with Qcplus u v)
    = Ok (VArr (zip_with Qcplus ru rv)).
Proof.
  unfold Tpfa.rhs, Py.mul. intros Hu Hv.
  destruct (Sp.mul _ bound_flux) as [X|]; [|discriminate].
  cbn [rbind fmap result_fmap] in *.
  destruct (Sp.matvec X u) as [ru'|] eqn:Eu; [|discriminate].
  destruct (Sp.matvec X v) as [rv'|] eqn:Ev; [|discriminate].
  injection Hu as <-. injection Hv as <-.
  by rewrite (matvec_add X u v ru' rv' Eu Ev).
Qed.

Lemma rhs_additive_witness :
  Tpfa.rhs Examples.line3
    (VMat (SMat 4 4 [(0, 0, 2%Qc); (3, 3, (-(2))%Qc)]))
    (zip_with Qcplus [1; 0; 0; 0]%Qc [0; 0; 0; 1]%Qc)
  = Ok (VArr (zip_with Qcplus [2; 0; 0]%Qc [0; 0; 2]%Qc)).
Proof.
  apply rhs_additive; by_evaluation.
Defined.

(** Boundary values that are all zero give a right-hand side that is all
    zero, one entry per cell column of the incidence. *)
Theorem rhs_zero_boundary_values (g : Grid) (bound_flux : smatrix) :
  nrows bound_flux = nrows (cell_faces g) →
  Tpfa.rhs g (VMat bound_flux) (replicate (ncols bound_flux) 0%Qc)
    = Ok (VArr (replicate (ncols (cell_faces g)) 0%Qc)).
Proof.
  intros Hr. unfold Tpfa.rhs.
  destruct (mul_is_Ok (Sp.neg (Sp.transpose (cell_faces g))) bound_flux)
    as [X HX]; [done|].
  unfold Py.mul at 1. rewrite HX. cbn [rbind fmap result_fmap].
  unfold Py.mul.
  unfold Sp.mul in HX. rewrite decide_True in HX by done.
  injection HX as <-.
  by rewrite matvec_zero.
Qed.

Lemma rhs_zero_boundary_values_witness :
  Tpfa.rhs Examples.line3
    (VMat (SMat 4 4 [(0, 0, 2%Qc); (3, 3, (-(2))%Qc)])) (replicate 4 0%Qc)
  = Ok (VArr (replicate 3 0%Qc)).
Proof.
  apply (rhs_zero_boundary_values Examples.line3
           (SMat 4 4 [(0, 0, 2%Qc); (3, 3, (-(2))%Qc)])).
  reflexivity.
Defined.

(** The scalar 0 that [discretize] stores as the boundary-flux operator of a
    point grid is accepted by [rhs], which then returns zeros. *)
Theorem rhs_of_point_grid_record `{Sqrt} (g : Grid) (data data' : record)
    (faces : option (list nat)) (bc_val : list Qc) :
  dim g = 0 →
  Tpfa.discretize g data faces = Ok data' →
  length bc_val = nrows (cell_faces g) →
  ∃ B, data' !! "bound_flux" = Some B ∧
       Tpfa.rhs g B bc_val
         = Ok (VArr (replicate (ncols (cell_faces g)) 0%Qc)).
Proof.
  intros Hdim Hd Hl.
  destruct (discretize_param _ _ _ _ Hd) as [p Hp].
  unfold Tpfa.discretize in Hd. rewrite (getitem_Some _ _ _ Hp) in Hd.
  cbn [rbind Py.as_param] in Hd. rewrite decide_True in Hd by done.
  injection Hd as <-.
  exists (VNum 0%Qc). split; [by rewrite lookup_insert_eq|].
  unfold Tpfa.rhs, Py.mul at 1. cbn [Py.as_scalar rbind]. unfold Py.mul.
  rewrite matvec_eq by done. cbn [fmap result_fmap]. do 2 f_equal.
  cbn [nrows Sp.scale Sp.neg Sp.transpose].
  transitivity (replicate (length (seq 0 (ncols (cell_faces g)))) 0%Qc);
    [|by rewrite length_seq].
  apply fmap_const_replicate. intros i _. apply qsum_zero.
  unfold Sp.scale. cbn [entries]. rewrite !Forall_fmap.
  apply Forall_forall. intros e _. simpl.
  destruct (decide _); [|done]. ring.
Qed.

Lemma rhs_of_point_grid_record_witness :
  ∃ B, Tpfa.rhs Examples.point B [] = Ok (VArr [0%Qc]).
Proof.
  destruct (@rhs_of_point_grid_record Examples.sqrt_exact Examples.point
              Examples.point_data
              (<["bound_flux" := VNum 0%Qc]>
                 (<["flux" := VMat (SMat 1 1 [])]> Examples.point_data))
              None [])
    as (B & _ & HB).
  - reflexivity.
  - reflexivity.
  - reflexivity.
  - exists B. exact HB.
Defined.

(** ** Fluxes reconstructed from the stored operators *)

Lemma sum_upto_two (n a b : nat) (φ : nat → Qc) :
  a < n → b < n → a ≠ b →
  (∀ k, k ≠ a → k ≠ b → φ k = 0%Qc) →
  sum_upto n φ = (φ a + φ b)%Qc.
Proof.
  intros Ha Hb Hab Hz.
  transitivity
    (sum_upto n (λ k : nat,
                   Qcplus (if decide (k = a) then φ k else 0%Qc)
                          (if decide (k = b) then φ k else 0%Qc))).
  - apply sum_upto_ext. intros k _.
    destruct (decide (k = a)) as [Hka|Hka], (decide (k = b)) as [Hkb|Hkb];
      try congruence; try ring.
    rewrite Hz by done. ring.
  - rewrite sum_upto_add.
    by rewrite (sum_upto_indicator n a φ Ha), (sum_upto_indicator n b φ Hb).
Qed.

Lemma sum_upto_one (n a : nat) (φ : nat → Qc) :
  a < n → (∀ k, k ≠ a → φ k = 0%Qc) → sum_upto n φ = φ a.
Proof.
  intros Ha Hz.
  transitivity (sum_upto n (λ k, if decide (k = a) then φ k else 0%Qc)).
  - apply sum_upto_ext. intros k _. destruct (decide (k = a)) as [->|]; auto.
  - by apply sum_upto_indicator.
Qed.

Lemma zip_columns_in_range (I J : list nat) (d : list Qc) (m : nat) :
  Forall (λ j, j < m) J →
  Forall (λ e : nat * nat * Qc, e.1.2 < m) (zip (zip I J) d).
Proof.
  intros HJ. apply Forall_forall. intros [[i j] x] Hin.
  apply list_elem_of_lookup_1 in Hin as [k Hk].
  rewrite !lookup_zip_with in Hk.
  destruct (I !! k); [|done]. destruct (J !! k) as [j'|] eqn:Ej; [|done].
  destruct (d !! k); [|done]. simpl in Hk. injection Hk as -> -> ->.
  simpl. eapply Forall_forall in HJ; [exact HJ|].
  by eapply list_elem_of_lookup_2.
Qed.

Lemma max_list_bound (l : list nat) : Forall (λ j, j < S (max_list l)) l.
Proof.
  apply Forall_forall. intros j Hj. apply max_list_elem_of_le in Hj. lia.
Qed.

(** The two-point flux: applied to a vector of cell pressures, the flux
    operator gives on an interior face, with two incidences of opposite
    signs, the harmonic average of the two half-transmissibilities times
    the difference of the pressures of the two cells.  The
    half-transmissibilities are not zero and their reciprocals do not
    cancel, so that no division is a division by zero. *)
Theorem two_point_flux `{Sqrt} (g : Grid) (data data' : record)
    (faces : option (list nat)) (p : Parameters)
    (fi ci : list nat) (sgn th : list Qc)
    (f j1 j2 c1 c2 : nat) (t1 t2 s : Qc) (F : smatrix) (pr q : list Qc) :
  Tpfa.discretize g data faces = Ok data' →
  dim g ≠ 0 →
  data !! "param" = Some (VParam p) →
  Tpfa.half_transmissibilities g data (get_tensor p) (get_aperture p)
    = Ok (fi, ci, sgn, th) →
  j1 ≠ j2 →
  (∀ j, fi !! j = Some f ↔ j = j1 ∨ j = j2) →
  th !! j1 = Some t1 → th !! j2 = Some t2 →
  t1 ≠ 0%Qc → t2 ≠ 0%Qc → (1 / t1 + 1 / t2 ≠ 0)%Qc →
  ci !! j1 = Some c1 → ci !! j2 = Some c2 →
  sgn !! j1 = Some s → sgn !! j2 = Some (- s)%Qc →
  is_neu (get_bc p) !! f = Some false →
  inactive faces f = false →
  data' !! "flux" = Some (VMat F) →
  Sp.matvec F pr = Ok q →
  ∃ p1 p2,
    pr !! c1 = Some p1 ∧ pr !! c2 = Some p2 ∧
    q !! f = Some (1 / (1 / t1 + 1 / t2) * s * (p1 - p2))%Qc.
Proof.
  intros Hd Hdim Hp Hh Hne Hj Ht1 Ht2 _ _ _ Hc1 Hc2 Hs1 Hs2 Hneu Hact HF Hq.
  destruct (discretize_inv g data data' faces p Hd Hdim Hp)
    as (fi' & ci' & sgn' & th' & F' & B & Bc & Bf & fd & rows & bsgn & t_b & bd
        & vc & vf & Hh' & Hfind & Lth & (Hsize & _) & -> & (-> & Lfd & Hfd)
        & _).
  rewrite Hh in Hh'. injection Hh' as <- <- <- <-.
  do 3 rewrite lookup_insert_ne in HF by done.
  rewrite lookup_insert_eq in HF. injection HF as <-.
  set (T := (1 / (1 / t1 + 1 / t2))%Qc).
  assert (fi !! j1 = Some f) as Hf1 by (apply Hj; by left).
  assert (fi !! j2 = Some f) as Hf2 by (apply Hj; by right).
  assert (t_full fi th f = T) as HT by by eapply t_full_pair.
  assert (c1 ≠ c2) as Hc.
  { intros ->. apply Hne. by eapply (find_unique _ _ _ _ j1 j2 f c2). }
  assert (c1 < S (max_list ci) ∧ c2 < S (max_list ci)) as [Hl1 Hl2].
  { pose proof (max_list_bound ci) as Hb. rewrite Forall_forall in Hb.
    split; apply Hb; by eapply list_elem_of_lookup_2. }
  set (Fm := SMat (num_faces g) (S (max_list ci)) (zip (zip fi ci) fd)) in *.
  assert (Sp.mget Fm f c1 = (T * s)%Qc) as E1.
  { apply (flux_entry fi ci sgn fd (cell_faces g) _ _ j1); [done..|].
    rewrite (Hfd j1 f s false Hf1 Hs1 Hneu), Hact. simpl. by rewrite HT. }
  assert (Sp.mget Fm f c2 = (T * - s)%Qc) as E2.
  { apply (flux_entry fi ci sgn fd (cell_faces g) _ _ j2); [done..|].
    rewrite (Hfd j2 f (- s)%Qc false Hf2 Hs2 Hneu), Hact. simpl.
    by rewrite HT. }
  assert (∀ c, c ≠ c1 → c ≠ c2 → Sp.mget Fm f c = 0%Qc) as E0.
  { intros c Hn1 Hn2. apply mget_triplets_none. intros k Hk Hk'.
    apply Hj in Hk as [-> | ->]; congruence. }
  pose proof (matvec_Ok _ _ _ Hq) as (Lp & Lq & _).
  simpl in Lp, Lq.
  destruct (lookup_lt_is_Some_2 pr c1) as [p1 Hp1]; [lia|].
  destruct (lookup_lt_is_Some_2 pr c2) as [p2 Hp2]; [lia|].
  exists p1, p2. do 2 (split; [done|]).
  assert (f < num_faces g) as Hlt.
  { apply lookup_lt_Some in Hneu.
    destruct (discretize_inv g data _ faces p Hd Hdim Hp)
      as (_ & _ & _ & _ & _ & _ & _ & _ & _ & _ & _ & _ & _ & _ & _ & _ & _
          & _ & (_ & _ & Ln & _) & _). lia. }
  rewrite (matvec_lookup Fm pr q f Hq).
  - f_equal. simpl ncols.
    rewrite (sum_upto_two _ c1 c2) by
      (try done; intros k Hk1 Hk2; rewrite E0 by done; ring).
    rewrite E1, E2, Hp1, Hp2. simpl. ring.
  - apply zip_columns_in_range, max_list_bound.
  - done.
Qed.

Lemma two_point_flux_witness :
  Examples.applied
    (Examples.stored_matrix Examples.dirichlet_discretized "flux")
    Examples.pressures !! 1
  = Some (1 / (1 / 2 + 1 / 2) * 1 * (Examples.qz 5 - Examples.qz 3))%Qc.
Proof.
  destruct (@two_point_flux Examples.sqrt_exact Examples.line3
              Examples.dirichlet_data Examples.dirichlet_discretized None
              Examples.dirichlet_param Examples.line3_fi Examples.line3_ci
              Examples.line3_sgn (replicate 6 2%Qc) 1 1 2 0 1 2%Qc 2%Qc 1%Qc
              (Examples.stored_matrix Examples.dirichlet_discretized "flux")
              Examples.pressures
              (Examples.applied
                 (Examples.stored_matrix Examples.dirichlet_discretized
                    "flux") Examples.pressures))
    as (p1 & p2 & H1 & H2 & Hq).
  - by_evaluation.
  - by_evaluation.
  - reflexivity.
  - by_evaluation.
  - lia.
  - positions6.
  - reflexivity.
  - reflexivity.
  - by_evaluation.
  - by_evaluation.
  - by_evaluation.
  - reflexivity.
  - reflexivity.
  - reflexivity.
  - reflexivity.
  - reflexivity.
  - reflexivity.
  - by_evaluation.
  - by_evaluation.
  - assert (Some p1 = Some (Examples.qz 5)) as [= ->]
      by (rewrite <- H1; reflexivity).
    assert (Some p2 = Some (Examples.qz 3)) as [= ->]
      by (rewrite <- H2; reflexivity).
    exact Hq.
Defined.

(** The rows of the flux and boundary-flux operators on a boundary face with
    a single incidence. *)
Lemma boundary_face_rows `{Sqrt} (g : Grid) (data data' : record)
    (faces : option (list nat)) (p : Parameters)
    (fi ci : list nat) (sgn th : list Qc) (f j c : nat) (s : Qc)
    (F B : smatrix) :
  Tpfa.discretize g data faces = Ok data' →
  dim g ≠ 0 →
  data !! "param" = Some (VParam p) →
  Tpfa.half_transmissibilities g data (get_tensor p) (get_aperture p)
    = Ok (fi, ci, sgn, th) →
  NoDup (get_boundary_faces g) →
  (∀ b, b ∈ get_boundary_faces g → ∃ j, ∀ j', fi !! j' = Some b ↔ j' = j) →
  f ∈ get_boundary_faces g →
  fi !! j = Some f → ci !! j = Some c → sgn !! j = Some s →
  data' !! "flux" = Some (VMat F) →
  data' !! "bound_flux" = Some (VMat B) →
  nrows F = num_faces g ∧ c < ncols F ∧
  nrows B = num_faces g ∧ ncols B = num_faces g ∧ f < num_faces g ∧
  Forall (λ e : nat * nat * Qc, e.1.2 < ncols F) (entries F) ∧
  Forall (λ e : nat * nat * Qc, e.1.2 < ncols B) (entries B) ∧
  (∀ c', c' ≠ c → Sp.mget F f c' = 0%Qc) ∧
  (∀ f', f' ≠ f → Sp.mget B f f' = 0%Qc) ∧
  ∀ di nu : bool,
    is_dir (get_bc p) !! f = Some di → is_neu (get_bc p) !! f = Some nu →
    Sp.mget F f c
      = ((if nu || inactive faces f then 0 else t_full fi th f) * s)%Qc ∧
    Sp.mget B f f
      = ((if nu then 1 else if di then - t_full fi th f else 0) * s)%Qc.
Proof.
  intros Hd Hdim Hp Hh Hnd Hone Hin Hf Hc Hs HF HB.
  destruct (discretize_inv g data data' faces p Hd Hdim Hp)
    as (fi' & ci' & sgn' & th' & F' & B' & Bc & Bf & fd & rows & bsgn & t_b
        & bd & vc & vf & Hh' & Hfind & Lth & (Hsize & Ldir & Lneu & _ & Hbr)
        & -> & (-> & Lfd & Hfd)
        & (Erows & Ebsgn & Ebd & -> & Lbd & Ltb & Htb) & _).
  rewrite Hh in Hh'. injection Hh' as <- <- <- <-.
  do 3 rewrite lookup_insert_ne in HF by done.
  rewrite lookup_insert_eq in HF. injection HF as <-.
  do 2 rewrite lookup_insert_ne in HB by done.
  rewrite lookup_insert_eq in HB. injection HB as <-.
  set (bndr := get_boundary_faces g) in *.
  destruct (row_select_sorted_data _ _ _ _ Erows Ebsgn) as [Lbsgn Hbsgn].
  { intros k b Hk.
    destruct (Hone b) as [j0 Hj0]; [by eapply list_elem_of_lookup_2|].
    destruct (single_incidence_row _ _ _ _ _ _ Hfind Hj0)
      as (c0 & s0 & _ & _ & Hc0 & <- & Hne & Huniq).
    exists c0. done. }
  apply bcast_Ok_zip in Ebd; [|congruence].
  destruct (Hone f Hin) as [j0 Hj0].
  assert (j0 = j) as -> by (symmetry; by apply Hj0).
  destruct (single_incidence_row _ _ _ _ _ _ Hfind Hj0)
    as (c' & s' & Hc' & Hs' & Hcl & Hm & Hne & _).
  assert (c' = c) as -> by congruence.
  assert (s' = s) as -> by congruence.
  pose proof Hin as Hin'.
  apply list_elem_of_lookup_1 in Hin' as (k & Hk).
  assert (bsgn !! k = Some s) as Hbk.
  { rewrite (Hbsgn k f c Hk Hcl); [by rewrite Hm|by rewrite Hm]. }
  assert (f < num_faces g) as Hlt.
  { rewrite Forall_forall in Hbr. by apply Hbr. }
  cbn [nrows ncols entries].
  split; [done|]. split.
  { pose proof (max_list_bound ci) as Hb. rewrite Forall_forall in Hb.
    apply Hb. by eapply list_elem_of_lookup_2. }
  do 3 (split; [done|]).
  split; [apply zip_columns_in_range, max_list_bound|].
  split; [by apply zip_columns_in_range|].
  split.
  { intros c0 Hc0. apply mget_triplets_none. intros k' Hk1 Hk2.
    apply Hj0 in Hk1 as ->. congruence. }
  split.
  { intros f' Hf'. apply mget_triplets_none. intros k' Hk1 Hk2. congruence. }
  intros di nu Hdi Hnu. split.
  - apply (flux_entry fi ci sgn fd (cell_faces g) _ _ j); [done..|].
    by rewrite (Hfd j f s nu Hf Hs Hnu).
  - apply (mget_triplets_unique _ _ _ _ _ k); [done..| |].
    + subst bd. by rewrite lookup_zip_with, (Htb k f di nu Hk Hdi Hnu), Hbk.
    + intros k' Hk' _. by eapply NoDup_lookup.
Qed.

(** The flux through a Dirichlet boundary face: the flux operator applied to
    the cell pressures plus the boundary-flux operator applied to the
    boundary values gives the half-transmissibility of the face times the
    difference between the pressure of its cell and the boundary value,
    with the sign of the incidence. *)
Theorem dirichlet_face_flux `{Sqrt} (g : Grid) (data data' : record)
    (faces : option (list nat)) (p : Parameters)
    (fi ci : list nat) (sgn th : list Qc) (f j c : nat) (h s : Qc)
    (F B : smatrix) (pr bc q qb : list Qc) :
  Tpfa.discretize g data faces = Ok data' →
  dim g ≠ 0 →
  data !! "param" = Some (VParam p) →
  Tpfa.half_transmissibilities g data (get_tensor p) (get_aperture p)
    = Ok (fi, ci, sgn, th) →
  NoDup (get_boundary_faces g) →
  (∀ b, b ∈ get_boundary_faces g → ∃ j, ∀ j', fi !! j' = Some b ↔ j' = j) →
  f ∈ get_boundary_faces g →
  fi !! j = Some f → ci !! j = Some c → sgn !! j = Some s →
  th !! j = Some h →
  is_dir (get_bc p) !! f = Some true →
  is_neu (get_bc p) !! f = Some false →
  inactive faces f = false →
  data' !! "flux" = Some (VMat F) →
  data' !! "bound_flux" = Some (VMat B) →
  Sp.matvec F pr = Ok q → Sp.matvec B bc = Ok qb →
  ∃ pc bf x y,
    pr !! c = Some pc ∧ bc !! f = Some bf ∧
    q !! f = Some x ∧ qb !! f = Some y ∧
    (x + y = h * s * (pc - bf))%Qc.
Proof.
  intros Hd Hdim Hp Hh Hnd Hone Hin Hf Hc Hs Hth Hdi Hnu Hact HF HB Hq Hqb.
  destruct (boundary_face_rows g data data' faces p fi ci sgn th f j c s F B
              Hd Hdim Hp Hh Hnd Hone Hin Hf Hc Hs HF HB)
    as (HFr & Hcl & HBr & HBc & Hlt & HFin & HBin & HF0 & HB0 & Hent).
  destruct (Hent true false Hdi Hnu) as [EF EB].
  rewrite Hact in EF. simpl in EF.
  assert (t_full fi th f = h) as HT.
  { destruct (Hone f Hin) as [j0 Hj0].
    assert (j0 = j) as -> by (symmetry; by apply Hj0).
    by eapply t_full_single. }
  rewrite HT in EF, EB.
  pose proof (matvec_Ok _ _ _ Hq) as (Lp & _ & _).
  pose proof (matvec_Ok _ _ _ Hqb) as (Lb & _ & _).
  destruct (lookup_lt_is_Some_2 pr c) as [pc Hpc]; [lia|].
  destruct (lookup_lt_is_Some_2 bc f) as [bf Hbf]; [lia|].
  exists pc, bf. eexists _, _.
  split; [done|]. split; [done|].
  split; [apply (matvec_lookup F pr q f Hq HFin); lia|].
  split; [apply (matvec_lookup B bc qb f Hqb HBin); lia|].
  rewrite (sum_upto_one _ c) by
    (try done; intros k Hk; rewrite HF0 by done; ring).
  rewrite (sum_upto_one _ f) by
    (try lia; intros k Hk; rewrite HB0 by done; ring).
  rewrite EF, EB, Hpc, Hbf. simpl. ring.
Qed.

(** The flux through a Neumann boundary face does not depend on the cell
    pressures: the two operators together return the prescribed boundary
    value, with the sign of the incidence. *)
Theorem neumann_face_flux `{Sqrt} (g : Grid) (data data' : record)
    (faces : option (list nat)) (p : Parameters)
    (fi ci : list nat) (sgn th : list Qc) (f j c : nat) (s : Qc)
    (F B : smatrix) (pr bc q qb : list Qc) :
  Tpfa.discretize g data faces = Ok data' →
  dim g ≠ 0 →
  data !! "param" = Some (VParam p) →
  Tpfa.half_transmissibilities g data (get_tensor p) (get_aperture p)
    = Ok (fi, ci, sgn, th) →
  NoDup (get_boundary_faces g) →
  (∀ b, b ∈ get_boundary_faces g → ∃ j, ∀ j', fi !! j' = Some b ↔ j' = j) →
  f ∈ get_boundary_faces g →
  fi !! j = Some f → ci !! j = Some c → sgn !! j = Some s →
  is_neu (get_bc p) !! f = Some true →
  data' !! "flux" = Some (VMat F) →
  data' !! "bound_flux" = Some (VMat B) →
  Sp.matvec F pr = Ok q → Sp.matvec B bc = Ok qb →
  ∃ bf x y,
    bc !! f = Some bf ∧ q !! f = Some x ∧ qb !! f = Some y ∧
    (x + y = s * bf)%Qc.
Proof.
  intros Hd Hdim Hp Hh Hnd Hone Hin Hf Hc Hs Hnu HF HB Hq Hqb.
  destruct (boundary_face_rows g data data' faces p fi ci sgn th f j c s F B
              Hd Hdim Hp Hh Hnd Hone Hin Hf Hc Hs HF HB)
    as (HFr & Hcl & HBr & HBc & Hlt & HFin & HBin & HF0 & HB0 & Hent).
  destruct (discretize_inv g data data' faces p Hd Hdim Hp)
    as (_ & _ & _ & _ & _ & _ & _ & _ & _ & _ & _ & _ & _ & _ & _ & _ & _ & _
        & (_ & Ldir & _) & _).
  destruct (lookup_lt_is_Some_2 (is_dir (get_bc p)) f) as [di Hdi]; [lia|].
  destruct (Hent di true Hdi Hnu) as [EF EB]. simpl in EF.
  pose proof (matvec_Ok _ _ _ Hq) as (Lp & _ & _).
  pose proof (matvec_Ok _ _ _ Hqb) as (Lb & _ & _).
  destruct (lookup_lt_is_Some_2 bc f) as [bf Hbf]; [lia|].
  exists bf. eexists _, _.
  split; [done|].
  split; [apply (matvec_lookup F pr q f Hq HFin); lia|].
  split; [apply (matvec_lookup B bc qb f Hqb HBin); lia|].
  rewrite (sum_upto_one _ c) by
    (try done; intros k Hk; rewrite HF0 by done; ring).
  rewrite (sum_upto_one _ f) by
    (try lia; intros k Hk; rewrite HB0 by done; ring).
  rewrite EF, EB, Hbf. simpl. ring.
Qed.

Lemma dirichlet_face_flux_witness :
  ∃ x y,
    Examples.applied (Examples.stored_matrix Examples.mixed_discretized "flux")
      Examples.pressures !! 0 = Some x ∧
    Examples.applied
      (Examples.stored_matrix Examples.mixed_discretized "bound_flux")
      [1; 0; 0; 2]%Qc !! 0 = Some y ∧
    (x + y = Examples.qz 4 * -1 * (Examples.qz 5 - 1))%Qc.
Proof.
  destruct (@dirichlet_face_flux Examples.sqrt_exact Examples.line3
              Examples.mixed_data Examples.mixed_discretized None
              Examples.mixed_param Examples.line3_fi Examples.line3_ci
              Examples.line3_sgn (replicate 6 (Examples.qz 4)) 0 0 0
              (Examples.qz 4) (-1)%Qc
              (Examples.stored_matrix Examples.mixed_discretized "flux")
              (Examples.stored_matrix Examples.mixed_discretized "bound_flux")
              Examples.pressures [1; 0; 0; 2]%Qc
              (Examples.applied
                 (Examples.stored_matrix Examples.mixed_discretized "flux")
                 Examples.pressures)
              (Examples.applied
                 (Examples.stored_matrix Examples.mixed_discretized
                    "bound_flux") [1; 0; 0; 2]%Qc))
    as (pc & bf & x & y & Hpc & Hbf & Hx & Hy & Hxy).
  - by_evaluation.
  - by_evaluation.
  - reflexivity.
  - by_evaluation.
  - by_evaluation.
  - intros b Hb. apply elem_of_cons in Hb as [->|Hb].
    + exists 0. positions6.
    + apply list_elem_of_singleton in Hb as ->. exists 5. positions6.
  - by_evaluation.
  - reflexivity.
  - reflexivity.
  - reflexivity.
  - reflexivity.
  - reflexivity.
  - reflexivity.
  - reflexivity.
  - by_evaluation.
  - by_evaluation.
  - by_evaluation.
  - by_evaluation.
  - assert (Some pc = Some (Examples.qz 5)) as [= ->]
      by (rewrite <- Hpc; reflexivity).
    assert (Some bf = Some 1%Qc) as [= ->] by (rewrite <- Hbf; reflexivity).
    exists x, y. split; [exact Hx|]. split; [exact Hy|exact Hxy].
Defined.

Lemma neumann_face_flux_witness :
  ∃ x y,
    Examples.applied (Examples.stored_matrix Examples.mixed_discretized "flux")
      Examples.pressures !! 3 = Some x ∧
    Examples.applied
      (Examples.stored_matrix Examples.mixed_discretized "bound_flux")
      [1; 0; 0; 2]%Qc !! 3 = Some y ∧
    (x + y = 1 * 2)%Qc.
Proof.
  destruct (@neumann_face_flux Examples.sqrt_exact Examples.line3
              Examples.mixed_data Examples.mixed_discretized None
              Examples.mixed_param Examples.line3_fi Examples.line3_ci
              Examples.line3_sgn (replicate 6 (Examples.qz 4)) 3 5 2 1%Qc
              (Examples.stored_matrix Examples.mixed_discretized "flux")
              (Examples.stored_matrix Examples.mixed_discretized "bound_flux")
              Examples.pressures [1; 0; 0; 2]%Qc
              (Examples.applied
                 (Examples.stored_matrix Examples.mixed_discretized "flux")
                 Examples.pressures)
              (Examples.applied
                 (Examples.stored_matrix Examples.mixed_discretized
                    "bound_flux") [1; 0; 0; 2]%Qc))
    as (bf & x & y & Hbf & Hx & Hy & Hxy).
  - by_evaluation.
  - by_evaluation.
  - reflexivity.
  - by_evaluation.
  - by_evaluation.
  - intros b Hb. apply elem_of_cons in Hb as [->|Hb].
    + exists 0. positions6.
    + apply list_elem_of_singleton in Hb as ->. exists 5. positions6.
  - by_evaluation.
  - reflexivity.
  - reflexivity.
  - reflexivity.
  - reflexivity.
  - by_evaluation.
  - by_evaluation.
  - by_evaluation.
  - by_evaluation.
  - assert (Some bf = Some 2%Qc) as [= ->] by (rewrite <- Hbf; reflexivity).
    exists x, y. split; [exact Hx|]. split; [exact Hy|exact Hxy].
Defined.

(** ** The mortar coupling of [TpfaCoupling] *)

(** What [TpfaCoupling.matrix_rhs] computes: the block array of coupling
    terms that is added to the matrix, and the interface record. *)
Lemma coupling_inv (matrix out : list (list value)) (g_h g_l : Grid)
    (data_h data_l data_edge data_edge' : record) (mg : MortarGrid) :
  TpfaCoupling.matrix_rhs matrix g_h g_l data_h data_l data_edge
    = Ok (out, data_edge') →
  data_edge !! "mortar_grid" = Some (VMortar mg) →
  let hat_P := high_to_mortar_avg mg in
  let check_P := low_to_mortar_avg mg in
  let div_h := fvutils.scalar_divergence g_h in
  let dof := [num_cells g_h; num_cells g_l; mg_num_cells mg] in
  ∃ bpc bfl mtb cc02 hptm C22,
    data_h !! "bound_pressure_cell" = Some bpc ∧
    data_h !! "bound_flux" = Some bfl ∧
    Py.mul bfl (VMat (Sp.transpose hat_P)) = Ok mtb ∧
    Py.mul (VMat div_h) mtb = Ok cc02 ∧
    Py.mul (VMat hat_P) bpc = Ok hptm ∧
    Py.add_blocks matrix
      [[VMat (Sp.zero (num_cells g_h) (num_cells g_h));
        VMat (Sp.zero (num_cells g_h) (num_cells g_l)); cc02];
       [VMat (Sp.zero (num_cells g_l) (num_cells g_h));
        VMat (Sp.zero (num_cells g_l) (num_cells g_l));
        VMat (Sp.neg (Sp.transpose check_P))];
       [hptm; VMat (Sp.neg check_P); C22]] = Ok out ∧
    data_edge' =
      <["mortar_weight" := C22]>
        (<["check_P_to_mortar" := VMat check_P]>
           (<["hat_P_to_mortar" := hptm]>
              (<["jump" := VMat (Sp.neg (Sp.transpose check_P))]>
                 (<["mortar_to_bc" := mtb]> data_edge)))).
Proof.
  intros Hc Hmg hat_P check_P div_h dof. unfold TpfaCoupling.matrix_rhs in Hc.
  rewrite (getitem_Some _ _ _ Hmg) in Hc. cbn [rbind Py.as_mortar] in Hc.
  step Hc as bpc Ebpc. step Hc as bpf Ebpf.
  destruct (Sp.find (cell_faces g_h)) as [[faces_h cells_h0] sg] eqn:Hfind.
  step Hc as cells_h Ecells. step Hc as bfl Ebfl.
  cbn [TpfaCoupling.create_block_matrix] in Hc.
  step Hc as kn Ekn. step Hc as two_kn Etwo. step Hc as inv_k Einv.
  step Hc as param_h Eparam. step Hc as aperture_h Eap.
  step Hc as a_cells Eac. step Hc as a_mortar Eam.
  step Hc as ik Eik. step Hc as eta Eeta.
  step Hc as hpd Ehpd. step Hc as mtb Emtb. step Hc as cc02 Ecc02.
  step Hc as hptm Ehptm. step Hc as x1 Ex1. step Hc as x2 Ex2.
  unfold Py.set_block, Py.get_block, Tpfa.ndof in Hc. simpl in Hc.
  step Hc as cc22 Ecc22. step Hc as eta_m Eem. step Hc as cc23 Ecc23.
  step Hc as out' Eout. injection Hc as <- <-.
  apply getitem_Ok in Ebpc, Ebfl.
  exists bpc, bfl, mtb, cc02, hptm, cc23.
  do 5 (split; [done|]). split; [exact Eout|done].
Qed.

(** The interface record after the mortar coupling: five keys are written,
    the boundary-flux operator and the cell part of the boundary-pressure
    operator composed with the projection [hat_P], the projection [check_P]
    and its negated transpose, and the (mortar, mortar) block; every other
    key is left as it was. *)
Theorem coupling_interface_record (matrix out : list (list value))
    (g_h g_l : Grid) (data_h data_l data_edge data_edge' : record)
    (mg : MortarGrid) :
  TpfaCoupling.matrix_rhs matrix g_h g_l data_h data_l data_edge
    = Ok (out, data_edge') →
  data_edge !! "mortar_grid" = Some (VMortar mg) →
  let hat_P := high_to_mortar_avg mg in
  let check_P := low_to_mortar_avg mg in
  ∃ bfl bpc mtb hptm,
    data_h !! "bound_flux" = Some bfl ∧
    data_h !! "bound_pressure_cell" = Some bpc ∧
    Py.mul bfl (VMat (Sp.transpose hat_P)) = Ok mtb ∧
    Py.mul (VMat hat_P) bpc = Ok hptm ∧
    data_edge' !! "mortar_to_bc" = Some mtb ∧
    data_edge' !! "jump" = Some (VMat (Sp.neg (Sp.transpose check_P))) ∧
    data_edge' !! "hat_P_to_mortar" = Some hptm ∧
    data_edge' !! "check_P_to_mortar" = Some (VMat check_P) ∧
    is_Some (data_edge' !! "mortar_weight") ∧
    ∀ k, k ∉ ["mortar_to_bc"; "jump"; "hat_P_to_mortar"; "check_P_to_mortar";
              "mortar_weight"] →
         data_edge' !! k = data_edge !! k.
Proof.
  intros Hc Hmg hat_P check_P.
  destruct (coupling_inv _ _ _ _ _ _ _ _ _ Hc Hmg)
    as (bpc & bfl & mtb & cc02 & hptm & C22 & Hbpc & Hbfl & Hmtb & _ & Hhptm
        & _ & ->).
  exists bfl, bpc, mtb, hptm. do 4 (split; [done|]).
  split; [by do 4 rewrite lookup_insert_ne by done; rewrite lookup_insert_eq|].
  split; [by do 3 rewrite lookup_insert_ne by done; rewrite lookup_insert_eq|].
  split; [by do 2 rewrite lookup_insert_ne by done; rewrite lookup_insert_eq|].
  split; [by rewrite lookup_insert_ne by done; rewrite lookup_insert_eq|].
  split; [by rewrite lookup_insert_eq|].
  intros k Hk. rewrite !elem_of_cons, elem_of_nil in Hk.
  rewrite !lookup_insert_ne; [done|intros <-; tauto..].
Qed.

Lemma coupling_interface_record_witness :
  Examples.coupling_result.2 !! "check_P_to_mortar"
    = Some (VMat (low_to_mortar_avg Examples.mortar1)) ∧
  Examples.coupling_result.2 !! "kn" = Examples.edge_data !! "kn".
Proof.
  destruct (coupling_interface_record Examples.empty_blocks
              Examples.coupling_result.1 Examples.line3 Examples.point
              Examples.mixed_discretized Examples.point_data
              Examples.edge_data Examples.coupling_result.2 Examples.mortar1)
    as (bfl & bpc & mtb & hptm & _ & _ & _ & _ & _ & _ & _ & Hc & _ & Hk).
  - by_evaluation.
  - reflexivity.
  - split; [exact Hc|]. apply Hk. rewrite !elem_of_cons, elem_of_nil.
    intros [?|[?|[?|[?|[?|[]]]]]]; discriminate.
Defined.

Lemma add_zero_entries (A : smatrix) (n m : nat) (w : value) :
  Py.add (VMat A) (VMat (Sp.zero n m)) = Ok w →
  ∃ W, w = VMat W ∧ nrows W = nrows A ∧ ncols W = ncols A ∧
       entries W = entries A.
Proof.
  unfold Py.add, Sp.add. destruct (decide _); [|done]. intros [= <-].
  eexists. split; [done|]. simpl. by rewrite app_nil_r.
Qed.

(** The coupling terms, block by block: the block of the matrix passed in
    plus, on the (high, mortar) block, the divergence times the stored
    ['mortar_to_bc'] operator, on the (low, mortar) block, minus the
    transposed projection [check_P], on the (mortar, high) block, the stored
    ['hat_P_to_mortar'] operator, on the (mortar, low) block, minus
    [check_P]; the four blocks between the two grids receive no entry. *)
Theorem coupling_blocks (matrix out : list (list value))
    (g_h g_l : Grid) (data_h data_l data_edge data_edge' : record)
    (mg : MortarGrid) :
  TpfaCoupling.matrix_rhs matrix g_h g_l data_h data_l data_edge
    = Ok (out, data_edge') →
  data_edge !! "mortar_grid" = Some (VMortar mg) →
  let check_P := low_to_mortar_avg mg in
  let div_h := fvutils.scalar_divergence g_h in
  ∃ mtb hptm cc02,
    data_edge' !! "mortar_to_bc" = Some mtb ∧
    data_edge' !! "hat_P_to_mortar" = Some hptm ∧
    Py.mul (VMat div_h) mtb = Ok cc02 ∧
    (∀ a, Py.get_block matrix 0 2 = Ok a →
          ∃ w, Py.get_block out 0 2 = Ok w ∧ Py.add a cc02 = Ok w) ∧
    (∀ a, Py.get_block matrix 1 2 = Ok a →
          ∃ w, Py.get_block out 1 2 = Ok w ∧
               Py.add a (VMat (Sp.neg (Sp.transpose check_P))) = Ok w) ∧
    (∀ a, Py.get_block matrix 2 0 = Ok a →
          ∃ w, Py.get_block out 2 0 = Ok w ∧ Py.add a hptm = Ok w) ∧
    (∀ a, Py.get_block matrix 2 1 = Ok a →
          ∃ w, Py.get_block out 2 1 = Ok w ∧
               Py.add a (VMat (Sp.neg check_P)) = Ok w) ∧
    (∀ i j A, i < 2 → j < 2 →
       Py.get_block matrix i j = Ok (VMat A) →
       ∃ W, Py.get_block out i j = Ok (VMat W) ∧
            nrows W = nrows A ∧ ncols W = ncols A ∧
            entries W = entries A).
Proof.
  intros Hc Hmg check_P div_h.
  destruct (coupling_inv _ _ _ _ _ _ _ _ _ Hc Hmg)
    as (bpc & bfl & mtb & cc02 & hptm & C22 & _ & _ & _ & Hcc02 & _
        & Hout & ->).
  exists mtb, hptm, cc02.
  split; [by do 4 rewrite lookup_insert_ne by done; rewrite lookup_insert_eq|].
  split; [by do 2 rewrite lookup_insert_ne by done; rewrite lookup_insert_eq|].
  split; [done|].
  split; [intros a Ha; by apply (add_blocks_lookup _ _ _ 0 2 _ _ Hout Ha)|].
  split; [intros a Ha; by apply (add_blocks_lookup _ _ _ 1 2 _ _ Hout Ha)|].
  split; [intros a Ha; by apply (add_blocks_lookup _ _ _ 2 0 _ _ Hout Ha)|].
  split; [intros a Ha; by apply (add_blocks_lookup _ _ _ 2 1 _ _ Hout Ha)|].
  intros i j A Hi Hj HA.
  assert (∃ n m, Py.get_block
            [[VMat (Sp.zero (num_cells g_h) (num_cells g_h));
              VMat (Sp.zero (num_cells g_h) (num_cells g_l)); cc02];
             [VMat (Sp.zero (num_cells g_l) (num_cells g_h));
              VMat (Sp.zero (num_cells g_l) (num_cells g_l));
              VMat (Sp.neg (Sp.transpose (low_to_mortar_avg mg)))];
             [hptm; VMat (Sp.neg (low_to_mortar_avg mg)); C22]] i j
          = Ok (VMat (Sp.zero n m))) as (n & m & Hz).
  { destruct i as [|[|i]]; [| |lia]; (destruct j as [|[|j]]; [| |lia]);
      by eexists _, _. }
  destruct (add_blocks_lookup _ _ _ i j _ _ Hout HA Hz) as (w & Hw & Hadd).
  destruct (add_zero_entries A n m w Hadd) as (W & -> & Hr & Hcl & He).
  by exists W.
Qed.

Lemma coupling_blocks_witness :
  ∃ w, Py.get_block Examples.coupling_result.1 2 1 = Ok w ∧
       Py.add (VMat (Sp.zero 1 1))
         (VMat (Sp.neg (low_to_mortar_avg Examples.mortar1))) = Ok w.
Proof.
  destruct (coupling_blocks Examples.empty_blocks
              Examples.coupling_result.1 Examples.line3 Examples.point
              Examples.mixed_discretized Examples.point_data
              Examples.edge_data Examples.coupling_result.2 Examples.mortar1)
    as (mtb & hptm & cc02 & _ & _ & _ & _ & _ & _ & H21 & _).
  - by_evaluation.
  - reflexivity.
  - apply H21. by_evaluation.
Defined.

(** ** What the two couplings require *)

Lemma as_param_Ok (d : record) (p : Parameters) :
  rbind (Py.getitem d "param") Py.as_param = Ok p →
  d !! "param" = Some (VParam p).
Proof.
  intros Hp. apply rbind_Ok in Hp as (v & Ev & Hv). apply getitem_Ok in Ev.
  destruct v; try done. simpl in Hv. congruence.
Qed.

(** The mortar coupling fails when the interface record has no mortar grid
    or no normal permeability, when the normal permeability is the number
    zero, and when the parameters of the higher-dimensional grid are missing
    or carry no aperture. *)
Theorem coupling_requires_interface_data (matrix : list (list value))
    (g_h g_l : Grid) (data_h data_l data_edge : record) :
  data_edge !! "mortar_grid" = None ∨
  data_edge !! "kn" = None ∨
  (∃ kn, data_edge !! "kn" = Some kn ∧ Py.as_scalar kn = Some 0%Qc) ∨
  data_h !! "param" = None ∨
  (∃ p, data_h !! "param" = Some (VParam p) ∧ get_aperture p = None) →
  ¬ is_Ok (TpfaCoupling.matrix_rhs matrix g_h g_l data_h data_l data_edge).
Proof.
  intros Hcase [[out de] Hc]. unfold TpfaCoupling.matrix_rhs in Hc.
  step Hc as mg Emg.
  step Hc as bpc Ebpc. step Hc as bpf Ebpf.
  destruct (Sp.find (cell_faces g_h)) as [[faces_h cells_h0] sg] eqn:Hfind.
  step Hc as cells_h Ecells. step Hc as bfl Ebfl.
  cbn [TpfaCoupling.create_block_matrix] in Hc.
  step Hc as kn Ekn. step Hc as two_kn Etwo. step Hc as inv_k Einv.
  step Hc as param_h Eparam. step Hc as aperture_h Eap.
  step Hc as a_cells Eac. step Hc as a_mortar Eam.
  step Hc as ik Eik.
  apply getitem_Ok in Ekn. apply as_param_Ok in Eparam.
  apply from_option_or_Ok in Eap.
  destruct Hcase as [Hg|[Hk|[(kn' & Hk & Hz)|[Hp|(p & Hp & Ha)]]]].
  - by rewrite (getitem_None _ _ Hg) in Emg.
  - congruence.
  - destruct (inverse_k_Ok _ _ _ _ Etwo Einv Eik) as (_ & _ & _ & Hnz).
    apply (Hnz 0%Qc); [congruence|done].
  - congruence.
  - congruence.
Qed.

Lemma coupling_requires_interface_data_witness :
  ¬ is_Ok (TpfaCoupling.matrix_rhs Examples.empty_blocks Examples.line3
             Examples.point Examples.mixed_discretized Examples.point_data
             (<["kn" := VNum 0%Qc]> Examples.edge_data)).
Proof.
  apply coupling_requires_interface_data.
  right. right. left. exists (VNum 0%Qc). split; reflexivity.
Defined.

(** The direct coupling fails when the parameters of the higher-dimensional
    grid are missing or carry no aperture, and when the interface record has
    no face-cell incidence. *)
Theorem dfn_coupling_requires_data `{Sqrt} (g_h g_l : Grid)
    (data_h data_l data_edge : record) :
  data_h !! "param" = None ∨
  (∃ p, data_h !! "param" = Some (VParam p) ∧ get_aperture p = None) ∨
  data_edge !! "face_cells" = None →
  ¬ is_Ok (TpfaCouplingDFN.matrix_rhs g_h g_l data_h data_l data_edge).
Proof.
  intros Hcase [[cc de] Hc]. unfold TpfaCouplingDFN.matrix_rhs in Hc.
  step Hc as r Ect. clear Hc.
  unfold TpfaCouplingDFN.coupling_transmissibilities in Ect.
  step Ect as param_h Eparam. step Ect as face_cells Efc.
  apply as_param_Ok in Eparam.
  destruct Hcase as [Hp|[(p & Hp & Ha)|Hf]].
  - congruence.
  - assert (p = param_h) as -> by congruence.
    rewrite Ha in Ect. inv_steps Ect. discriminate.
  - apply rbind_Ok in Efc as (v & Ev & _). apply getitem_Ok in Ev. congruence.
Qed.

Lemma dfn_coupling_requires_data_witness :
  ¬ is_Ok (@TpfaCouplingDFN.matrix_rhs Examples.sqrt_exact
             Examples.parallelogram Examples.segment
             Examples.parallelogram_data Examples.segment_data ∅).
Proof.
  apply dfn_coupling_requires_data. right. right. reflexivity.
Defined.

(** ** The flux of the direct coupling *)

Lemma sum_upto_scale (n : nat) (c : Qc) (φ : nat → Qc) :
  sum_upto n (λ k, (c * φ k)%Qc) = (c * sum_upto n φ)%Qc.
Proof. apply qsum_fmap_scale. Qed.

Lemma sum_upto_exchange (n m : nat) (φ : nat → nat → Qc) :
  sum_upto n (λ i, sum_upto m (λ j, φ i j))
  = sum_upto m (λ j, sum_upto n (λ i, φ i j)).
Proof.
  induction n as [|n IH].
  - symmetry. apply sum_upto_zero. done.
  - rewrite sum_upto_S, IH, <- sum_upto_add.
    apply sum_upto_ext. intros j _. by rewrite sum_upto_S.
Qed.

Lemma sum_upto_plus (a b : nat) (φ : nat → Qc) :
  sum_upto (a + b) φ = (sum_upto a φ + sum_upto b (λ k, φ (a + k)%nat))%Qc.
Proof.
  induction b as [|b IH].
  - rewrite Nat.add_0_r. unfold sum_upto at 3. simpl. ring.
  - rewrite Nat.add_succ_r, !sum_upto_S, IH. ring.
Qed.

Lemma mget_shift (es : list (nat * nat * Qc)) (n m n' m' a i j : nat) :
  Sp.mget (SMat n m ((λ e : nat * nat * Qc, (e.1.1, a + e.1.2, e.2)) <$> es))
    i j
  = if decide (a ≤ j) then Sp.mget (SMat n' m' es) i (j - a) else 0%Qc.
Proof.
  induction es as [|e es IH].
  - rewrite fmap_nil, !mget_nil. by destruct (decide _).
  - rewrite fmap_cons, mget_cons, IH. cbn [fst snd].
    destruct (decide (a ≤ j)).
    + rewrite mget_cons.
      destruct (decide (e.1.1 = i ∧ a + e.1.2 = j)),
               (decide (e.1.1 = i ∧ e.1.2 = j - a)); try ring; exfalso;
        intuition lia.
    + rewrite decide_False by lia. ring.
Qed.

Lemma mget_hstack (A B C : smatrix) (i j : nat) :
  Sp.hstack A B = Ok C →
  Forall (λ e : nat * nat * Qc, e.1.2 < ncols A) (entries A) →
  nrows C = nrows A ∧ ncols C = ncols A + ncols B ∧
  Sp.mget C i j = if decide (j < ncols A) then Sp.mget A i j
                  else Sp.mget B i (j - ncols A).
Proof.
  unfold Sp.hstack. destruct (decide _); [|done]. intros [= <-] Hin.
  split; [done|]. split; [done|].
  rewrite (mget_app _ _ (nrows A) (ncols A) (nrows B) (ncols B)).
  rewrite (mget_shift _ _ _ (nrows B) (ncols B)).
  replace (SMat (nrows A) (ncols A) (entries A)) with A by by destruct A.
  replace (SMat (nrows B) (ncols B) (entries B)) with B by by destruct B.
  destruct (decide (j < ncols A)).
  - rewrite decide_False by lia. ring.
  - rewrite decide_True by lia.
    rewrite (mget_col_out A (ncols A)) by (done || lia). ring.
Qed.

(** The product with a matrix, summed over a row. *)
Lemma row_sum_mul (A B C : smatrix) (i : nat) :
  Sp.mul A B = Ok C →
  Forall (λ e : nat * nat * Qc, e.1.1 < nrows B) (entries B) →
  row_sum C i = sum_upto (ncols A) (λ k, (Sp.mget A i k * row_sum B k)%Qc).
Proof.
  intros Hm HB. unfold row_sum.
  destruct (mget_mul A B C i 0 Hm HB) as (_ & -> & _).
  rewrite (sum_upto_ext _ _
             (λ j, sum_upto (ncols A)
                     (λ k, (Sp.mget A i k * Sp.mget B k j)%Qc))).
  2:{ intros j _. by destruct (mget_mul A B C i j Hm HB) as (_ & _ & ->). }
  rewrite sum_upto_exchange. apply sum_upto_ext. intros k _.
  by rewrite sum_upto_scale.
Qed.

Lemma zip_rows_in_range (I J : list nat) (d : list Qc) (n : nat) :
  Forall (λ i, i < n) I →
  Forall (λ e : nat * nat * Qc, e.1.1 < n) (zip (zip I J) d).
Proof.
  intros HI. apply Forall_forall. intros [[i j] x] Hin.
  apply list_elem_of_lookup_1 in Hin as [k Hk].
  rewrite !lookup_zip_with in Hk.
  destruct (I !! k) as [i'|] eqn:Ei; [|done]. destruct (J !! k); [|done].
  destruct (d !! k); [|done]. simpl in Hk. injection Hk as -> -> ->.
  simpl. eapply Forall_forall in HI; [exact HI|].
  by eapply list_elem_of_lookup_2.
Qed.

(** The operator stored under ['coupling_flux'] has one row per face of the
    higher-dimensional grid and one column per cell of the two grids, and
    each of its rows sums to zero: equal pressures on the two sides of the
    interface give no flux. *)
Theorem dfn_coupling_flux_conservative `{Sqrt} (g_h g_l : Grid)
    (data_h data_l data_edge data_edge' : record)
    (cc : list (list smatrix)) (f : nat) :
  TpfaCouplingDFN.matrix_rhs g_h g_l data_h data_l data_edge
    = Ok (cc, data_edge') →
  ∃ CF, data_edge' !! "coupling_flux" = Some (VMat CF) ∧
        nrows CF = num_faces g_h ∧
        ncols CF = num_cells g_h + num_cells g_l ∧
        row_sum CF f = 0%Qc.
Proof.
  intros Hc. unfold TpfaCouplingDFN.matrix_rhs in Hc.
  step Hc as r Ect. destruct r as [[[[cells_l cells_h] faces_h] sgn_h] t].
  step Hc as cc10 E10.
  unfold Py.set_block, Py.get_block, Tpfa.ndof in Hc. simpl in Hc.
  step Hc as cc00 E00. step Hc as cc11 E11. step Hc as c2f Ec2f.
  step Hc as f0 Ef0. step Hc as f1 Ef1. step Hc as cf Ecf.
  injection Hc as <- <-.
  pose proof (coo_matrix_eq _ _ _ _ _ E10) as H10.
  pose proof (coo_matrix_eq _ _ _ _ _ E00) as H00.
  pose proof (coo_matrix_eq _ _ _ _ _ Ec2f) as Hc2f.
  apply coo_matrix_Ok in E10 as (Ll & Lh & _ & R10 & C10 & Fl & Fh).
  apply coo_matrix_Ok in E00 as (_ & _ & _ & R00 & C00 & _ & _).
  apply coo_matrix_Ok in Ec2f as (_ & _ & _ & Rc & Cc & _ & _).
  unfold Tpfa.ndof in *.
  rewrite length_fmap in Ll, Lh.
  rewrite R10, C10 in H10. rewrite R00, C00 in H00.
  (* rows of the two diagonal-side blocks *)
  assert (∀ k, k < num_cells g_h →
            (row_sum cc00 k + row_sum (Sp.transpose cc10) k = 0)%Qc) as Hrow.
  { intros k Hk. unfold row_sum.
    change (ncols (Sp.transpose cc10)) with (nrows cc10).
    rewrite R10, C00.
    rewrite (sum_upto_ext (num_cells g_l)
               (λ j, Sp.mget (Sp.transpose cc10) k j)
               (λ l, Sp.mget cc10 l k))
      by (intros; apply mget_transpose).
    rewrite (sum_upto_one (num_cells g_h) k (λ j, Sp.mget cc00 k j)) by
      (try done; intros j Hj; rewrite H00;
       by apply mget_diagonal_triplets).
    rewrite H00, H10.
    rewrite (diagonal_column_sum cells_l cells_h t (num_cells g_l)
               (num_cells g_h)) by done.
    ring. }
  destruct (mget_mul c2f cc00 f0 0 0 Ef0) as (Rf0 & Cf0 & _).
  { rewrite H00. simpl. by apply zip_rows_in_range. }
  destruct (mget_mul c2f (Sp.transpose cc10) f1 0 0 Ef1) as (Rf1 & Cf1 & _).
  { rewrite H10. simpl. apply Forall_fmap.
    eapply Forall_impl; [apply (zip_columns_in_range _ _ _ _ Fh)|]. done. }
  assert (Forall (λ e : nat * nat * Qc, e.1.2 < ncols f0) (entries f0)) as Hf0.
  { rewrite Cf0. eapply mul_cols; [exact Ef0|].
    rewrite H00. simpl. by apply zip_columns_in_range. }
  destruct (mget_hstack f0 f1 cf f 0 Ecf Hf0) as (Rcf & Ccf & _).
  exists cf. split.
  { by rewrite lookup_insert_ne by done; rewrite lookup_insert_eq. }
  split; [congruence|].
  split. { rewrite Ccf, Cf0, Cf1, C00. simpl. by rewrite R10. }
  unfold row_sum at 1. rewrite Ccf, sum_upto_plus.
  rewrite (sum_upto_ext (ncols f0) _ (λ j, Sp.mget f0 f j)).
  2:{ intros j Hj. destruct (mget_hstack f0 f1 cf f j Ecf Hf0) as (_ & _ & ->).
      by rewrite decide_True. }
  rewrite (sum_upto_ext (ncols f1) _ (λ j, Sp.mget f1 f j)).
  2:{ intros j Hj.
      destruct (mget_hstack f0 f1 cf f (ncols f0 + j) Ecf Hf0) as (_ & _ & ->).
      rewrite decide_False by lia. f_equal. lia. }
  fold (row_sum f0 f). fold (row_sum f1 f).
  rewrite (row_sum_mul c2f cc00 f0 f Ef0)
    by (rewrite H00; simpl; by apply zip_rows_in_range).
  rewrite (row_sum_mul c2f (Sp.transpose cc10) f1 f Ef1).
  2:{ rewrite H10. simpl. apply Forall_fmap.
      eapply Forall_impl; [apply (zip_columns_in_range _ _ _ _ Fh)|]. done. }
  rewrite <- sum_upto_add. apply sum_upto_zero. intros k Hk.
  rewrite Cc in Hk.
  rewrite <- Qcmult_plus_distr_r, (Hrow k Hk). ring.
Qed.

Lemma dfn_coupling_flux_conservative_witness :
  ∃ CF, Examples.dfn_result.2 !! "coupling_flux" = Some (VMat CF) ∧
        nrows CF = 4 ∧ ncols CF = 1 + 1 ∧ row_sum CF 1 = 0%Qc.
Proof.
  apply (@dfn_coupling_flux_conservative Examples.sqrt_exact
           Examples.parallelogram Examples.segment
           Examples.parallelogram_data Examples.segment_data
           Examples.dfn_edge Examples.dfn_result.2 Examples.dfn_result.1 1).
  by_evaluation.
Defined.

(** The direct coupling reads the lower-dimensional side through its number
    of cells only: the geometry of the lower-dimensional grid and its
    record, permeability and aperture included, have no influence on the
    result. *)
Theorem dfn_coupling_ignores_lower_side `{Sqrt} (g_h g_l g_l' : Grid)
    (data_h data_l data_l' data_edge : record) :
  num_cells g_l = num_cells g_l' →
  TpfaCouplingDFN.matrix_rhs g_h g_l data_h data_l data_edge
  = TpfaCouplingDFN.matrix_rhs g_h g_l' data_h data_l' data_edge.
Proof.
  intros Hn. unfold TpfaCouplingDFN.matrix_rhs, Tpfa.ndof.
  rewrite Hn. reflexivity.
Qed.

Lemma dfn_coupling_ignores_lower_side_witness :
  @TpfaCouplingDFN.matrix_rhs Examples.sqrt_exact Examples.parallelogram
    Examples.segment Examples.parallelogram_data Examples.segment_data
    Examples.dfn_edge
  = @TpfaCouplingDFN.matrix_rhs Examples.sqrt_exact Examples.parallelogram
      Examples.point Examples.parallelogram_data ∅ Examples.dfn_edge.
Proof.
  apply (@dfn_coupling_ignores_lower_side Examples.sqrt_exact).
  reflexivity.
Defined.

(** ** The grid-wise assembly of [TpfaDFN] *)


